(** * Titanic game: world generation, ship physics and encounter detection

    A shallow embedding of the two variants of the game's main script:
    the simple variant (open ocean, ship starts at the world origin) and the
    extended variant (coal, start port, goal, bounded world).

    Number model.  JavaScript numbers are idealised as real numbers: [+], [-],
    [*], [/], [Math.sqrt], [Math.sin], [Math.cos], [Math.abs], [Math.max],
    [Math.min] are the operations of [R]; [Math.floor] and [Math.ceil] return
    integers ([Z]).  Reals rather than rationals, because the script takes
    square roots, sines and cosines; a value at a concrete input is
    obtained from interval bounds (Taylor bounds for [sin] and [cos]).
    Rounding, NaN and the infinities are outside the model; the one place
    where the script produces an infinity (a canvas of area zero makes the
    candidate count infinite and the generation loop endless) is modelled
    as a missing result ([None]), and every other division is by a nonzero
    constant.

    Globals.  Every module-level variable and object of the script is a field
    of the record [World]; a function of the script that mutates globals is a
    function [World -> World].  The held keys, the frame timestamp and the
    draws of [Math.random] come from the host and are arguments. *)

From stdpp Require Import gmap.
From Stdlib Require Import Reals Lra Lia ZArith.

Local Open Scope R_scope.

(** ** Comparisons of numbers as decidable propositions *)

#[global] Instance Rlt_decision : RelDecision Rlt := Rlt_dec.
#[global] Instance Rle_decision : RelDecision Rle := Rle_dec.
#[global] Instance Rgt_decision : RelDecision Rgt := Rgt_dec.
#[global] Instance Rge_decision : RelDecision Rge := Rge_dec.
#[global] Instance Req_decision : EqDecision R := Req_dec_T.

(** ** The parts of [Math] the script uses *)

Module Math.
Definition floor (x : R) : Z := Int_part x.
Definition ceil (x : R) : Z := (- Int_part (- x))%Z.
Definition abs : R -> R := Rabs.
Definition max : R -> R -> R := Rmax.
Definition min : R -> R -> R := Rmin.
Definition sqrt : R -> R := R_sqrt.sqrt.
Definition sin : R -> R := Rtrigo_def.sin.
Definition cos : R -> R := Rtrigo_def.cos.
Definition PI : R := Rtrigo1.PI.
End Math.

Arguments Math.sqrt : simpl never.
Arguments Math.sin : simpl never.
Arguments Math.cos : simpl never.
Arguments Math.floor : simpl never.
Arguments Math.ceil : simpl never.

(** ** Configuration objects (identical in both variants) *)

Module shipConfig.
Definition maxSpeed : R := 3.5.
Definition maxReverseSpeed : R := 0.8.
Definition accelerationPower : R := 0.03.
Definition accelerationDecay : R := 0.08.
Definition friction : R := 0.02.
Definition maxRudderAngle : R := Math.PI / 6.
Definition rudderSpeed : R := 0.03.
Definition turnRate : R := 0.02.
Definition pivotPoint : R := 0.7.
End shipConfig.

Module icebergsConfig.
Definition density : R := 10.
Definition minSize : R := 30.
Definition maxSize : R := 80.
Definition minPoints : R := 6.
Definition maxPoints : R := 12.
End icebergsConfig.

Definition icebergGridSize : R := 500.

(** ** Data *)

(** The input state [keys]. *)
Record Keys := mkKeys {
  ArrowUp : bool;
  ArrowDown : bool;
  ArrowLeft : bool;
  ArrowRight : bool
}.

(** The mutable fields of the object [ship]; [ship.length] and [ship.width]
    are never assigned and are the constants below. *)
Record Ship := mkShip {
  screenX : R;
  screenY : R;
  rotation : R;
  speed : R;
  acceleration : R;
  rudderAngle : R
}.

Definition ship_length : R := 200.
Definition ship_width : R := 60.

(** The object [camera]: the ship's position in the world. *)
Record Camera := mkCamera { cam_x : R; cam_y : R }.

(** The element pushed on [icebergs]. *)
Record Iceberg := mkIceberg {
  ice_x : R;
  ice_y : R;
  size : R;
  pointCount : Z;
  seed : Z
}.

(** [canvas.width] and [canvas.height], integers set by the host. *)
Record Canvas := mkCanvas { width : Z; height : Z }.

(** The rectangle stored in [gameOverButton]. *)
Record Button := mkButton { btn_x : R; btn_y : R; btn_width : R; btn_height : R }.

(** A chunk key: the script's string [`${chunkX},${chunkY}`], which is
    one-to-one on pairs of integers. *)
Definition ChunkKey : Type := (Z * Z)%type.

(** ** Blocks of [updateShip] shared by both variants *)

(** "Gradually reduce acceleration when no input". *)
Definition decayAcceleration (a : R) : R :=
  if decide (a > 0) then Math.max 0 (a - shipConfig.accelerationDecay)
  else if decide (a < 0) then Math.min 0 (a + shipConfig.accelerationDecay)
  else a.

(** "Clamp speed to limits". *)
Definition clampSpeed (v : R) : R :=
  if decide (v > shipConfig.maxSpeed) then shipConfig.maxSpeed
  else if decide (v < - shipConfig.maxReverseSpeed) then - shipConfig.maxReverseSpeed
  else v.

(** The body of the friction conditional. *)
Definition applyFriction (v : R) : R :=
  if decide (v > 0) then Math.max 0 (v - shipConfig.friction)
  else if decide (v < 0) then Math.min 0 (v + shipConfig.friction)
  else v.

(** "Handle rudder control". *)
Definition steerRudder (keys : Keys) (r : R) : R :=
  if ArrowLeft keys then
    Math.max (r - shipConfig.rudderSpeed) (- shipConfig.maxRudderAngle)
  else if ArrowRight keys then
    Math.min (r + shipConfig.rudderSpeed) shipConfig.maxRudderAngle
  else if decide (r > 0) then Math.max 0 (r - shipConfig.rudderSpeed)
  else if decide (r < 0) then Math.min 0 (r + shipConfig.rudderSpeed)
  else r.

(** Turning about the pivot point: the new rotation and the camera after
    the pivot correction (before the translation). *)
Definition turnAboutPivot (rot spd rudder : R) (cam : Camera) : R * Camera :=
  let turnEffectiveness := Math.abs spd / shipConfig.maxSpeed in
  let rotationDelta := rudder * shipConfig.turnRate * turnEffectiveness in
  let pivotOffset := (shipConfig.pivotPoint - 0.5) * ship_length in
  let pivotWorldX := cam_x cam + Math.cos rot * pivotOffset in
  let pivotWorldY := cam_y cam + Math.sin rot * pivotOffset in
  let rot' := rot + rotationDelta in
  let newPivotWorldX := cam_x cam + Math.cos rot' * pivotOffset in
  let newPivotWorldY := cam_y cam + Math.sin rot' * pivotOffset in
  (rot', mkCamera (cam_x cam + (pivotWorldX - newPivotWorldX))
                  (cam_y cam + (pivotWorldY - newPivotWorldY))).

(** A [for] loop whose body may fail to return. *)
Fixpoint forEach {S A : Type} (body : A -> S -> option S) (l : list A) (s : S)
  : option S :=
  match l with
  | [] => Some s
  | a :: l' => s' ← body a s; forEach body l' s'
  end.

(** ** WorldGenerator: the text of [generateIcebergsForChunk] and
    [ensureIcebergsGenerated] is the same in both variants; it reads
    [canvas] and [camera] and updates [icebergs] and [loadedIcebergChunks],
    the two components of [Field]. *)

Module WorldGenerator.

Record Field := mkField {
  f_icebergs : list Iceberg;
  f_loaded : gset ChunkKey
}.

(** [Math.abs(h - Math.floor(h))], the script's pseudo-random sample. *)
Definition fracHash (h : R) : R := Math.abs (h - IZR (Math.floor h)).

Definition startSafeRadius : R := 300.

(** [expectedCount]; a canvas of area zero gives an infinite count in the
    script, and no result here. *)
Definition expectedCount (canvas : Canvas) : option Z :=
  let screenArea := (width canvas * height canvas)%Z in
  let chunkArea := icebergGridSize * icebergGridSize in
  if decide (screenArea = 0%Z) then None
  else
    let screensPerChunk := chunkArea / IZR screenArea in
    Some (Math.floor (screensPerChunk * icebergsConfig.density)).

(** One iteration of the [for] loop over the candidate index [i]: either
    [continue] (the list is unchanged) or [icebergs.push]. *)
Definition candidateStep (chunkX chunkY : Z) (ices : list Iceberg) (i : Z)
  : list Iceberg :=
  let chunkWorldX := IZR chunkX * icebergGridSize in
  let chunkWorldY := IZR chunkY * icebergGridSize in
  let seed := (chunkX * 1000 + chunkY)%Z in
  let hash1 := Math.sin (IZR (seed + i) * 0.1) * 10000 in
  let hash2 := Math.cos (IZR (seed + i) * 0.1) * 10000 in
  let x := chunkWorldX + fracHash hash1 * icebergGridSize in
  let y := chunkWorldY + fracHash hash2 * icebergGridSize in
  let distFromStart := Math.sqrt (x * x + y * y) in
  if decide (distFromStart < startSafeRadius) then ices
  else
    let sizeHash := Math.sin (IZR (seed + i) * 0.15) * 10000 in
    let size := icebergsConfig.minSize +
                fracHash sizeHash *
                (icebergsConfig.maxSize - icebergsConfig.minSize) in
    let pointsHash := Math.sin (IZR (seed + i) * 0.2) * 10000 in
    let pointCount := Math.floor (icebergsConfig.minPoints +
                        fracHash pointsHash *
                        (icebergsConfig.maxPoints - icebergsConfig.minPoints)) in
    ices ++ [mkIceberg x y size pointCount (seed + i)].

(** The body of [generateIcebergsForChunk] after the already-generated
    guard and the [loadedIcebergChunks.add]. *)
Definition generateChunkBody (canvas : Canvas) (chunkX chunkY : Z)
    (ices : list Iceberg) : option (list Iceberg) :=
  n ← expectedCount canvas;
  Some (foldl (candidateStep chunkX chunkY) ices (seqZ 0 n)).

Definition generateIcebergsForChunk (canvas : Canvas) (chunkX chunkY : Z)
    (f : Field) : option Field :=
  let chunkKey : ChunkKey := (chunkX, chunkY) in
  if decide (chunkKey ∈ f_loaded f) then Some f
  else
    let loaded := {[ chunkKey ]} ∪ f_loaded f in
    ices ← generateChunkBody canvas chunkX chunkY (f_icebergs f);
    Some (mkField ices loaded).

(** The integers [lo, lo+1, ..., hi] of [for (c = lo; c <= hi; c++)]. *)
Definition fromTo (lo hi : Z) : list Z := seqZ lo (hi - lo + 1).

(** The inclusive chunk ranges [ensureIcebergsGenerated] visits. *)
Definition chunkRangeX (canvas : Canvas) (camera : Camera) : Z * Z :=
  let visibleWorldWidth := IZR (width canvas) in
  (Math.floor ((cam_x camera - visibleWorldWidth / 2) / icebergGridSize),
   Math.ceil ((cam_x camera + visibleWorldWidth / 2) / icebergGridSize)).

Definition chunkRangeY (canvas : Canvas) (camera : Camera) : Z * Z :=
  let visibleWorldHeight := IZR (height canvas) in
  (Math.floor ((cam_y camera - visibleWorldHeight / 2) / icebergGridSize),
   Math.ceil ((cam_y camera + visibleWorldHeight / 2) / icebergGridSize)).

Definition ensureIcebergsGenerated (canvas : Canvas) (camera : Camera)
    (f : Field) : option Field :=
  let '(minChunkX, maxChunkX) := chunkRangeX canvas camera in
  let '(minChunkY, maxChunkY) := chunkRangeY canvas camera in
  forEach (fun chunkX =>
    forEach (fun chunkY => generateIcebergsForChunk canvas chunkX chunkY)
            (fromTo minChunkY maxChunkY))
    (fromTo minChunkX maxChunkX) f.

End WorldGenerator.

(** ** EncounterDetector: the loop of [checkCollisions], the same in both
    variants; [true] when the loop reaches [gameOver = true]. *)

Definition shipRadius : R := ship_width / 2.
Definition maxCheckDistance : R := ship_length + icebergsConfig.maxSize + 50.

Definition hitsIceberg (camera : Camera) (iceberg : Iceberg) : bool :=
  let dx := cam_x camera - ice_x iceberg in
  let dy := cam_y camera - ice_y iceberg in
  let distanceSquared := dx * dx + dy * dy in
  if decide (distanceSquared > maxCheckDistance * maxCheckDistance) then false
  else
    let distance := Math.sqrt distanceSquared in
    let icebergRadius := size iceberg in
    bool_decide (distance < shipRadius + icebergRadius).

Fixpoint collisionLoop (camera : Camera) (ices : list Iceberg) : bool :=
  match ices with
  | [] => false
  | iceberg :: rest =>
      if hitsIceberg camera iceberg then true else collisionLoop camera rest
  end.

(** * The simple variant *)

Module Simple.

Record World := mkWorld {
  gameRunning : bool;
  gameOver : bool;
  animationTime : R;
  camera : Camera;
  icebergs : list Iceberg;
  loadedIcebergChunks : gset ChunkKey;
  ship : Ship;
  lastTime : R;
  canvas : Canvas;
  gameOverButton : option Button
}.

Definition set_gameRunning (v : bool) (w : World) : World :=
  mkWorld v (gameOver w) (animationTime w) (camera w) (icebergs w)
    (loadedIcebergChunks w) (ship w) (lastTime w) (canvas w)
    (gameOverButton w).

Definition set_gameOver (v : bool) (w : World) : World :=
  mkWorld (gameRunning w) v (animationTime w) (camera w) (icebergs w)
    (loadedIcebergChunks w) (ship w) (lastTime w) (canvas w)
    (gameOverButton w).

Definition set_animationTime (v : R) (w : World) : World :=
  mkWorld (gameRunning w) (gameOver w) v (camera w) (icebergs w)
    (loadedIcebergChunks w) (ship w) (lastTime w) (canvas w)
    (gameOverButton w).

Definition set_camera (v : Camera) (w : World) : World :=
  mkWorld (gameRunning w) (gameOver w) (animationTime w) v (icebergs w)
    (loadedIcebergChunks w) (ship w) (lastTime w) (canvas w)
    (gameOverButton w).

Definition set_icebergs (v : list Iceberg) (w : World) : World :=
  mkWorld (gameRunning w) (gameOver w) (animationTime w) (camera w) v
    (loadedIcebergChunks w) (ship w) (lastTime w) (canvas w)
    (gameOverButton w).

Definition set_loadedIcebergChunks (v : gset ChunkKey) (w : World) : World :=
  mkWorld (gameRunning w) (gameOver w) (animationTime w) (camera w)
    (icebergs w) v (ship w) (lastTime w) (canvas w) (gameOverButton w).

Definition set_ship (v : Ship) (w : World) : World :=
  mkWorld (gameRunning w) (gameOver w) (animationTime w) (camera w)
    (icebergs w) (loadedIcebergChunks w) v (lastTime w) (canvas w)
    (gameOverButton w).

Definition set_lastTime (v : R) (w : World) : World :=
  mkWorld (gameRunning w) (gameOver w) (animationTime w) (camera w)
    (icebergs w) (loadedIcebergChunks w) (ship w) v (canvas w)
    (gameOverButton w).

Definition set_canvas (v : Canvas) (w : World) : World :=
  mkWorld (gameRunning w) (gameOver w) (animationTime w) (camera w)
    (icebergs w) (loadedIcebergChunks w) (ship w) (lastTime w) v
    (gameOverButton w).

Definition set_gameOverButton (v : option Button) (w : World) : World :=
  mkWorld (gameRunning w) (gameOver w) (animationTime w) (camera w)
    (icebergs w) (loadedIcebergChunks w) (ship w) (lastTime w) (canvas w) v.

(** The fields of [World] the generator works on, and their write-back. *)
Definition field (w : World) : WorldGenerator.Field :=
  WorldGenerator.mkField (icebergs w) (loadedIcebergChunks w).

Definition set_field (f : WorldGenerator.Field) (w : World) : World :=
  set_loadedIcebergChunks (WorldGenerator.f_loaded f)
    (set_icebergs (WorldGenerator.f_icebergs f) w).

Definition generateIcebergsForChunk (chunkX chunkY : Z) (w : World)
  : option World :=
  f ← WorldGenerator.generateIcebergsForChunk (canvas w) chunkX chunkY (field w);
  Some (set_field f w).

Definition ensureIcebergsGenerated (w : World) : option World :=
  f ← WorldGenerator.ensureIcebergsGenerated (canvas w) (camera w) (field w);
  Some (set_field f w).

(** [drawShip]: the one drawing function that writes to [ship]. *)
Definition drawShip (w : World) : World :=
  let s := ship w in
  set_ship (mkShip (IZR (width (canvas w)) / 2) (IZR (height (canvas w)) / 2)
                   (rotation s) (speed s) (acceleration s) (rudderAngle s)) w.

(** [drawGameOver]: stores the bounds of the restart button. *)
Definition drawGameOver (w : World) : World :=
  if negb (gameOver w) then w
  else
    let buttonX := IZR (width (canvas w)) / 2 in
    let buttonY := IZR (height (canvas w)) / 2 + 60 in
    let buttonWidth := 200 in
    let buttonHeight := 50 in
    set_gameOverButton
      (Some (mkButton (buttonX - buttonWidth / 2) (buttonY - buttonHeight / 2)
                      buttonWidth buttonHeight)) w.

(** [updateShip(deltaTime)]. *)
Definition updateShip (deltaTime : R) (keys : Keys) (w : World) : World :=
  let s := ship w in
  (* acceleration input *)
  let acceleration1 :=
    if ArrowUp keys then shipConfig.accelerationPower
    else if ArrowDown keys then - shipConfig.accelerationPower
    else decayAcceleration (acceleration s) in
  (* apply acceleration to speed *)
  let speed1 :=
    if bool_decide (acceleration1 <> 0)
    then clampSpeed (speed s + acceleration1)
    else speed s in
  (* friction *)
  let speed2 :=
    if bool_decide (acceleration1 = 0)
       || (bool_decide (acceleration1 > 0)
           && bool_decide (speed1 >= shipConfig.maxSpeed))
       || (bool_decide (acceleration1 < 0)
           && bool_decide (speed1 <= - shipConfig.maxReverseSpeed))
    then applyFriction speed1
    else speed1 in
  let rudderAngle1 := steerRudder keys (rudderAngle s) in
  let '(rotation1, camera1) :=
    turnAboutPivot (rotation s) speed2 rudderAngle1 (camera w) in
  let camera2 :=
    mkCamera (cam_x camera1 + Math.cos rotation1 * speed2)
             (cam_y camera1 + Math.sin rotation1 * speed2) in
  set_camera camera2
    (set_ship (mkShip (screenX s) (screenY s) rotation1 speed2 acceleration1
                      rudderAngle1) w).

(** [checkCollisions]. *)
Definition checkCollisions (w : World) : World :=
  if gameOver w then w
  else if collisionLoop (camera w) (icebergs w)
       then set_gameRunning false (set_gameOver true w)
       else w.

(** [restartGame], called at time [now].  (It also releases the four
    keys, which are an argument of the next frame here.) *)
Definition restartGame (now : R) (w : World) : World :=
  set_lastTime now
    (set_animationTime 0
      (set_loadedIcebergChunks ∅
        (set_icebergs []
          (set_camera (mkCamera 0 0)
            (set_ship (mkShip (screenX (ship w)) (screenY (ship w))
                              (- Math.PI / 2) 0 0 0)
              (set_gameRunning true (set_gameOver false w))))))).

(** One call of [gameLoop(currentTime)] with the keys held at that moment.
    The drawing calls that write no global are left out. *)
Definition gameLoop (currentTime : R) (keys : Keys) (w : World) : option World :=
  if negb (gameRunning w) && negb (gameOver w) then Some w
  else
    let deltaTime := Math.min ((currentTime - lastTime w) / 16.67) 2 in
    let w := set_lastTime currentTime w in
    let w := set_animationTime (animationTime w + 0.5) w in
    w ← (if negb (gameOver w) then
           w ← ensureIcebergsGenerated (updateShip deltaTime keys w);
           Some (checkCollisions w)
         else Some w);
    Some (drawGameOver (drawShip w)).

(** The globals after the script's top-level initialisers, loaded at time
    [now] in a window of size [cv]. *)
Definition initialWorld (cv : Canvas) (now : R) : World :=
  {| gameRunning := true; gameOver := false; animationTime := 0;
     camera := mkCamera 0 0; icebergs := []; loadedIcebergChunks := ∅;
     ship := mkShip 0 0 (- Math.PI / 2) 0 0 0;
     lastTime := now; canvas := cv; gameOverButton := None |}.

(** [updateShip] run once per tick, on the (deltaTime, keys) of each tick. *)
Definition sail (inputs : list (R * Keys)) (w : World) : World :=
  foldl (fun w '(deltaTime, keys) => updateShip deltaTime keys w) w inputs.

(** [gameLoop] run once per frame, on the (currentTime, keys) of each
    frame. *)
Definition play (frames : list (R * Keys)) (w : World) : option World :=
  forEach (fun '(currentTime, keys) => gameLoop currentTime keys) frames w.

End Simple.

(** * The extended variant *)

Module coalConfig.
Definition maxCoal : R := 100.
Definition depletionRate : R := 0.01.
End coalConfig.

Module worldConfig.
Definition width : R := 10000.
Definition height : R := 10000.
Definition iceBarrierWidth : R := 100.
End worldConfig.

Module goalConfig.
Definition radius : R := 250.
Definition edgeOffset : R := 300.
End goalConfig.

(** The objects [goal] and [startPort]. *)
Record Port := mkPort { port_x : R; port_y : R; generated : bool }.

(** [Math.random()]: the host's draws, taken from the head of a list;
    a function that needs a draw when none is left has no result. *)
Definition Draws : Type := list R.

(** The [switch (edge)] of [generateStartPort] and [generateGoal]: the
    matched case takes one draw for the position along the edge; no case
    matches an [edge] outside 0..3. *)
Definition placeOnEdge (edge : Z) (p : Port) (draws : Draws)
  : option (Port * Draws) :=
  let offset := goalConfig.edgeOffset in
  match edge with
  | 0%Z => (* top *)
      match draws with
      | r :: rest =>
          Some (mkPort (offset + r * (worldConfig.width - offset * 2)) offset
                       (generated p), rest)
      | [] => None
      end
  | 1%Z => (* right *)
      match draws with
      | r :: rest =>
          Some (mkPort (worldConfig.width - offset)
                       (offset + r * (worldConfig.height - offset * 2))
                       (generated p), rest)
      | [] => None
      end
  | 2%Z => (* bottom *)
      match draws with
      | r :: rest =>
          Some (mkPort (offset + r * (worldConfig.width - offset * 2))
                       (worldConfig.height - offset) (generated p), rest)
      | [] => None
      end
  | 3%Z => (* left *)
      match draws with
      | r :: rest =>
          Some (mkPort offset (offset + r * (worldConfig.height - offset * 2))
                       (generated p), rest)
      | [] => None
      end
  | _ => Some (p, draws)
  end.

(** "Get start port edge": the edge [generateGoal] reads back from the
    position of the start port; [-1] when none is recognised. *)
Definition detectStartPortEdge (startPort : Port) : Z :=
  let offset := goalConfig.edgeOffset in
  if generated startPort then
    if decide (port_y startPort <= offset + 10) then 0%Z
    else if decide (port_x startPort >= worldConfig.width - offset - 10) then 1%Z
    else if decide (port_y startPort >= worldConfig.height - offset - 10) then 2%Z
    else if decide (port_x startPort <= offset + 10) then 3%Z
    else (-1)%Z
  else (-1)%Z.

(** The [do ... while] of [generateGoal]: draw an edge until it differs
    from [startPortEdge]. *)
Fixpoint chooseGoalEdge (startPortEdge : Z) (startGenerated : bool)
    (draws : Draws) : option (Z * Draws) :=
  match draws with
  | [] => None
  | r :: rest =>
      let edge := Math.floor (r * 4) in
      if bool_decide (edge = startPortEdge) && startGenerated
      then chooseGoalEdge startPortEdge startGenerated rest
      else Some (edge, rest)
  end.

Module Extended.

Record World := mkWorld {
  gameRunning : bool;
  gameOver : bool;
  gameWon : bool;
  animationTime : R;
  totalDistance : R;
  gameStartTime : R;
  winTime : R;
  currentCoal : R;
  goal : Port;
  startPort : Port;
  camera : Camera;
  icebergs : list Iceberg;
  loadedIcebergChunks : gset ChunkKey;
  ship : Ship;
  lastTime : R;
  canvas : Canvas;
  gameOverButton : option Button
}.

Definition set_gameRunning (v : bool) (w : World) : World :=
  mkWorld v (gameOver w) (gameWon w) (animationTime w) (totalDistance w)
    (gameStartTime w) (winTime w) (currentCoal w) (goal w) (startPort w)
    (camera w) (icebergs w) (loadedIcebergChunks w) (ship w) (lastTime w)
    (canvas w) (gameOverButton w).

Definition set_gameOver (v : bool) (w : World) : World :=
  mkWorld (gameRunning w) v (gameWon w) (animationTime w) (totalDistance w)
    (gameStartTime w) (winTime w) (currentCoal w) (goal w) (startPort w)
    (camera w) (icebergs w) (loadedIcebergChunks w) (ship w) (lastTime w)
    (canvas w) (gameOverButton w).

Definition set_gameWon (v : bool) (w : World) : World :=
  mkWorld (gameRunning w) (gameOver w) v (animationTime w) (totalDistance w)
    (gameStartTime w) (winTime w) (currentCoal w) (goal w) (startPort w)
    (camera w) (icebergs w) (loadedIcebergChunks w) (ship w) (lastTime w)
    (canvas w) (gameOverButton w).

Definition set_animationTime (v : R) (w : World) : World :=
  mkWorld (gameRunning w) (gameOver w) (gameWon w) v (totalDistance w)
    (gameStartTime w) (winTime w) (currentCoal w) (goal w) (startPort w)
    (camera w) (icebergs w) (loadedIcebergChunks w) (ship w) (lastTime w)
    (canvas w) (gameOverButton w).

Definition set_totalDistance (v : R) (w : World) : World :=
  mkWorld (gameRunning w) (gameOver w) (gameWon w) (animationTime w) v
    (gameStartTime w) (winTime w) (currentCoal w) (goal w) (startPort w)
    (camera w) (icebergs w) (loadedIcebergChunks w) (ship w) (lastTime w)
    (canvas w) (gameOverButton w).

Definition set_gameStartTime (v : R) (w : World) : World :=
  mkWorld (gameRunning w) (gameOver w) (gameWon w) (animationTime w)
    (totalDistance w) v (winTime w) (currentCoal w) (goal w) (startPort w)
    (camera w) (icebergs w) (loadedIcebergChunks w) (ship w) (lastTime w)
    (canvas w) (gameOverButton w).

Definition set_winTime (v : R) (w : World) : World :=
  mkWorld (gameRunning w) (gameOver w) (gameWon w) (animationTime w)
    (totalDistance w) (gameStartTime w) v (currentCoal w) (goal w)
    (startPort w) (camera w) (icebergs w) (loadedIcebergChunks w) (ship w)
    (lastTime w) (canvas w) (gameOverButton w).

Definition set_currentCoal (v : R) (w : World) : World :=
  mkWorld (gameRunning w) (gameOver w) (gameWon w) (animationTime w)
    (totalDistance w) (gameStartTime w) (winTime w) v (goal w) (startPort w)
    (camera w) (icebergs w) (loadedIcebergChunks w) (ship w) (lastTime w)
    (canvas w) (gameOverButton w).

Definition set_goal (v : Port) (w : World) : World :=
  mkWorld (gameRunning w) (gameOver w) (gameWon w) (animationTime w)
    (totalDistance w) (gameStartTime w) (winTime w) (currentCoal w) v
    (startPort w) (camera w) (icebergs w) (loadedIcebergChunks w) (ship w)
    (lastTime w) (canvas w) (gameOverButton w).

Definition set_startPort (v : Port) (w : World) : World :=
  mkWorld (gameRunning w) (gameOver w) (gameWon w) (animationTime w)
    (totalDistance w) (gameStartTime w) (winTime w) (currentCoal w) (goal w) v
    (camera w) (icebergs w) (loadedIcebergChunks w) (ship w) (lastTime w)
    (canvas w) (gameOverButton w).

Definition set_camera (v : Camera) (w : World) : World :=
  mkWorld (gameRunning w) (gameOver w) (gameWon w) (animationTime w)
    (totalDistance w) (gameStartTime w) (winTime w) (currentCoal w) (goal w)
    (startPort w) v (icebergs w) (loadedIcebergChunks w) (ship w) (lastTime w)
    (canvas w) (gameOverButton w).

Definition set_icebergs (v : list Iceberg) (w : World) : World :=
  mkWorld (gameRunning w) (gameOver w) (gameWon w) (animationTime w)
    (totalDistance w) (gameStartTime w) (winTime w) (currentCoal w) (goal w)
    (startPort w) (camera w) v (loadedIcebergChunks w) (ship w) (lastTime w)
    (canvas w) (gameOverButton w).

Definition set_loadedIcebergChunks (v : gset ChunkKey) (w : World) : World :=
  mkWorld (gameRunning w) (gameOver w) (gameWon w) (animationTime w)
    (totalDistance w) (gameStartTime w) (winTime w) (currentCoal w) (goal w)
    (startPort w) (camera w) (icebergs w) v (ship w) (lastTime w) (canvas w)
    (gameOverButton w).

Definition set_ship (v : Ship) (w : World) : World :=
  mkWorld (gameRunning w) (gameOver w) (gameWon w) (animationTime w)
    (totalDistance w) (gameStartTime w) (winTime w) (currentCoal w) (goal w)
    (startPort w) (camera w) (icebergs w) (loadedIcebergChunks w) v
    (lastTime w) (canvas w) (gameOverButton w).

Definition set_lastTime (v : R) (w : World) : World :=
  mkWorld (gameRunning w) (gameOver w) (gameWon w) (animationTime w)
    (totalDistance w) (gameStartTime w) (winTime w) (currentCoal w) (goal w)
    (startPort w) (camera w) (icebergs w) (loadedIcebergChunks w) (ship w) v
    (canvas w) (gameOverButton w).

Definition set_canvas (v : Canvas) (w : World) : World :=
  mkWorld (gameRunning w) (gameOver w) (gameWon w) (animationTime w)
    (totalDistance w) (gameStartTime w) (winTime w) (currentCoal w) (goal w)
    (startPort w) (camera w) (icebergs w) (loadedIcebergChunks w) (ship w)
    (lastTime w) v (gameOverButton w).

Definition set_gameOverButton (v : option Button) (w : World) : World :=
  mkWorld (gameRunning w) (gameOver w) (gameWon w) (animationTime w)
    (totalDistance w) (gameStartTime w) (winTime w) (currentCoal w) (goal w)
    (startPort w) (camera w) (icebergs w) (loadedIcebergChunks w) (ship w)
    (lastTime w) (canvas w) v.

(** The fields of [World] the generator works on, and their write-back. *)
Definition field (w : World) : WorldGenerator.Field :=
  WorldGenerator.mkField (icebergs w) (loadedIcebergChunks w).

Definition set_field (f : WorldGenerator.Field) (w : World) : World :=
  set_loadedIcebergChunks (WorldGenerator.f_loaded f)
    (set_icebergs (WorldGenerator.f_icebergs f) w).

Definition generateIcebergsForChunk (chunkX chunkY : Z) (w : World)
  : option World :=
  f ← WorldGenerator.generateIcebergsForChunk (canvas w) chunkX chunkY (field w);
  Some (set_field f w).

Definition ensureIcebergsGenerated (w : World) : option World :=
  f ← WorldGenerator.ensureIcebergsGenerated (canvas w) (camera w) (field w);
  Some (set_field f w).

(** [drawShip]: the one drawing function that writes to [ship]. *)
Definition drawShip (w : World) : World :=
  let s := ship w in
  set_ship (mkShip (IZR (width (canvas w)) / 2) (IZR (height (canvas w)) / 2)
                   (rotation s) (speed s) (acceleration s) (rudderAngle s)) w.

(** [drawGameOver]: stores the bounds of the restart button. *)
Definition drawGameOver (w : World) : World :=
  if negb (gameOver w) then w
  else
    let buttonX := IZR (width (canvas w)) / 2 in
    let buttonY := IZR (height (canvas w)) / 2 + 60 in
    let buttonWidth := 200 in
    let buttonHeight := 50 in
    set_gameOverButton
      (Some (mkButton (buttonX - buttonWidth / 2) (buttonY - buttonHeight / 2)
                      buttonWidth buttonHeight)) w.

(** [updateShip(deltaTime)]. *)
Definition updateShip (deltaTime : R) (keys : Keys) (w : World) : World :=
  let s := ship w in
  (* acceleration input, only with coal *)
  let acceleration1 :=
    if decide (currentCoal w > 0) then
      if ArrowUp keys then shipConfig.accelerationPower
      else if ArrowDown keys then - shipConfig.accelerationPower
      else decayAcceleration (acceleration s)
    else 0 in
  (* apply acceleration to speed *)
  let speed1 :=
    if bool_decide (acceleration1 <> 0)
       && (bool_decide (currentCoal w > 0) || bool_decide (acceleration1 < 0))
    then clampSpeed (speed s + acceleration1)
    else speed s in
  (* friction *)
  let speed2 :=
    if bool_decide (acceleration1 = 0)
       || bool_decide (currentCoal w <= 0)
       || (bool_decide (acceleration1 > 0)
           && bool_decide (speed1 >= shipConfig.maxSpeed))
       || (bool_decide (acceleration1 < 0)
           && bool_decide (speed1 <= - shipConfig.maxReverseSpeed))
    then applyFriction speed1
    else speed1 in
  let rudderAngle1 := steerRudder keys (rudderAngle s) in
  let '(rotation1, camera1) :=
    turnAboutPivot (rotation s) speed2 rudderAngle1 (camera w) in
  let moveX := Math.cos rotation1 * speed2 in
  let moveY := Math.sin rotation1 * speed2 in
  let oldCameraX := cam_x camera1 in
  let oldCameraY := cam_y camera1 in
  let camera2 := mkCamera (cam_x camera1 + moveX) (cam_y camera1 + moveY) in
  let actualMoveX := cam_x camera2 - oldCameraX in
  let actualMoveY := cam_y camera2 - oldCameraY in
  let distanceThisFrame :=
    Math.sqrt (actualMoveX * actualMoveX + actualMoveY * actualMoveY) in
  (* coal depletion *)
  let currentCoal1 :=
    if decide (Math.abs speed2 > 0) then
      let speedFactor := Math.abs speed2 / shipConfig.maxSpeed in
      let coalDepletion := coalConfig.depletionRate * speedFactor in
      Math.max 0 (currentCoal w - coalDepletion)
    else currentCoal w in
  set_currentCoal currentCoal1
    (set_totalDistance (totalDistance w + distanceThisFrame)
      (set_camera camera2
        (set_ship (mkShip (screenX s) (screenY s) rotation1 speed2
                          acceleration1 rudderAngle1) w))).

(** [generateStartPort]. *)
Definition generateStartPort (draws : Draws) (w : World)
  : option (World * Draws) :=
  match draws with
  | [] => None
  | r :: draws =>
      let edge := Math.floor (r * 4) in
      '(p, draws) ← placeOnEdge edge (startPort w) draws;
      let p := mkPort (port_x p) (port_y p) true in
      let shipOffset := goalConfig.radius + 50 in
      match draws with
      | rx :: ry :: draws =>
          Some (set_camera
                  (mkCamera (port_x p + (rx - 0.5) * shipOffset * 0.5)
                            (port_y p + (ry - 0.5) * shipOffset * 0.5))
                  (set_startPort p w), draws)
      | _ => None
      end
  end.

(** [generateGoal]. *)
Definition generateGoal (draws : Draws) (w : World) : option (World * Draws) :=
  let startPortEdge := detectStartPortEdge (startPort w) in
  '(edge, draws) ← chooseGoalEdge startPortEdge (generated (startPort w)) draws;
  '(g, draws) ← placeOnEdge edge (goal w) draws;
  Some (set_goal (mkPort (port_x g) (port_y g) true) w, draws).

(** [checkGoalReached], called at time [now]. *)
Definition checkGoalReached (now : R) (w : World) : World :=
  if gameOver w || gameWon w || negb (generated (goal w)) then w
  else
    let dx := cam_x (camera w) - port_x (goal w) in
    let dy := cam_y (camera w) - port_y (goal w) in
    let distance := Math.sqrt (dx * dx + dy * dy) in
    if decide (distance < goalConfig.radius)
    then set_winTime now (set_gameRunning false (set_gameWon true w))
    else w.

(** [checkCollisions]. *)
Definition checkCollisions (w : World) : World :=
  if gameOver w || gameWon w then w
  else if collisionLoop (camera w) (icebergs w)
       then set_gameRunning false (set_gameOver true w)
       else w.

(** [restartGame]; [now] and [now'] are its two readings of the clock.
    (It also releases the four keys, which are an argument of the next
    frame here.) *)
Definition restartGame (now now' : R) (draws : Draws) (w : World)
  : option (World * Draws) :=
  let w := set_gameRunning true (set_gameWon false (set_gameOver false w)) in
  let w := set_ship (mkShip (screenX (ship w)) (screenY (ship w))
                            (- Math.PI / 2) 0 0 0) w in
  let w := set_startPort (mkPort (port_x (startPort w)) (port_y (startPort w))
                                 false) w in
  let w := set_goal (mkPort (port_x (goal w)) (port_y (goal w)) false) w in
  let w := set_loadedIcebergChunks ∅ (set_icebergs [] w) in
  '(w, draws) ← generateStartPort draws w;
  '(w, draws) ← generateGoal draws w;
  Some (set_lastTime now'
         (set_winTime 0
           (set_gameStartTime now
             (set_currentCoal coalConfig.maxCoal
               (set_totalDistance 0 (set_animationTime 0 w))))), draws).

(** One call of [gameLoop(currentTime)] with the keys held at that moment;
    [now] is the clock read by [checkGoalReached].  The drawing calls that
    write no global are left out. *)
Definition gameLoop (currentTime now : R) (keys : Keys) (w : World)
  : option World :=
  if negb (gameRunning w) && negb (gameOver w) && negb (gameWon w) then Some w
  else
    let deltaTime := Math.min ((currentTime - lastTime w) / 16.67) 2 in
    let w := set_lastTime currentTime w in
    let w := set_animationTime (animationTime w + 0.5) w in
    w ← (if negb (gameOver w) && negb (gameWon w) then
           w ← ensureIcebergsGenerated (updateShip deltaTime keys w);
           Some (checkGoalReached now (checkCollisions w))
         else Some w);
    Some (drawGameOver (drawShip w)).

(** The globals after the script's top-level initialisers (before the
    top-level calls of [generateStartPort] and [generateGoal]). *)
Definition declaredWorld (cv : Canvas) (now : R) : World :=
  {| gameRunning := true; gameOver := false; gameWon := false;
     animationTime := 0; totalDistance := 0; gameStartTime := 0; winTime := 0;
     currentCoal := coalConfig.maxCoal;
     goal := mkPort 0 0 false; startPort := mkPort 0 0 false;
     camera := mkCamera (worldConfig.width / 2) (worldConfig.height / 2);
     icebergs := []; loadedIcebergChunks := ∅;
     ship := mkShip 0 0 (- Math.PI / 2) 0 0 0;
     lastTime := now; canvas := cv; gameOverButton := None |}.

(** The world when the first frame runs. *)
Definition initialWorld (cv : Canvas) (now : R) (draws : Draws)
  : option (World * Draws) :=
  '(w, draws) ← generateStartPort draws (declaredWorld cv now);
  '(w, draws) ← generateGoal draws w;
  Some (set_gameStartTime now w, draws).

(** [updateShip] run once per tick, on the (deltaTime, keys) of each tick. *)
Definition sail (inputs : list (R * Keys)) (w : World) : World :=
  foldl (fun w '(deltaTime, keys) => updateShip deltaTime keys w) w inputs.

(** [gameLoop] run once per frame, on the (currentTime, now, keys) of each
    frame. *)
Definition play (frames : list (R * R * Keys)) (w : World) : option World :=
  forEach (fun '(currentTime, now, keys) => gameLoop currentTime now keys)
          frames w.

End Extended.

(** * Drawing geometry, the restart button and whole sessions

    The state-free parts of the drawing functions (what is computed before
    it is handed to the canvas context), the click listener, and the
    sequences of frames and clicks a session is made of. *)

(** ** [drawIceberg] and [drawIcebergs] *)

(** [icebergsConfig.irregularity]. *)
Definition icebergIrregularity : R := 0.4.

(** The test on which [drawIceberg] returns before drawing, negated. *)
Definition icebergOnScreen (canvas : Canvas) (camera : Camera)
    (iceberg : Iceberg) : bool :=
  let screenCenterX := IZR (width canvas) / 2 in
  let screenCenterY := IZR (height canvas) / 2 in
  let screenX := ice_x iceberg - cam_x camera + screenCenterX in
  let screenY := ice_y iceberg - cam_y camera + screenCenterY in
  negb (bool_decide (screenX < - size iceberg)
        || bool_decide (screenX > IZR (width canvas) + size iceberg)
        || bool_decide (screenY < - size iceberg)
        || bool_decide (screenY > IZR (height canvas) + size iceberg)).

(** The element pushed on [points] for the index [i]. *)
Definition icebergPoint (iceberg : Iceberg) (i : Z) : R * R :=
  let angleStep := (Math.PI * 2) / IZR (pointCount iceberg) in
  let angle := IZR i * angleStep in
  let irregularityHash :=
    Math.sin (IZR (seed iceberg) * 0.1 + angle) * 10000 in
  let irregularity :=
    1 + (WorldGenerator.fracHash irregularityHash - 0.5)
        * icebergIrregularity * 2 in
  let radius := size iceberg * irregularity in
  (Math.cos angle * radius, Math.sin angle * radius).

(** [points] after the loop [for (i = 0; i < iceberg.pointCount; i++)]. *)
Definition icebergPoints (iceberg : Iceberg) : list (R * R) :=
  icebergPoint iceberg <$> seqZ 0 (pointCount iceberg).

(** What a call of [drawIceberg] does: it returns early, or draws the
    closed polygon from [points[0]] through the other points, or, with
    [points] empty, throws at [points[0].x]. *)
Inductive Drawing :=
  | OffScreen
  | Polygon (first : R * R) (others : list (R * R))
  | Throws.

Definition drawIceberg (canvas : Canvas) (camera : Camera) (iceberg : Iceberg)
  : Drawing :=
  if icebergOnScreen canvas camera iceberg then
    match icebergPoints iceberg with
    | [] => Throws
    | first :: others => Polygon first others
    end
  else OffScreen.

(** The filter of [drawIcebergs]. *)
Definition inVisibleArea (canvas : Canvas) (camera : Camera)
    (iceberg : Iceberg) : bool :=
  let visibleWorldWidth := IZR (width canvas) in
  let visibleWorldHeight := IZR (height canvas) in
  let minWorldX := cam_x camera - visibleWorldWidth / 2 in
  let maxWorldX := cam_x camera + visibleWorldWidth / 2 in
  let minWorldY := cam_y camera - visibleWorldHeight / 2 in
  let maxWorldY := cam_y camera + visibleWorldHeight / 2 in
  bool_decide (ice_x iceberg >= minWorldX - size iceberg)
  && bool_decide (ice_x iceberg <= maxWorldX + size iceberg)
  && bool_decide (ice_y iceberg >= minWorldY - size iceberg)
  && bool_decide (ice_y iceberg <= maxWorldY + size iceberg).

(** [drawIcebergs]: the calls of [drawIceberg] it makes, in order. *)
Definition drawIcebergs (canvas : Canvas) (camera : Camera)
    (ices : list Iceberg) : list Drawing :=
  drawIceberg canvas camera <$> filter (inVisibleArea canvas camera) ices.

(** ** [drawStartPort] and [drawGoal]

    The two functions have the same text but for the port they read and
    the colour they pass on.  [drawPort] is that text: the screen position
    handed to [drawIsland], or [None] when the function returns before
    drawing. *)
Definition drawPort (canvas : Canvas) (camera : Camera) (port : Port)
  : option (R * R) :=
  if negb (generated port) then None
  else
    let screenCenterX := IZR (width canvas) / 2 in
    let screenCenterY := IZR (height canvas) / 2 in
    let portScreenX := port_x port - cam_x camera + screenCenterX in
    let portScreenY := port_y port - cam_y camera + screenCenterY in
    let margin := goalConfig.radius + 50 in
    if bool_decide (portScreenX < - margin)
       || bool_decide (portScreenX > IZR (width canvas) + margin)
       || bool_decide (portScreenY < - margin)
       || bool_decide (portScreenY > IZR (height canvas) + margin)
    then None
    else Some (portScreenX, portScreenY).

Definition drawStartPort (w : Extended.World) : option (R * R) :=
  drawPort (Extended.canvas w) (Extended.camera w) (Extended.startPort w).

Definition drawGoal (w : Extended.World) : option (R * R) :=
  drawPort (Extended.canvas w) (Extended.camera w) (Extended.goal w).

(** ** [drawSmokestacks]: the abscissae [stackX] of the stacks, along the
    ship's axis, for [i] from 0 to [stackCount - 1]. *)
Definition stackX (stackCount : Z) (stackRadius : R) (i : Z) : R :=
  let stackDiameter := stackRadius * 2 in
  let totalStackWidth := IZR stackCount * stackDiameter in
  let spacing := 15 in
  let totalGroupWidth := totalStackWidth + (IZR stackCount - 1) * spacing in
  let startX := - totalGroupWidth / 2 + stackRadius in
  startX + IZR i * (stackDiameter + spacing).

Definition ship_stackCount : Z := 4.
Definition ship_stackRadius : R := 10.

(** [drawTopStructure]: the rectangle filled for the superstructure, in the
    frame of the ship (left, top, width, height). *)
Definition topStructureRect (length width : R) : R * R * R * R :=
  let structureLength := length * 0.7 in
  let structureWidth := width * 0.5 in
  (- structureLength / 2, - structureWidth / 2, structureLength,
   structureWidth).

(** ** [drawMinimap]: where a world point is marked, and the rectangle
    stroked for the world boundary (left, top, width, height). *)
Definition minimapScale : R :=
  let minimapSize := 200 in
  let padding := 10 in
  let mapSize := minimapSize - padding * 2 in
  let scaleX := mapSize / worldConfig.width in
  let scaleY := mapSize / worldConfig.height in
  Math.min scaleX scaleY.

Definition minimapOffset (canvas : Canvas) : R * R :=
  let minimapSize := 200 in
  let minimapX := IZR (width canvas) - minimapSize - 20 in
  let minimapY := 20 in
  let padding := 10 in
  (minimapX + padding, minimapY + padding).

Definition minimapMark (canvas : Canvas) (x y : R) : R * R :=
  (fst (minimapOffset canvas) + x * minimapScale,
   snd (minimapOffset canvas) + y * minimapScale).

Definition minimapWorldRect (canvas : Canvas) : R * R * R * R :=
  (fst (minimapOffset canvas), snd (minimapOffset canvas),
   worldConfig.width * minimapScale, worldConfig.height * minimapScale).

(** The square filled for the background of the minimap (left, top, width,
    height), and the radius of the circle stroked around a port. *)
Definition minimapPanel (canvas : Canvas) : R * R * R * R :=
  let minimapSize := 200 in
  let minimapX := IZR (width canvas) - minimapSize - 20 in
  let minimapY := 20 in
  (minimapX, minimapY, minimapSize, minimapSize).

Definition minimapPortRadius : R := goalConfig.radius * minimapScale.



(** ** [drawWinScreen]: the clock *)

(** The remainder operator [a % b] of the script, whose sign is that of
    [a]: [a] less [b] times the quotient truncated toward zero. *)
Definition jsRemainder (a b : R) : R :=
  let q := a / b in
  a - b * IZR (if decide (q < 0) then Math.ceil q else Math.floor q).

(** [minutes] and [seconds] of the win screen drawn at time [now]. *)
Definition winClock (gameStartTime winTime now : R) : Z * Z :=
  let endTime := if decide (winTime > 0) then winTime else now in
  let elapsedTime := (endTime - gameStartTime) / 1000 in
  (Math.floor (elapsedTime / 60), Math.floor (jsRemainder elapsedTime 60)).

(** ** The click listener and sessions *)

(** The rectangle test of the click listener. *)
Definition insideButton (x y : R) (b : Button) : bool :=
  bool_decide (x >= btn_x b)
  && bool_decide (x <= btn_x b + btn_width b)
  && bool_decide (y >= btn_y b)
  && bool_decide (y <= btn_y b + btn_height b).

Module SimpleSession.

(** The click listener, for a click at (x, y) relative to the canvas, at
    time [now]. *)
Definition click (x y now : R) (w : Simple.World) : Simple.World :=
  if negb (Simple.gameOver w) then w
  else
    match Simple.gameOverButton w with
    | None => w
    | Some b => if insideButton x y b then Simple.restartGame now w else w
    end.

(** What happens in a session: animation frames and clicks. *)
Inductive Event :=
  | Frame (currentTime : R) (keys : Keys)
  | Click (x y now : R).

Definition step (e : Event) (w : Simple.World) : option Simple.World :=
  match e with
  | Frame currentTime keys => Simple.gameLoop currentTime keys w
  | Click x y now => Some (click x y now w)
  end.

Definition run (events : list Event) (w : Simple.World) : option Simple.World :=
  forEach step events w.

End SimpleSession.

Module ExtendedSession.

(** [drawWinScreen]: its write to [gameOverButton]. *)
Definition drawWinScreen (w : Extended.World) : Extended.World :=
  if negb (Extended.gameWon w) then w
  else
    let buttonX := IZR (width (Extended.canvas w)) / 2 in
    let buttonY := IZR (height (Extended.canvas w)) / 2 + 60 in
    let buttonWidth := 200 in
    let buttonHeight := 50 in
    Extended.set_gameOverButton
      (Some (mkButton (buttonX - buttonWidth / 2) (buttonY - buttonHeight / 2)
                      buttonWidth buttonHeight)) w.

(** A frame with every write of its drawing calls.  [Extended.gameLoop]
    has the writes of [drawShip] and [drawGameOver]; [drawWinScreen], which
    the script calls between the two, writes the same rectangle to the same
    variable as [drawGameOver] and reads nothing the other two write, so
    its write is added here after them. *)
Definition frame (currentTime now : R) (keys : Keys) (w : Extended.World)
  : option Extended.World :=
  w' ← Extended.gameLoop currentTime now keys w;
  Some (drawWinScreen w').

(** The click listener, for a click at (x, y) relative to the canvas; the
    clock readings and draws are those of [restartGame]. *)
Definition click (x y now now' : R) (draws : Draws) (w : Extended.World)
  : option Extended.World :=
  if negb (Extended.gameOver w) && negb (Extended.gameWon w) then Some w
  else
    match Extended.gameOverButton w with
    | None => Some w
    | Some b =>
        if insideButton x y b
        then fst <$> Extended.restartGame now now' draws w
        else Some w
    end.

Inductive Event :=
  | Frame (currentTime now : R) (keys : Keys)
  | Click (x y now now' : R) (draws : Draws).

Definition step (e : Event) (w : Extended.World) : option Extended.World :=
  match e with
  | Frame currentTime now keys => frame currentTime now keys w
  | Click x y now now' draws => click x y now now' draws w
  end.

Definition run (events : list Event) (w : Extended.World)
  : option Extended.World :=
  forEach step events w.

End ExtendedSession.

(** * Vocabulary of the statements *)

(** The speed is within the limits of [shipConfig]. *)
Definition speedInRange (v : R) : Prop :=
  - shipConfig.maxReverseSpeed <= v <= shipConfig.maxSpeed.

(** The Euclidean distance between two points of the world. *)
Definition euclid (x1 y1 x2 y2 : R) : R :=
  Math.sqrt ((x1 - x2) * (x1 - x2) + (y1 - y2) * (y1 - y2)).

(** The distance from the ship's world position to an iceberg. *)
Definition distanceTo (camera : Camera) (iceberg : Iceberg) : R :=
  euclid (cam_x camera) (cam_y camera) (ice_x iceberg) (ice_y iceberg).

(** The iceberg is not within [startSafeRadius] of the point (px, py). *)
Definition outsideSafeZone (px py : R) (iceberg : Iceberg) : Prop :=
  WorldGenerator.startSafeRadius <= euclid (ice_x iceberg) (ice_y iceberg) px py.

(** The size is one the generator can produce. *)
Definition wellSized (iceberg : Iceberg) : Prop :=
  icebergsConfig.minSize <= size iceberg <= icebergsConfig.maxSize.

(** The chunk keys [ensureIcebergsGenerated] visits. *)
Definition visited (canvas : Canvas) (camera : Camera) (key : ChunkKey) : Prop :=
  (fst (WorldGenerator.chunkRangeX canvas camera) <= fst key
   <= snd (WorldGenerator.chunkRangeX canvas camera))%Z /\
  (fst (WorldGenerator.chunkRangeY canvas camera) <= snd key
   <= snd (WorldGenerator.chunkRangeY canvas camera))%Z.

(** The viewport of (canvas', camera') lies inside that of (canvas, camera). *)
Definition viewportWithin (canvas' : Canvas) (camera' : Camera)
    (canvas : Canvas) (camera : Camera) : Prop :=
  cam_x camera - IZR (width canvas) / 2
    <= cam_x camera' - IZR (width canvas') / 2 /\
  cam_x camera' + IZR (width canvas') / 2
    <= cam_x camera + IZR (width canvas) / 2 /\
  cam_y camera - IZR (height canvas) / 2
    <= cam_y camera' - IZR (height canvas') / 2 /\
  cam_y camera' + IZR (height canvas') / 2
    <= cam_y camera + IZR (height canvas) / 2.

(** What a frame must leave alone in a terminal state: the ship state
    (position, heading, speed, acceleration, rudder), the icebergs and loaded
    chunks, and the session flags; in the extended variant also the coal,
    the distance sailed, the ports and the win time. *)
Definition simpleFrozen (w w' : Simple.World) : Prop :=
  Simple.camera w' = Simple.camera w /\
  rotation (Simple.ship w') = rotation (Simple.ship w) /\
  speed (Simple.ship w') = speed (Simple.ship w) /\
  acceleration (Simple.ship w') = acceleration (Simple.ship w) /\
  rudderAngle (Simple.ship w') = rudderAngle (Simple.ship w) /\
  Simple.icebergs w' = Simple.icebergs w /\
  Simple.loadedIcebergChunks w' = Simple.loadedIcebergChunks w /\
  Simple.gameOver w' = Simple.gameOver w /\
  Simple.gameRunning w' = Simple.gameRunning w.

Definition extendedFrozen (w w' : Extended.World) : Prop :=
  Extended.camera w' = Extended.camera w /\
  rotation (Extended.ship w') = rotation (Extended.ship w) /\
  speed (Extended.ship w') = speed (Extended.ship w) /\
  acceleration (Extended.ship w') = acceleration (Extended.ship w) /\
  rudderAngle (Extended.ship w') = rudderAngle (Extended.ship w) /\
  Extended.currentCoal w' = Extended.currentCoal w /\
  Extended.icebergs w' = Extended.icebergs w /\
  Extended.loadedIcebergChunks w' = Extended.loadedIcebergChunks w /\
  Extended.totalDistance w' = Extended.totalDistance w /\
  Extended.goal w' = Extended.goal w /\
  Extended.startPort w' = Extended.startPort w /\
  Extended.winTime w' = Extended.winTime w /\
  Extended.gameOver w' = Extended.gameOver w /\
  Extended.gameWon w' = Extended.gameWon w /\
  Extended.gameRunning w' = Extended.gameRunning w.

(** [P] holds of whatever the generator can append. *)
Definition generatorEstablishes (P : Iceberg -> Prop) : Prop :=
  forall x y s n k,
    WorldGenerator.startSafeRadius <= Math.sqrt (x * x + y * y) ->
    icebergsConfig.minSize <= s <= icebergsConfig.maxSize ->
    P (mkIceberg x y s n k).

(** The port lies on the stretch of the given edge (0 top, 1 right,
    2 bottom, 3 left) of the bounded world on which ports are placed. *)
Definition onEdge (edge : Z) (p : Port) : Prop :=
  let offset := goalConfig.edgeOffset in
  match edge with
  | 0%Z => port_y p = offset /\
           offset <= port_x p <= worldConfig.width - offset
  | 1%Z => port_x p = worldConfig.width - offset /\
           offset <= port_y p <= worldConfig.height - offset
  | 2%Z => port_y p = worldConfig.height - offset /\
           offset <= port_x p <= worldConfig.width - offset
  | 3%Z => port_x p = offset /\
           offset <= port_y p <= worldConfig.height - offset
  | _ => False
  end.

(** * Vocabulary of the further properties *)

(** The rudder is within its stops. *)
Definition rudderInRange (r : R) : Prop :=
  - shipConfig.maxRudderAngle <= r <= shipConfig.maxRudderAngle.

(** The acceleration is one of the three values the keys select. *)
Definition accelerationLevel (a : R) : Prop :=
  a = shipConfig.accelerationPower \/ a = 0 \/
  a = - shipConfig.accelerationPower.

(** The acceleration the held keys select (with coal left). *)
Definition selectedAcceleration (keys : Keys) : R :=
  if ArrowUp keys then shipConfig.accelerationPower
  else if ArrowDown keys then - shipConfig.accelerationPower
  else 0.

(** Neither steering key is held. *)
Definition noSteering (keys : Keys) : Prop :=
  ArrowLeft keys = false /\ ArrowRight keys = false.

(** The world position of the pivot point of a ship at [camera] heading
    [rot]: [pivotOffset] along the heading from the camera point. *)
Definition pivotOf (camera : Camera) (rot : R) : R * R :=
  let pivotOffset := (shipConfig.pivotPoint - 0.5) * ship_length in
  (cam_x camera + Math.cos rot * pivotOffset,
   cam_y camera + Math.sin rot * pivotOffset).

(** The iceberg is the accepted candidate of index [i] of the chunk. *)
Definition candidateOf (chunkX chunkY i : Z) (iceberg : Iceberg) : Prop :=
  (0 <= i)%Z /\
  WorldGenerator.candidateStep chunkX chunkY [] i = [iceberg].

(** Every iceberg is an accepted candidate of a loaded chunk. *)
Definition fieldGenerated (ices : list Iceberg) (loaded : gset ChunkKey)
  : Prop :=
  forall iceberg,
    iceberg ∈ ices ->
    exists chunkX chunkY i,
      (chunkX, chunkY) ∈ loaded /\ candidateOf chunkX chunkY i iceberg.

(** The key of the chunk whose square holds the point (x, y). *)
Definition chunkOf (x y : R) : ChunkKey :=
  (Math.floor (x / icebergGridSize), Math.floor (y / icebergGridSize)).

(** The point (x, y) is in the viewport. *)
Definition inViewport (canvas : Canvas) (camera : Camera) (x y : R) : Prop :=
  cam_x camera - IZR (width canvas) / 2 <= x
    <= cam_x camera + IZR (width canvas) / 2 /\
  cam_y camera - IZR (height canvas) / 2 <= y
    <= cam_y camera + IZR (height canvas) / 2.

(** Every draw is a value [Math.random] can return. *)
Definition unitDraws (draws : Draws) : Prop :=
  Forall (fun r => 0 <= r < 1) draws.

(** The state of the ship and of the coal is one the physics can leave. *)
Definition shipSound (s : Ship) : Prop :=
  speedInRange (speed s) /\ rudderInRange (rudderAngle s) /\
  accelerationLevel (acceleration s).

(** The rectangle [drawGameOver] and [drawWinScreen] store for the restart
    button: 200 by 50, centred 60 below the centre of the canvas. *)
Definition restartButton (canvas : Canvas) : Button :=
  let buttonX := IZR (width canvas) / 2 in
  let buttonY := IZR (height canvas) / 2 + 60 in
  let buttonWidth := 200 in
  let buttonHeight := 50 in
  mkButton (buttonX - buttonWidth / 2) (buttonY - buttonHeight / 2)
           buttonWidth buttonHeight.

(** The coal left after sailing [distance] from a full bunker. *)
Definition coalAfter (distance : R) : R :=
  Rmax 0 (coalConfig.maxCoal
          - coalConfig.depletionRate / shipConfig.maxSpeed * distance).

(** The world is one a session of the simple variant can reach: from the
    initial world of some window, after some frames and clicks. *)
Definition simpleReachable (w : Simple.World) : Prop :=
  exists cv now events,
    SimpleSession.run events (Simple.initialWorld cv now) = Some w.

(** The same for the extended variant. *)
Definition extendedReachable (w : Extended.World) : Prop :=
  exists cv now draws w0 rest events,
    Extended.initialWorld cv now draws = Some (w0, rest) /\
    ExtendedSession.run events w0 = Some w.

(** What holds of every world of a session of the simple variant. *)
Definition simpleSound (w : Simple.World) : Prop :=
  Simple.gameRunning w = negb (Simple.gameOver w) /\
  (Simple.gameOver w = true ->
   Simple.gameOverButton w = Some (restartButton (Simple.canvas w))) /\
  shipSound (Simple.ship w) /\
  fieldGenerated (Simple.icebergs w) (Simple.loadedIcebergChunks w).

(** What holds of every world of a session of the extended variant. *)
Definition extendedSound (w : Extended.World) : Prop :=
  Extended.gameRunning w = negb (Extended.gameOver w || Extended.gameWon w) /\
  Extended.gameOver w && Extended.gameWon w = false /\
  (Extended.gameOver w || Extended.gameWon w = true ->
   Extended.gameOverButton w = Some (restartButton (Extended.canvas w))) /\
  shipSound (Extended.ship w) /\
  0 <= Extended.totalDistance w /\
  Extended.currentCoal w = coalAfter (Extended.totalDistance w) /\
  generated (Extended.startPort w) = true /\
  generated (Extended.goal w) = true /\
  fieldGenerated (Extended.icebergs w) (Extended.loadedIcebergChunks w).

(** The point (x, y) lies in the rectangle (left, top, width, height). *)
Definition inRect (rect : R * R * R * R) (x y : R) : Prop :=
  let '(rx, ry, rw, rh) := rect in
  rx <= x <= rx + rw /\ ry <= y <= ry + rh.

(** The ship touches the iceberg: their centres are nearer than the sum of
    the two radii. *)
Definition touches (camera : Camera) (iceberg : Iceberg) : Prop :=
  distanceTo camera iceberg < shipRadius + size iceberg.

(** The ship is within the radius of the port. *)
Definition atPort (camera : Camera) (port : Port) : Prop :=
  euclid (cam_x camera) (cam_y camera) (port_x port) (port_y port)
  < goalConfig.radius.

(** The rectangle [inner] lies in the rectangle [outer]. *)
Definition rectInRect (inner outer : R * R * R * R) : Prop :=
  let '(rx, ry, rw, rh) := inner in
  inRect outer rx ry /\ inRect outer (rx + rw) (ry + rh).

(** The disc of centre (x, y) and radius [r] lies in the rectangle. *)
Definition discInRect (rect : R * R * R * R) (x y r : R) : Prop :=
  inRect rect (x - r) (y - r) /\ inRect rect (x + r) (y + r).

(** The iceberg moved by (dx, dy). *)
Definition shifted (dx dy : R) (iceberg : Iceberg) : Iceberg :=
  mkIceberg (ice_x iceberg + dx) (ice_y iceberg + dy) (size iceberg)
            (pointCount iceberg) (seed iceberg).


(** * Verification *)

(** ** ShipPhysics: the shared blocks *)

Ltac unfold_config :=
  unfold shipConfig.maxSpeed, shipConfig.maxReverseSpeed,
    shipConfig.accelerationPower, shipConfig.accelerationDecay,
    shipConfig.friction, shipConfig.rudderSpeed, shipConfig.turnRate,
    shipConfig.pivotPoint, Math.max, Math.min, Math.abs in *.

Lemma Rabs_cases (a : R) : (a < 0 /\ Rabs a = - a) \/ (a >= 0 /\ Rabs a = a).
Proof.
  destruct (Rcase_abs a); [left | right]; split; auto using Rabs_left, Rabs_right.
Qed.

Lemma Rmax_cases (a b : R) : (a <= b /\ Rmax a b = b) \/ (b < a /\ Rmax a b = a).
Proof.
  destruct (Rle_dec a b); [left | right]; split; try lra.
  - apply Rmax_right; lra.
  - apply Rmax_left; lra.
Qed.

Lemma Rmin_cases (a b : R) : (a <= b /\ Rmin a b = a) \/ (b < a /\ Rmin a b = b).
Proof.
  destruct (Rle_dec a b); [left | right]; split; try lra.
  - apply Rmin_left; lra.
  - apply Rmin_right; lra.
Qed.

(** Names every [Rabs], [Rmax] and [Rmin] of the goal and splits on its
    defining cases, leaving linear arithmetic. *)
Ltac name_and_split lem t :=
  let H := fresh "Hcase" in let x := fresh "x" in
  pose proof lem as H; set (x := t) in *; clearbody x;
  destruct H as [[? ?]|[? ?]].

Ltac split_minmax :=
  repeat match goal with
  | |- context [Rabs ?a] => name_and_split (Rabs_cases a) (Rabs a)
  | |- context [Rmax ?a ?b] => name_and_split (Rmax_cases a b) (Rmax a b)
  | |- context [Rmin ?a ?b] => name_and_split (Rmin_cases a b) (Rmin a b)
  | _ : context [Rabs ?a] |- _ => name_and_split (Rabs_cases a) (Rabs a)
  | _ : context [Rmax ?a ?b] |- _ => name_and_split (Rmax_cases a b) (Rmax a b)
  | _ : context [Rmin ?a ?b] |- _ => name_and_split (Rmin_cases a b) (Rmin a b)
  end.

Lemma clampSpeed_range v : speedInRange (clampSpeed v).
Proof.
  unfold speedInRange, clampSpeed; repeat case_decide; unfold_config; lra.
Qed.

Lemma applyFriction_range v : speedInRange v -> speedInRange (applyFriction v).
Proof.
  unfold speedInRange, applyFriction; repeat case_decide; unfold_config;
    split_minmax; lra.
Qed.

(** Friction strictly reduces the magnitude of a nonzero speed, keeps its
    sign, and leaves a ship at rest at rest. *)
Lemma applyFriction_toward_zero v :
  (v <> 0 -> Rabs (applyFriction v) < Rabs v) /\
  (v = 0 -> applyFriction v = 0) /\
  (0 <= v -> 0 <= applyFriction v) /\
  (v <= 0 -> applyFriction v <= 0).
Proof.
  unfold applyFriction; repeat split; intros; repeat case_decide;
    unfold_config; split_minmax; lra.
Qed.


(** ** ShipPhysics: one tick and tick sequences *)

Lemma bool_decide_Rne_false (a : R) : a = 0 -> bool_decide (a <> 0) = false.
Proof. intros ->. apply bool_decide_eq_false. intros H; apply H; reflexivity. Qed.

(** The speed one tick of the simple variant leaves. *)
Lemma Simple_updateShip_speed deltaTime keys w :
  speedInRange (speed (Simple.ship w)) ->
  speedInRange (speed (Simple.ship (Simple.updateShip deltaTime keys w))).
Proof.
  intros Hin. unfold Simple.updateShip.
  destruct (turnAboutPivot _ _ _ _) as [rotation1 camera1] eqn:Hturn.
  simpl.
  repeat match goal with
  | |- context [if ?b then _ else _] => destruct b
  end; auto using clampSpeed_range, applyFriction_range.
Qed.

(** The speed one tick of the extended variant leaves. *)
Lemma Extended_updateShip_speed deltaTime keys w :
  speedInRange (speed (Extended.ship w)) ->
  speedInRange (speed (Extended.ship (Extended.updateShip deltaTime keys w))).
Proof.
  intros Hin. unfold Extended.updateShip.
  destruct (turnAboutPivot _ _ _ _) as [rotation1 camera1] eqn:Hturn.
  simpl.
  repeat match goal with
  | |- context [if ?b then _ else _] => destruct b
  end; auto using clampSpeed_range, applyFriction_range.
Qed.

Lemma Simple_sail_speed inputs w :
  speedInRange (speed (Simple.ship w)) ->
  speedInRange (speed (Simple.ship (Simple.sail inputs w))).
Proof.
  revert w; induction inputs as [|[deltaTime keys] inputs IH]; intros w Hin.
  - exact Hin.
  - apply IH, Simple_updateShip_speed, Hin.
Qed.

Lemma Extended_sail_speed inputs w :
  speedInRange (speed (Extended.ship w)) ->
  speedInRange (speed (Extended.ship (Extended.sail inputs w))).
Proof.
  revert w; induction inputs as [|[deltaTime keys] inputs IH]; intros w Hin.
  - exact Hin.
  - apply IH, Extended_updateShip_speed, Hin.
Qed.

Lemma speedInRange_0 : speedInRange 0.
Proof. unfold speedInRange; unfold_config; lra. Qed.

(** ** SessionController: what start-port and goal placement leave alone *)

Lemma generateStartPort_frame draws w w' draws' :
  Extended.generateStartPort draws w = Some (w', draws') ->
  Extended.ship w' = Extended.ship w /\
  Extended.currentCoal w' = Extended.currentCoal w /\
  Extended.icebergs w' = Extended.icebergs w /\
  Extended.loadedIcebergChunks w' = Extended.loadedIcebergChunks w /\
  Extended.canvas w' = Extended.canvas w.
Proof.
  unfold Extended.generateStartPort. destruct draws as [|r draws]; [discriminate|].
  destruct (placeOnEdge _ _ _) as [[p rest]|]; simpl; [|discriminate].
  destruct rest as [|rx [|ry rest]]; try discriminate.
  intros [= <- <-]. simpl. auto.
Qed.

Lemma generateGoal_frame draws w w' draws' :
  Extended.generateGoal draws w = Some (w', draws') ->
  Extended.ship w' = Extended.ship w /\
  Extended.currentCoal w' = Extended.currentCoal w /\
  Extended.icebergs w' = Extended.icebergs w /\
  Extended.loadedIcebergChunks w' = Extended.loadedIcebergChunks w /\
  Extended.canvas w' = Extended.canvas w /\
  Extended.startPort w' = Extended.startPort w /\
  Extended.camera w' = Extended.camera w.
Proof.
  unfold Extended.generateGoal.
  destruct (chooseGoalEdge _ _ _) as [[edge rest]|]; simpl; [|discriminate].
  destruct (placeOnEdge _ _ _) as [[g rest']|]; simpl; [|discriminate].
  intros [= <- <-]. simpl. auto 10.
Qed.

(** The first frame starts with the ship at rest, full coal and no iceberg. *)
Lemma Extended_initialWorld_ship cv now draws w0 draws' :
  Extended.initialWorld cv now draws = Some (w0, draws') ->
  Extended.ship w0 = mkShip 0 0 (- Math.PI / 2) 0 0 0 /\
  Extended.currentCoal w0 = coalConfig.maxCoal /\
  Extended.icebergs w0 = [] /\
  Extended.canvas w0 = cv.
Proof.
  unfold Extended.initialWorld.
  destruct (Extended.generateStartPort _ _) as [[w1 d1]|] eqn:H1; simpl; [|discriminate].
  destruct (Extended.generateGoal _ _) as [[w2 d2]|] eqn:H2; simpl; [|discriminate].
  intros [= <- <-]. simpl.
  apply generateStartPort_frame in H1 as (S1 & C1 & I1 & _ & V1).
  apply generateGoal_frame in H2 as (S2 & C2 & I2 & _ & V2 & _).
  rewrite S2, S1, C2, C1, I2, I1, V2, V1. auto.
Qed.

(** ** [Math.floor] and [Math.ceil] *)

Lemma floor_eq (x : R) (z : Z) : IZR z <= x < IZR z + 1 -> Math.floor x = z.
Proof.
  intros [Hlo Hhi]. unfold Math.floor. symmetry. apply Int_part_spec. lra.
Qed.

Lemma floor_spec (x : R) : IZR (Math.floor x) <= x < IZR (Math.floor x) + 1.
Proof.
  unfold Math.floor. destruct (base_Int_part x) as [H1 H2]. lra.
Qed.

Lemma floor_mono (x y : R) : x <= y -> (Math.floor x <= Math.floor y)%Z.
Proof.
  intros Hxy. destruct (floor_spec x) as [Hx _], (floor_spec y) as [_ Hy].
  assert (H : IZR (Math.floor x) < IZR (Math.floor y) + 1) by lra.
  rewrite <- plus_IZR in H. apply lt_IZR in H. lia.
Qed.

Lemma ceil_mono (x y : R) : x <= y -> (Math.ceil x <= Math.ceil y)%Z.
Proof.
  intros Hxy. unfold Math.ceil.
  assert (H : (Math.floor (- y) <= Math.floor (- x))%Z) by (apply floor_mono; lra).
  unfold Math.floor in H. lia.
Qed.

(** The sample is a fraction: it lies in [0, 1). *)
Lemma fracHash_range (h : R) : 0 <= WorldGenerator.fracHash h < 1.
Proof.
  unfold WorldGenerator.fracHash, Math.abs. destruct (floor_spec h) as [H1 H2].
  rewrite Rabs_right by lra. lra.
Qed.

(** ** Claim C1 *)

(** C1. Starting from the initial ship state and for every sequence of
    per-tick (deltaTime, keys) inputs, of any length, the speed after the
    last [updateShip] lies between [-maxReverseSpeed] and [maxSpeed]; in the
    simple variant and, from any first-frame world, in the extended one. *)
Theorem C1_speed_within_limits :
  (forall cv now inputs,
     - shipConfig.maxReverseSpeed
       <= speed (Simple.ship (Simple.sail inputs (Simple.initialWorld cv now)))
       <= shipConfig.maxSpeed) /\
  (forall cv now draws w0 draws' inputs,
     Extended.initialWorld cv now draws = Some (w0, draws') ->
     - shipConfig.maxReverseSpeed
       <= speed (Extended.ship (Extended.sail inputs w0))
       <= shipConfig.maxSpeed).
Proof.
  split.
  - intros cv now inputs. apply Simple_sail_speed. simpl. apply speedInRange_0.
  - intros cv now draws w0 draws' inputs Hinit.
    apply Extended_sail_speed.
    apply Extended_initialWorld_ship in Hinit as (-> & _). simpl.
    apply speedInRange_0.
Qed.

(** A start-up of the extended variant: start port on the top edge at
    (300, 300), ship on the port, goal on the right edge. *)
Lemma Extended_initialWorld_example :
  exists w0,
    Extended.initialWorld (mkCanvas 800 600) 0 [0; 0; 0.5; 0.5; 0.25; 0]
      = Some (w0, []) /\
    Extended.startPort w0 = mkPort (300 + 0 * (10000 - 300 * 2)) 300 true /\
    Extended.camera w0
      = mkCamera (300 + 0 * (10000 - 300 * 2) + (0.5 - 0.5) * (250 + 50) * 0.5)
                 (300 + (0.5 - 0.5) * (250 + 50) * 0.5) /\
    Extended.loadedIcebergChunks w0 = ∅ /\
    Extended.gameRunning w0 = true /\
    Extended.gameOver w0 = false /\
    Extended.gameWon w0 = false.
Proof.
  eexists. unfold Extended.initialWorld, Extended.generateStartPort.
  rewrite (floor_eq (0 * 4) 0) by (simpl; lra). simpl.
  unfold Extended.generateGoal, detectStartPortEdge. simpl.
  rewrite decide_True by (unfold goalConfig.edgeOffset; lra).
  simpl. rewrite (floor_eq (0.25 * 4) 1) by (simpl; lra). simpl.
  repeat split; reflexivity.
Qed.

Lemma C1_speed_within_limits_witness :
  exists w0,
    Extended.initialWorld (mkCanvas 800 600) 0 [0; 0; 0.5; 0.5; 0.25; 0]
      = Some (w0, []) /\
    - shipConfig.maxReverseSpeed
      <= speed (Extended.ship
                  (Extended.sail [(1, mkKeys true false false true)] w0))
      <= shipConfig.maxSpeed.
Proof.
  destruct Extended_initialWorld_example as (w0 & Hinit & _).
  exists w0. split; [exact Hinit|].
  exact (proj2 C1_speed_within_limits _ _ _ _ _
           [(1, mkKeys true false false true)] Hinit).
Defined.

(** ** ResourceModel *)

Lemma Simple_sail_app inputs inputs' w :
  Simple.sail (inputs ++ inputs') w = Simple.sail inputs' (Simple.sail inputs w).
Proof. unfold Simple.sail. apply foldl_app. Qed.

Lemma Extended_sail_app inputs inputs' w :
  Extended.sail (inputs ++ inputs') w
  = Extended.sail inputs' (Extended.sail inputs w).
Proof. unfold Extended.sail. apply foldl_app. Qed.

(** The coal one tick leaves, in terms of the speed the tick leaves. *)
Lemma Extended_updateShip_coal deltaTime keys w :
  Extended.currentCoal (Extended.updateShip deltaTime keys w) =
    if decide (Math.abs (speed (Extended.ship
                                  (Extended.updateShip deltaTime keys w))) > 0)
    then
      Math.max 0
        (Extended.currentCoal w
         - coalConfig.depletionRate
           * (Math.abs (speed (Extended.ship
                                 (Extended.updateShip deltaTime keys w)))
              / shipConfig.maxSpeed))
    else Extended.currentCoal w.
Proof.
  unfold Extended.updateShip.
  destruct (turnAboutPivot _ _ _ _) as [rotation1 camera1]. reflexivity.
Qed.

Lemma Extended_updateShip_coal_range deltaTime keys w :
  0 <= Extended.currentCoal w <= coalConfig.maxCoal ->
  0 <= Extended.currentCoal (Extended.updateShip deltaTime keys w)
    <= Extended.currentCoal w.
Proof.
  intros Hc. rewrite Extended_updateShip_coal.
  set (v := speed _). case_decide; [|lra].
  assert (0 <= coalConfig.depletionRate * (Math.abs v / shipConfig.maxSpeed)).
  { unfold coalConfig.depletionRate, Math.abs. unfold_config.
    pose proof (Rabs_pos v).
    apply Rmult_le_pos; [lra|]. unfold Rdiv. apply Rmult_le_pos; lra. }
  unfold Math.max. split_minmax; lra.
Qed.

Lemma Extended_sail_coal_range inputs w :
  0 <= Extended.currentCoal w <= coalConfig.maxCoal ->
  0 <= Extended.currentCoal (Extended.sail inputs w) <= Extended.currentCoal w.
Proof.
  revert w; induction inputs as [|[deltaTime keys] inputs IH]; intros w Hc.
  - simpl. lra.
  - change (Extended.sail ((deltaTime, keys) :: inputs) w)
      with (Extended.sail inputs (Extended.updateShip deltaTime keys w)).
    pose proof (Extended_updateShip_coal_range deltaTime keys w Hc) as H1.
    assert (H2 : 0 <= Extended.currentCoal (Extended.updateShip deltaTime keys w)
                   <= coalConfig.maxCoal) by lra.
    specialize (IH _ H2). lra.
Qed.

(** C4. In the extended variant, from any coal level in [0, maxCoal] and
    over every sequence of ticks, the coal after one more tick is still in
    [0, maxCoal] and is not above the coal before that tick; the tick
    subtracts [depletionRate * (|speed| / maxSpeed)] exactly when
    [|speed| > 0], with the result floored at 0, and leaves the coal as it
    is otherwise. *)
Theorem C4_coal_non_increasing :
  forall w inputs deltaTime keys,
    0 <= Extended.currentCoal w <= coalConfig.maxCoal ->
    let before := Extended.sail inputs w in
    let after := Extended.sail (inputs ++ [(deltaTime, keys)]) w in
    0 <= Extended.currentCoal after <= coalConfig.maxCoal /\
    Extended.currentCoal after <= Extended.currentCoal before /\
    Extended.currentCoal after =
      (if decide (Rabs (speed (Extended.ship after)) > 0) then
         Rmax 0 (Extended.currentCoal before
                 - coalConfig.depletionRate
                   * (Rabs (speed (Extended.ship after)) / shipConfig.maxSpeed))
       else Extended.currentCoal before).
Proof.
  intros w inputs deltaTime keys Hc before after.
  assert (Hafter : after = Extended.updateShip deltaTime keys before).
  { unfold after, before. rewrite Extended_sail_app. reflexivity. }
  pose proof (Extended_sail_coal_range inputs w Hc) as Hb. fold before in Hb.
  assert (Hb' : 0 <= Extended.currentCoal before <= coalConfig.maxCoal) by lra.
  pose proof (Extended_updateShip_coal_range deltaTime keys before Hb') as Hstep.
  rewrite <- Hafter in Hstep.
  split; [lra|]. split; [lra|].
  rewrite Hafter. apply Extended_updateShip_coal.
Qed.

Lemma C4_coal_non_increasing_witness :
  let w := Extended.declaredWorld (mkCanvas 800 600) 0 in
  let before := Extended.sail [(1, mkKeys true false false false)] w in
  let after :=
    Extended.sail ([(1, mkKeys true false false false)]
                   ++ [(1, mkKeys false false true false)]) w in
  0 <= Extended.currentCoal after <= coalConfig.maxCoal /\
  Extended.currentCoal after <= Extended.currentCoal before /\
  Extended.currentCoal after =
    (if decide (Rabs (speed (Extended.ship after)) > 0) then
       Rmax 0 (Extended.currentCoal before
               - coalConfig.depletionRate
                 * (Rabs (speed (Extended.ship after)) / shipConfig.maxSpeed))
     else Extended.currentCoal before).
Proof.
  apply (C4_coal_non_increasing
           (Extended.declaredWorld (mkCanvas 800 600) 0)
           [(1, mkKeys true false false false)] 1
           (mkKeys false false true false)).
  simpl. unfold coalConfig.maxCoal. lra.
Defined.

(** ** Depleted coal *)

(** With no coal, a tick sets the acceleration to zero, applies friction
    to the speed it found and leaves the coal at zero, whatever keys are
    held. *)
Lemma Extended_updateShip_depleted deltaTime keys w :
  Extended.currentCoal w = 0 ->
  let w' := Extended.updateShip deltaTime keys w in
  acceleration (Extended.ship w') = 0 /\
  speed (Extended.ship w') = applyFriction (speed (Extended.ship w)) /\
  Extended.currentCoal w' = 0.
Proof.
  intros Hc w'.
  assert (Hs : acceleration (Extended.ship w') = 0 /\
               speed (Extended.ship w') = applyFriction (speed (Extended.ship w))).
  { unfold w', Extended.updateShip.
    destruct (turnAboutPivot _ _ _ _) as [rotation1 camera1]. simpl.
    rewrite decide_False by lra.
    rewrite bool_decide_Rne_false by reflexivity.
    rewrite (bool_decide_eq_true_2 (0 = 0)) by reflexivity. simpl. auto. }
  destruct Hs as [Ha Hs]. split; [exact Ha|]. split; [exact Hs|].
  unfold w'. rewrite Extended_updateShip_coal, Hc.
  case_decide; [|reflexivity].
  set (v := speed _).
  assert (0 <= coalConfig.depletionRate * (Math.abs v / shipConfig.maxSpeed)).
  { unfold coalConfig.depletionRate, Math.abs. unfold_config.
    pose proof (Rabs_pos v).
    apply Rmult_le_pos; [lra|]. unfold Rdiv. apply Rmult_le_pos; lra. }
  unfold Math.max. split_minmax; lra.
Qed.

Lemma Extended_sail_depleted inputs w :
  Extended.currentCoal w = 0 ->
  Extended.currentCoal (Extended.sail inputs w) = 0.
Proof.
  revert w; induction inputs as [|[deltaTime keys] inputs IH]; intros w Hc.
  - exact Hc.
  - change (Extended.sail ((deltaTime, keys) :: inputs) w)
      with (Extended.sail inputs (Extended.updateShip deltaTime keys w)).
    apply IH. apply (Extended_updateShip_depleted deltaTime keys w Hc).
Qed.

(** Friction takes [friction] off the magnitude of the speed, down to 0. *)
Lemma applyFriction_abs v :
  Rabs (applyFriction v) = Rmax 0 (Rabs v - shipConfig.friction).
Proof.
  unfold applyFriction; repeat case_decide; unfold_config; split_minmax; lra.
Qed.

(** A depleted ship is at rest after enough ticks, whatever keys are held. *)
Lemma Extended_sail_depleted_stops inputs w :
  Extended.currentCoal w = 0 ->
  Rabs (speed (Extended.ship w)) <= INR (length inputs) * shipConfig.friction ->
  speed (Extended.ship (Extended.sail inputs w)) = 0.
Proof.
  revert w; induction inputs as [|[deltaTime keys] inputs IH]; intros w Hc Hv.
  - simpl in *. pose proof (Rabs_pos (speed (Extended.ship w))) as Hp.
    destruct (Req_dec (speed (Extended.ship w)) 0) as [H0|H0]; [exact H0|].
    apply Rabs_pos_lt in H0. lra.
  - change (Extended.sail ((deltaTime, keys) :: inputs) w)
      with (Extended.sail inputs (Extended.updateShip deltaTime keys w)).
    destruct (Extended_updateShip_depleted deltaTime keys w Hc) as (_ & Hs & Hc').
    apply IH; [exact Hc'|].
    rewrite Hs, applyFriction_abs.
    change (length ((deltaTime, keys) :: inputs)) with (S (length inputs)) in Hv.
    rewrite S_INR in Hv.
    assert (0 <= INR (length inputs)) by apply pos_INR.
    unfold_config. split_minmax; nra.
Qed.

(** C5. In the extended variant, once the coal is 0 it stays 0, and on
    every later tick, whatever keys are held, the acceleration is zero, a
    nonzero speed becomes strictly smaller in magnitude without changing
    sign, a zero speed stays zero, and so the magnitude of the speed never
    increases; the ship is at rest once the ticks outnumber
    |speed| / friction. *)
Theorem C5_depleted_ship_coasts_to_stop :
  forall w inputs deltaTime keys,
    Extended.currentCoal w = 0 ->
    let before := Extended.sail inputs w in
    let after := Extended.sail (inputs ++ [(deltaTime, keys)]) w in
    Extended.currentCoal after = 0 /\
    acceleration (Extended.ship after) = 0 /\
    (speed (Extended.ship before) <> 0 ->
       Rabs (speed (Extended.ship after)) < Rabs (speed (Extended.ship before))) /\
    (speed (Extended.ship before) = 0 -> speed (Extended.ship after) = 0) /\
    Rabs (speed (Extended.ship after)) <= Rabs (speed (Extended.ship before)) /\
    (0 <= speed (Extended.ship before) -> 0 <= speed (Extended.ship after)) /\
    (speed (Extended.ship before) <= 0 -> speed (Extended.ship after) <= 0) /\
    (Rabs (speed (Extended.ship w)) <= INR (length inputs) * shipConfig.friction ->
       speed (Extended.ship before) = 0).
Proof.
  intros w inputs deltaTime keys Hc before after.
  assert (Hafter : after = Extended.updateShip deltaTime keys before).
  { unfold after, before. rewrite Extended_sail_app. reflexivity. }
  pose proof (Extended_sail_depleted inputs w Hc) as Hb. fold before in Hb.
  destruct (Extended_updateShip_depleted deltaTime keys before Hb)
    as (Ha & Hs & Hc').
  rewrite <- Hafter in Ha, Hs, Hc'.
  destruct (applyFriction_toward_zero (speed (Extended.ship before)))
    as (Hlt & Hz & Hpos & Hneg).
  rewrite <- Hs in Hlt, Hz, Hpos, Hneg.
  repeat split; auto.
  - destruct (Req_dec (speed (Extended.ship before)) 0) as [H0|H0].
    + rewrite (Hz H0), H0. lra.
    + left. apply Hlt, H0.
  - intros Hn. apply Extended_sail_depleted_stops; assumption.
Qed.

Lemma C5_depleted_ship_coasts_to_stop_witness :
  let w := Extended.set_currentCoal 0
             (Extended.set_ship (mkShip 0 0 0 0.05 0.03 0)
                (Extended.declaredWorld (mkCanvas 800 600) 0)) in
  let up := mkKeys true false false false in
  let before := Extended.sail [(1, up)] w in
  let after := Extended.sail ([(1, up)] ++ [(1, up)]) w in
  Extended.currentCoal after = 0 /\
  acceleration (Extended.ship after) = 0 /\
  (speed (Extended.ship before) <> 0 ->
     Rabs (speed (Extended.ship after)) < Rabs (speed (Extended.ship before))) /\
  (speed (Extended.ship before) = 0 -> speed (Extended.ship after) = 0) /\
  Rabs (speed (Extended.ship after)) <= Rabs (speed (Extended.ship before)) /\
  (0 <= speed (Extended.ship before) -> 0 <= speed (Extended.ship after)) /\
  (speed (Extended.ship before) <= 0 -> speed (Extended.ship after) <= 0) /\
  (Rabs (speed (Extended.ship w)) <= INR (length [(1, up)]) * shipConfig.friction ->
     speed (Extended.ship before) = 0).
Proof.
  apply (C5_depleted_ship_coasts_to_stop
           (Extended.set_currentCoal 0
              (Extended.set_ship (mkShip 0 0 0 0.05 0.03 0)
                 (Extended.declaredWorld (mkCanvas 800 600) 0)))
           [(1, mkKeys true false false false)] 1
           (mkKeys true false false false)).
  reflexivity.
Defined.

(** ** deltaTime *)

(** C10. [updateShip] does not depend on its [deltaTime] argument: for the
    same world and keys, any two values of [deltaTime] give the same
    resulting world, in both variants; so the frame-time factor that
    [gameLoop] computes and caps at 2 has no effect on the physics. *)
Theorem C10_updateShip_ignores_deltaTime :
  (forall deltaTime1 deltaTime2 keys w,
     Simple.updateShip deltaTime1 keys w = Simple.updateShip deltaTime2 keys w) /\
  (forall deltaTime1 deltaTime2 keys w,
     Extended.updateShip deltaTime1 keys w
     = Extended.updateShip deltaTime2 keys w).
Proof. split; reflexivity. Qed.

(** ** WorldGenerator: one chunk *)

Section chunk.
Variables chunkX chunkY : Z.

(** An iteration appends to the list it is given, and what it appends
    does not depend on that list. *)
Lemma candidateStep_app ices i :
  WorldGenerator.candidateStep chunkX chunkY ices i
  = ices ++ WorldGenerator.candidateStep chunkX chunkY [] i.
Proof.
  unfold WorldGenerator.candidateStep. case_decide.
  - rewrite app_nil_r. reflexivity.
  - reflexivity.
Qed.

Lemma candidateLoop_app ices (indices : list Z) :
  foldl (WorldGenerator.candidateStep chunkX chunkY) ices indices
  = ices ++ foldl (WorldGenerator.candidateStep chunkX chunkY) [] indices.
Proof.
  revert ices. induction indices as [|i indices IH]; intros ices; simpl.
  - rewrite app_nil_r. reflexivity.
  - rewrite IH, (IH (WorldGenerator.candidateStep chunkX chunkY [] i)).
    rewrite candidateStep_app, app_assoc. reflexivity.
Qed.

(** The body returns exactly when the canvas has a nonzero area, and then
    appends a list that is a function of the canvas and the chunk key. *)
Lemma generateChunkBody_app canvas ices :
  WorldGenerator.generateChunkBody canvas chunkX chunkY ices
  = (fun fresh => ices ++ fresh)
      <$> WorldGenerator.generateChunkBody canvas chunkX chunkY [].
Proof.
  unfold WorldGenerator.generateChunkBody.
  destruct (WorldGenerator.expectedCount canvas) as [n|]; simpl; [|reflexivity].
  rewrite candidateLoop_app. reflexivity.
Qed.

Lemma generateChunkBody_total canvas ices :
  (width canvas * height canvas)%Z <> 0%Z ->
  is_Some (WorldGenerator.generateChunkBody canvas chunkX chunkY ices).
Proof.
  intros Harea. unfold WorldGenerator.generateChunkBody,
    WorldGenerator.expectedCount.
  rewrite decide_False by exact Harea. simpl. eauto.
Qed.

(** Every iceberg an iteration adds has the property [P], if [P] holds of
    every iceberg built from two coordinates at least [startSafeRadius]
    from the origin and a size in [minSize, maxSize]. *)
Lemma candidateStep_Forall (P : Iceberg -> Prop) ices i :
  (forall x y s n k,
     WorldGenerator.startSafeRadius <= Math.sqrt (x * x + y * y) ->
     icebergsConfig.minSize <= s <= icebergsConfig.maxSize ->
     P (mkIceberg x y s n k)) ->
  Forall P ices ->
  Forall P (WorldGenerator.candidateStep chunkX chunkY ices i).
Proof.
  intros HP Hices. unfold WorldGenerator.candidateStep.
  case_decide as Hd; [exact Hices|].
  apply Forall_app. split; [exact Hices|].
  apply Forall_cons. split; [|apply Forall_nil; exact I].
  apply HP.
  - lra.
  - match goal with |- context [WorldGenerator.fracHash ?h] =>
      pose proof (fracHash_range h) end.
    unfold icebergsConfig.minSize, icebergsConfig.maxSize. nra.
Qed.

Lemma candidateLoop_Forall (P : Iceberg -> Prop) ices indices :
  (forall x y s n k,
     WorldGenerator.startSafeRadius <= Math.sqrt (x * x + y * y) ->
     icebergsConfig.minSize <= s <= icebergsConfig.maxSize ->
     P (mkIceberg x y s n k)) ->
  Forall P ices ->
  Forall P (foldl (WorldGenerator.candidateStep chunkX chunkY) ices indices).
Proof.
  intros HP. revert ices. induction indices as [|i indices IH]; intros ices H.
  - exact H.
  - simpl. apply IH, candidateStep_Forall; assumption.
Qed.
End chunk.

(** ** Loops that may fail to return *)

Section forEach.
Context {S A : Type} (body : A -> S -> option S).

Lemma forEach_preserves (I : S -> Prop) l s s' :
  (forall a s s', body a s = Some s' -> I s -> I s') ->
  I s -> forEach body l s = Some s' -> I s'.
Proof.
  intros Hbody. revert s. induction l as [|a l IH]; intros s Hs; simpl.
  - intros [= <-]. exact Hs.
  - destruct (body a s) as [s1|] eqn:Ha; simpl; [|discriminate].
    apply IH. eapply Hbody; eassumption.
Qed.

Lemma forEach_total (I : S -> Prop) l s :
  (forall a s, I s -> exists s', body a s = Some s' /\ I s') ->
  I s -> exists s', forEach body l s = Some s' /\ I s'.
Proof.
  intros Hbody. revert s. induction l as [|a l IH]; intros s Hs; simpl.
  - eauto.
  - destruct (Hbody a s Hs) as (s1 & -> & Hs1). simpl. apply IH, Hs1.
Qed.

Lemma forEach_skip l s :
  (forall a, a ∈ l -> body a s = Some s) -> forEach body l s = Some s.
Proof.
  induction l as [|a l IH]; intros Hskip; simpl.
  - reflexivity.
  - rewrite Hskip by apply list_elem_of_here. simpl.
    apply IH. intros b Hb. apply Hskip, list_elem_of_further, Hb.
Qed.

(** A property [Q a] that the iteration for [a] establishes, and that no
    iteration destroys, holds after the loop for every [a] of the list. *)
Lemma forEach_establishes (Q : A -> S -> Prop) l s s' :
  (forall a s s', body a s = Some s' -> Q a s') ->
  (forall a b s s', body b s = Some s' -> Q a s -> Q a s') ->
  forEach body l s = Some s' ->
  forall a, a ∈ l -> Q a s'.
Proof.
  intros Hest Hkeep. revert s. induction l as [|b l IH]; intros s; simpl.
  - intros _ a Ha. inversion Ha.
  - destruct (body b s) as [s1|] eqn:Hb; simpl; [|discriminate].
    intros Hrest a Ha. apply elem_of_cons in Ha as [->|Ha].
    + apply (forEach_preserves (Q b) l s1 s'); eauto.
    + eapply IH; eassumption.
Qed.
End forEach.

Lemma elem_of_fromTo (z lo hi : Z) :
  z ∈ WorldGenerator.fromTo lo hi <-> (lo <= z <= hi)%Z.
Proof. unfold WorldGenerator.fromTo. rewrite elem_of_seqZ. lia. Qed.

(** ** WorldGenerator: chunks and the loaded set *)

Lemma generate_skip canvas chunkX chunkY f :
  (chunkX, chunkY) ∈ WorldGenerator.f_loaded f ->
  WorldGenerator.generateIcebergsForChunk canvas chunkX chunkY f = Some f.
Proof.
  intros Hin. unfold WorldGenerator.generateIcebergsForChunk.
  rewrite decide_True by exact Hin. reflexivity.
Qed.

Lemma generate_fresh canvas chunkX chunkY f :
  (chunkX, chunkY) ∉ WorldGenerator.f_loaded f ->
  WorldGenerator.generateIcebergsForChunk canvas chunkX chunkY f
  = (fun ices =>
       WorldGenerator.mkField ices ({[ (chunkX, chunkY) ]} ∪ WorldGenerator.f_loaded f))
      <$> WorldGenerator.generateChunkBody canvas chunkX chunkY
            (WorldGenerator.f_icebergs f).
Proof.
  intros Hnot. unfold WorldGenerator.generateIcebergsForChunk.
  rewrite decide_False by exact Hnot.
  destruct (WorldGenerator.generateChunkBody _ _ _ _); reflexivity.
Qed.

Lemma generate_loaded canvas chunkX chunkY f f' :
  WorldGenerator.generateIcebergsForChunk canvas chunkX chunkY f = Some f' ->
  WorldGenerator.f_loaded f ⊆ WorldGenerator.f_loaded f' /\
  (chunkX, chunkY) ∈ WorldGenerator.f_loaded f'.
Proof.
  unfold WorldGenerator.generateIcebergsForChunk. case_decide as Hin.
  - intros [= <-]. split; [reflexivity | exact Hin].
  - destruct (WorldGenerator.generateChunkBody _ _ _ _); simpl; [|discriminate].
    intros [= <-]. simpl. split; set_solver.
Qed.

Lemma generate_total canvas chunkX chunkY f :
  (width canvas * height canvas)%Z <> 0%Z ->
  is_Some (WorldGenerator.generateIcebergsForChunk canvas chunkX chunkY f).
Proof.
  intros Harea. unfold WorldGenerator.generateIcebergsForChunk.
  case_decide; [eauto|].
  destruct (generateChunkBody_total chunkX chunkY canvas
              (WorldGenerator.f_icebergs f) Harea) as [ices ->].
  simpl. eauto.
Qed.

(** Icebergs are only ever appended: the old list is a prefix of the new. *)
Lemma generate_prefix canvas chunkX chunkY f f' :
  WorldGenerator.generateIcebergsForChunk canvas chunkX chunkY f = Some f' ->
  exists fresh,
    WorldGenerator.f_icebergs f' = WorldGenerator.f_icebergs f ++ fresh.
Proof.
  unfold WorldGenerator.generateIcebergsForChunk. case_decide as Hin.
  - intros [= <-]. exists []. rewrite app_nil_r. reflexivity.
  - rewrite generateChunkBody_app.
    destruct (WorldGenerator.generateChunkBody _ _ _ []) as [fresh|]; simpl;
      [|discriminate].
    intros [= <-]. exists fresh. reflexivity.
Qed.

Lemma generate_Forall (P : Iceberg -> Prop) canvas chunkX chunkY f f' :
  (forall x y s n k,
     WorldGenerator.startSafeRadius <= Math.sqrt (x * x + y * y) ->
     icebergsConfig.minSize <= s <= icebergsConfig.maxSize ->
     P (mkIceberg x y s n k)) ->
  WorldGenerator.generateIcebergsForChunk canvas chunkX chunkY f = Some f' ->
  Forall P (WorldGenerator.f_icebergs f) ->
  Forall P (WorldGenerator.f_icebergs f').
Proof.
  intros HP. unfold WorldGenerator.generateIcebergsForChunk,
    WorldGenerator.generateChunkBody. case_decide as Hin.
  - intros [= <-]. auto.
  - destruct (WorldGenerator.expectedCount canvas) as [n|]; simpl; [|discriminate].
    intros [= <-] Hf. simpl. apply candidateLoop_Forall; assumption.
Qed.

(** ** WorldGenerator: the visible area *)

Section ensure.
Variables (canvas : Canvas) (camera : Camera).

Local Abbreviation rangeX := (WorldGenerator.chunkRangeX canvas camera).
Local Abbreviation rangeY := (WorldGenerator.chunkRangeY canvas camera).

Lemma ensure_unfold f :
  WorldGenerator.ensureIcebergsGenerated canvas camera f
  = forEach (fun chunkX =>
      forEach (fun chunkY =>
                 WorldGenerator.generateIcebergsForChunk canvas chunkX chunkY)
              (WorldGenerator.fromTo (fst rangeY) (snd rangeY)))
      (WorldGenerator.fromTo (fst rangeX) (snd rangeX)) f.
Proof.
  unfold WorldGenerator.ensureIcebergsGenerated.
  destruct (WorldGenerator.chunkRangeX canvas camera),
           (WorldGenerator.chunkRangeY canvas camera). reflexivity.
Qed.

(** When every visited chunk is loaded, nothing changes. *)
Lemma ensure_skip f :
  (forall key, visited canvas camera key -> key ∈ WorldGenerator.f_loaded f) ->
  WorldGenerator.ensureIcebergsGenerated canvas camera f = Some f.
Proof.
  intros Hall. rewrite ensure_unfold.
  apply forEach_skip. intros chunkX HX.
  apply forEach_skip. intros chunkY HY.
  apply generate_skip, Hall. apply elem_of_fromTo in HX, HY. split; assumption.
Qed.

Lemma ensure_loaded_mono f f' :
  WorldGenerator.ensureIcebergsGenerated canvas camera f = Some f' ->
  WorldGenerator.f_loaded f ⊆ WorldGenerator.f_loaded f'.
Proof.
  rewrite ensure_unfold. intros H.
  apply (forEach_preserves _
           (fun g => WorldGenerator.f_loaded f ⊆ WorldGenerator.f_loaded g)
           _ _ _) in H; [exact H | | reflexivity].
  intros chunkX g g' Hin Hg.
  apply (forEach_preserves _
           (fun g => WorldGenerator.f_loaded f ⊆ WorldGenerator.f_loaded g)
           _ _ _) in Hin; [exact Hin | | exact Hg].
  intros chunkY h h' Hgen Hh. apply generate_loaded in Hgen as [Hsub _].
  set_solver.
Qed.

(** After the call, every visited chunk is loaded. *)
Lemma ensure_loaded f f' :
  WorldGenerator.ensureIcebergsGenerated canvas camera f = Some f' ->
  forall key, visited canvas camera key -> key ∈ WorldGenerator.f_loaded f'.
Proof.
  rewrite ensure_unfold. intros H [chunkX chunkY] [Hcx Hcy]. simpl in Hcx, Hcy.
  set (inner := fun chunkX : Z =>
         forEach (fun chunkY =>
                    WorldGenerator.generateIcebergsForChunk canvas chunkX chunkY)
                 (WorldGenerator.fromTo (fst rangeY) (snd rangeY))) in *.
  assert (Hinner_mono : forall b g g',
            inner b g = Some g' ->
            WorldGenerator.f_loaded g ⊆ WorldGenerator.f_loaded g').
  { intros b g g' Hin.
    apply (forEach_preserves _
             (fun h => WorldGenerator.f_loaded g ⊆ WorldGenerator.f_loaded h)
             _ _ _) in Hin; [exact Hin | | reflexivity].
    intros c h h' Hgen Hh. apply generate_loaded in Hgen as [Hsub _].
    etrans; eassumption. }
  apply (forEach_establishes inner
           (fun a g => (a, chunkY) ∈ WorldGenerator.f_loaded g)
           _ _ _) with (a := chunkX) in H.
  - exact H.
  - intros a g g' Hin.
    apply (forEach_establishes _
             (fun c h => (a, c) ∈ WorldGenerator.f_loaded h)
             _ _ _) with (a := chunkY) in Hin.
    + exact Hin.
    + intros c h h' Hgen. apply (generate_loaded _ _ _ _ _ Hgen).
    + intros c d h h' Hgen Hc. apply generate_loaded in Hgen as [Hsub _].
      eapply elem_of_subseteq; eassumption.
    + apply elem_of_fromTo. exact Hcy.
  - intros a b g g' Hin Ha. apply Hinner_mono in Hin.
    eapply elem_of_subseteq; eassumption.
  - apply elem_of_fromTo. exact Hcx.
Qed.

(** With a canvas of nonzero area the call returns. *)
Lemma ensure_total f :
  (width canvas * height canvas)%Z <> 0%Z ->
  is_Some (WorldGenerator.ensureIcebergsGenerated canvas camera f).
Proof.
  intros Harea. rewrite ensure_unfold.
  destruct (forEach_total
              (fun chunkX =>
                 forEach (fun chunkY =>
                   WorldGenerator.generateIcebergsForChunk canvas chunkX chunkY)
                   (WorldGenerator.fromTo (fst rangeY) (snd rangeY)))
              (fun _ => True)
              (WorldGenerator.fromTo (fst rangeX) (snd rangeX)) f)
    as (f' & -> & _); [| exact I | eauto].
  intros chunkX g _.
  destruct (forEach_total
              (fun chunkY =>
                 WorldGenerator.generateIcebergsForChunk canvas chunkX chunkY)
              (fun _ => True)
              (WorldGenerator.fromTo (fst rangeY) (snd rangeY)) g)
    as (g' & -> & _); [| exact I | eauto].
  intros chunkY h _.
  destruct (generate_total canvas chunkX chunkY h Harea) as [h' ->]. eauto.
Qed.

Lemma ensure_Forall (P : Iceberg -> Prop) f f' :
  (forall x y s n k,
     WorldGenerator.startSafeRadius <= Math.sqrt (x * x + y * y) ->
     icebergsConfig.minSize <= s <= icebergsConfig.maxSize ->
     P (mkIceberg x y s n k)) ->
  WorldGenerator.ensureIcebergsGenerated canvas camera f = Some f' ->
  Forall P (WorldGenerator.f_icebergs f) ->
  Forall P (WorldGenerator.f_icebergs f').
Proof.
  intros HP. rewrite ensure_unfold. intros H Hf.
  apply (forEach_preserves _ (fun g => Forall P (WorldGenerator.f_icebergs g))
           _ _ _) in H; [exact H | | exact Hf].
  intros chunkX g g' Hin Hg.
  apply (forEach_preserves _ (fun g => Forall P (WorldGenerator.f_icebergs g))
           _ _ _) in Hin; [exact Hin | | exact Hg].
  intros chunkY h h' Hgen Hh. eapply generate_Forall; eassumption.
Qed.

(** Icebergs present before the call are still there after it. *)
Lemma ensure_keeps f f' iceberg :
  WorldGenerator.ensureIcebergsGenerated canvas camera f = Some f' ->
  iceberg ∈ WorldGenerator.f_icebergs f ->
  iceberg ∈ WorldGenerator.f_icebergs f'.
Proof.
  rewrite ensure_unfold. intros H Hf.
  apply (forEach_preserves _ (fun g => iceberg ∈ WorldGenerator.f_icebergs g)
           _ _ _) in H; [exact H | | exact Hf].
  intros chunkX g g' Hin Hg.
  apply (forEach_preserves _ (fun g => iceberg ∈ WorldGenerator.f_icebergs g)
           _ _ _) in Hin; [exact Hin | | exact Hg].
  intros chunkY h h' Hgen Hh.
  apply generate_prefix in Hgen as [fresh ->]. apply elem_of_app. auto.
Qed.
End ensure.

(** A viewport inside another visits no chunk the other does not. *)
Lemma visited_within canvas' camera' canvas camera key :
  viewportWithin canvas' camera' canvas camera ->
  visited canvas' camera' key -> visited canvas camera key.
Proof.
  intros (Hx1 & Hx2 & Hy1 & Hy2) [HX HY].
  unfold visited, WorldGenerator.chunkRangeX, WorldGenerator.chunkRangeY in *.
  simpl in *.
  assert (Hdiv : forall a b, a <= b ->
            a / icebergGridSize <= b / icebergGridSize).
  { intros a b Hab. unfold icebergGridSize. lra. }
  pose proof (floor_mono _ _ (Hdiv _ _ Hx1)).
  pose proof (ceil_mono _ _ (Hdiv _ _ Hx2)).
  pose proof (floor_mono _ _ (Hdiv _ _ Hy1)).
  pose proof (ceil_mono _ _ (Hdiv _ _ Hy2)).
  lia.
Qed.

Lemma viewportWithin_refl canvas camera :
  viewportWithin canvas camera canvas camera.
Proof. unfold viewportWithin. lra. Qed.

(** A second call over the same or a smaller viewport changes nothing. *)
Lemma ensure_idempotent canvas camera f f' :
  WorldGenerator.ensureIcebergsGenerated canvas camera f = Some f' ->
  forall canvas' camera',
    viewportWithin canvas' camera' canvas camera ->
    WorldGenerator.ensureIcebergsGenerated canvas' camera' f' = Some f'.
Proof.
  intros Hfirst canvas' camera' Hwithin.
  apply ensure_skip. intros key Hkey.
  apply (ensure_loaded _ _ _ _ Hfirst).
  eapply visited_within; eassumption.
Qed.

(** ** WorldGenerator in the two variants *)

Lemma Simple_set_field_field w : Simple.set_field (Simple.field w) w = w.
Proof. destruct w; reflexivity. Qed.

Lemma Extended_set_field_field w : Extended.set_field (Extended.field w) w = w.
Proof. destruct w; reflexivity. Qed.

Lemma Simple_ensure_inv w w' :
  Simple.ensureIcebergsGenerated w = Some w' ->
  exists f',
    WorldGenerator.ensureIcebergsGenerated
      (Simple.canvas w) (Simple.camera w) (Simple.field w) = Some f' /\
    w' = Simple.set_field f' w.
Proof.
  unfold Simple.ensureIcebergsGenerated.
  destruct (WorldGenerator.ensureIcebergsGenerated _ _ _) as [f'|]; simpl;
    [|discriminate].
  intros [= <-]. eauto.
Qed.

Lemma Extended_ensure_inv w w' :
  Extended.ensureIcebergsGenerated w = Some w' ->
  exists f',
    WorldGenerator.ensureIcebergsGenerated
      (Extended.canvas w) (Extended.camera w) (Extended.field w) = Some f' /\
    w' = Extended.set_field f' w.
Proof.
  unfold Extended.ensureIcebergsGenerated.
  destruct (WorldGenerator.ensureIcebergsGenerated _ _ _) as [f'|]; simpl;
    [|discriminate].
  intros [= <-]. eauto.
Qed.

Lemma Simple_ensure_total w :
  (width (Simple.canvas w) * height (Simple.canvas w))%Z <> 0%Z ->
  is_Some (Simple.ensureIcebergsGenerated w).
Proof.
  intros Harea. unfold Simple.ensureIcebergsGenerated.
  destruct (ensure_total (Simple.canvas w) (Simple.camera w) (Simple.field w)
              Harea) as [f' ->].
  simpl. eauto.
Qed.

Lemma Extended_ensure_total w :
  (width (Extended.canvas w) * height (Extended.canvas w))%Z <> 0%Z ->
  is_Some (Extended.ensureIcebergsGenerated w).
Proof.
  intros Harea. unfold Extended.ensureIcebergsGenerated.
  destruct (ensure_total (Extended.canvas w) (Extended.camera w)
              (Extended.field w) Harea) as [f' ->].
  simpl. eauto.
Qed.

Lemma Simple_field_set_field f w : Simple.field (Simple.set_field f w) = f.
Proof. destruct f; reflexivity. Qed.

Lemma Extended_field_set_field f w :
  Extended.field (Extended.set_field f w) = f.
Proof. destruct f; reflexivity. Qed.

(** ** Claim C7 *)

(** C7. [ensureIcebergsGenerated] is idempotent in both variants: after a
    call that returned, a second call with the same camera and canvas, or
    with any camera and canvas whose viewport lies inside the first one,
    returns the world it was given, so the iceberg list and the set of
    loaded chunks are unchanged: every chunk it visits is already in the
    set and is skipped. *)
Theorem C7_ensureIcebergsGenerated_idempotent :
  (forall w w',
     Simple.ensureIcebergsGenerated w = Some w' ->
     Simple.ensureIcebergsGenerated w' = Some w' /\
     forall canvas' camera',
       viewportWithin canvas' camera' (Simple.canvas w) (Simple.camera w) ->
       let again := Simple.set_camera camera' (Simple.set_canvas canvas' w') in
       Simple.ensureIcebergsGenerated again = Some again) /\
  (forall w w',
     Extended.ensureIcebergsGenerated w = Some w' ->
     Extended.ensureIcebergsGenerated w' = Some w' /\
     forall canvas' camera',
       viewportWithin canvas' camera' (Extended.canvas w) (Extended.camera w) ->
       let again :=
         Extended.set_camera camera' (Extended.set_canvas canvas' w') in
       Extended.ensureIcebergsGenerated again = Some again).
Proof.
  split.
  - intros w w' Hfirst.
    apply Simple_ensure_inv in Hfirst as (f' & Hf & ->).
    pose proof (ensure_idempotent _ _ _ _ Hf) as Hagain.
    split.
    + unfold Simple.ensureIcebergsGenerated.
      change (Simple.canvas (Simple.set_field f' w)) with (Simple.canvas w).
      change (Simple.camera (Simple.set_field f' w)) with (Simple.camera w).
      rewrite Simple_field_set_field.
      rewrite (Hagain _ _ (viewportWithin_refl _ _)). reflexivity.
    + intros canvas' camera' Hwithin again.
      unfold Simple.ensureIcebergsGenerated.
      change (Simple.canvas again) with canvas'.
      change (Simple.camera again) with camera'.
      change (Simple.field again) with (Simple.field (Simple.set_field f' w)).
      rewrite Simple_field_set_field.
      rewrite (Hagain _ _ Hwithin). reflexivity.
  - intros w w' Hfirst.
    apply Extended_ensure_inv in Hfirst as (f' & Hf & ->).
    pose proof (ensure_idempotent _ _ _ _ Hf) as Hagain.
    split.
    + unfold Extended.ensureIcebergsGenerated.
      change (Extended.canvas (Extended.set_field f' w)) with (Extended.canvas w).
      change (Extended.camera (Extended.set_field f' w)) with (Extended.camera w).
      rewrite Extended_field_set_field.
      rewrite (Hagain _ _ (viewportWithin_refl _ _)). reflexivity.
    + intros canvas' camera' Hwithin again.
      unfold Extended.ensureIcebergsGenerated.
      change (Extended.canvas again) with canvas'.
      change (Extended.camera again) with camera'.
      change (Extended.field again) with (Extended.field (Extended.set_field f' w)).
      rewrite Extended_field_set_field.
      rewrite (Hagain _ _ Hwithin). reflexivity.
Qed.

Lemma C7_ensureIcebergsGenerated_idempotent_witness :
  exists w',
    Simple.ensureIcebergsGenerated (Simple.initialWorld (mkCanvas 800 600) 0)
      = Some w' /\
    Simple.ensureIcebergsGenerated w' = Some w'.
Proof.
  destruct (Simple_ensure_total (Simple.initialWorld (mkCanvas 800 600) 0))
    as [w' Hfirst]; [simpl; lia|].
  exists w'. split; [exact Hfirst|].
  exact (proj1 (proj1 C7_ensureIcebergsGenerated_idempotent _ _ Hfirst)).
Defined.

(** ** Claim C6 *)

Lemma generateChunkBody_deterministic canvas chunkX chunkY :
  (width canvas * height canvas)%Z <> 0%Z ->
  exists fresh,
    forall ices,
      WorldGenerator.generateChunkBody canvas chunkX chunkY ices
      = Some (ices ++ fresh).
Proof.
  intros Harea.
  destruct (generateChunkBody_total chunkX chunkY canvas [] Harea)
    as [fresh Hfresh].
  exists fresh. intros ices.
  rewrite generateChunkBody_app, Hfresh. reflexivity.
Qed.

(** C6. Chunk generation is deterministic in both variants.  For a canvas
    of nonzero area and a chunk key there is one list [fresh] of icebergs
    (positions, sizes, point counts and seeds) such that the generation
    body, run on any iceberg list, returns that list followed by [fresh],
    so running it twice appends [fresh] twice; and
    [generateIcebergsForChunk], run on any two worlds that have the same
    canvas size and have not loaded the chunk, whatever their cameras,
    clocks, ships and earlier icebergs, appends the same [fresh] to
    both. *)
Theorem C6_chunk_generation_deterministic :
  (forall canvas chunkX chunkY ices1 ices2,
     (width canvas * height canvas)%Z <> 0%Z ->
     exists fresh,
       WorldGenerator.generateChunkBody canvas chunkX chunkY ices1
         = Some (ices1 ++ fresh) /\
       WorldGenerator.generateChunkBody canvas chunkX chunkY ices2
         = Some (ices2 ++ fresh) /\
       WorldGenerator.generateChunkBody canvas chunkX chunkY (ices1 ++ fresh)
         = Some ((ices1 ++ fresh) ++ fresh)) /\
  (forall w1 w2 chunkX chunkY,
     Simple.canvas w1 = Simple.canvas w2 ->
     (width (Simple.canvas w1) * height (Simple.canvas w1))%Z <> 0%Z ->
     (chunkX, chunkY) ∉ Simple.loadedIcebergChunks w1 ->
     (chunkX, chunkY) ∉ Simple.loadedIcebergChunks w2 ->
     exists fresh w1' w2',
       Simple.generateIcebergsForChunk chunkX chunkY w1 = Some w1' /\
       Simple.generateIcebergsForChunk chunkX chunkY w2 = Some w2' /\
       Simple.icebergs w1' = Simple.icebergs w1 ++ fresh /\
       Simple.icebergs w2' = Simple.icebergs w2 ++ fresh) /\
  (forall w1 w2 chunkX chunkY,
     Extended.canvas w1 = Extended.canvas w2 ->
     (width (Extended.canvas w1) * height (Extended.canvas w1))%Z <> 0%Z ->
     (chunkX, chunkY) ∉ Extended.loadedIcebergChunks w1 ->
     (chunkX, chunkY) ∉ Extended.loadedIcebergChunks w2 ->
     exists fresh w1' w2',
       Extended.generateIcebergsForChunk chunkX chunkY w1 = Some w1' /\
       Extended.generateIcebergsForChunk chunkX chunkY w2 = Some w2' /\
       Extended.icebergs w1' = Extended.icebergs w1 ++ fresh /\
       Extended.icebergs w2' = Extended.icebergs w2 ++ fresh).
Proof.
  split; [|split].
  - intros canvas chunkX chunkY ices1 ices2 Harea.
    destruct (generateChunkBody_deterministic canvas chunkX chunkY Harea)
      as [fresh Hfresh].
    exists fresh. rewrite !Hfresh. auto.
  - intros w1 w2 chunkX chunkY Hcanvas Harea Hnew1 Hnew2.
    destruct (generateChunkBody_deterministic _ chunkX chunkY Harea)
      as [fresh Hfresh].
    exists fresh. unfold Simple.generateIcebergsForChunk.
    rewrite !generate_fresh by assumption.
    rewrite <- Hcanvas. simpl. rewrite !Hfresh. simpl.
    do 2 eexists. repeat split; reflexivity.
  - intros w1 w2 chunkX chunkY Hcanvas Harea Hnew1 Hnew2.
    destruct (generateChunkBody_deterministic _ chunkX chunkY Harea)
      as [fresh Hfresh].
    exists fresh. unfold Extended.generateIcebergsForChunk.
    rewrite !generate_fresh by assumption.
    rewrite <- Hcanvas. simpl. rewrite !Hfresh. simpl.
    do 2 eexists. repeat split; reflexivity.
Qed.

Lemma C6_chunk_generation_deterministic_witness :
  exists fresh,
    WorldGenerator.generateChunkBody (mkCanvas 800 600) 1 0 []
      = Some ([] ++ fresh) /\
    WorldGenerator.generateChunkBody (mkCanvas 800 600) 1 0
        [mkIceberg 0 400 30 6 7]
      = Some ([mkIceberg 0 400 30 6 7] ++ fresh) /\
    WorldGenerator.generateChunkBody (mkCanvas 800 600) 1 0 ([] ++ fresh)
      = Some (([] ++ fresh) ++ fresh).
Proof.
  apply (proj1 C6_chunk_generation_deterministic
           (mkCanvas 800 600) 1%Z 0%Z [] [mkIceberg 0 400 30 6 7]).
  simpl. lia.
Defined.

(** ** SessionController: terminal states *)

Lemma Simple_gameLoop_terminal currentTime keys w :
  Simple.gameOver w = true ->
  exists w', Simple.gameLoop currentTime keys w = Some w' /\ simpleFrozen w w'.
Proof.
  intros Hover. unfold Simple.gameLoop, Simple.drawGameOver, Simple.drawShip.
  destruct w as [running over ? ? ? ? ? ? ? ?]. simpl in Hover. subst over.
  simpl. rewrite andb_false_r. simpl.
  eexists. split; [reflexivity|]. unfold simpleFrozen. simpl. auto 10.
Qed.

Lemma Extended_gameLoop_terminal currentTime now keys w :
  Extended.gameOver w = true \/ Extended.gameWon w = true ->
  exists w',
    Extended.gameLoop currentTime now keys w = Some w' /\ extendedFrozen w w'.
Proof.
  intros Hterminal.
  unfold Extended.gameLoop, Extended.drawGameOver, Extended.drawShip.
  destruct w as [running over won ? ? ? ? ? ? ? ? ? ? ? ? ? ?].
  simpl in Hterminal.
  destruct Hterminal as [-> | ->]; destruct running; try destruct over;
    try destruct won; simpl;
    (eexists; split; [reflexivity|]; unfold extendedFrozen; simpl; auto 20).
Qed.

Lemma simpleFrozen_trans w1 w2 w3 :
  simpleFrozen w1 w2 -> simpleFrozen w2 w3 -> simpleFrozen w1 w3.
Proof. unfold simpleFrozen. intuition congruence. Qed.

Lemma extendedFrozen_trans w1 w2 w3 :
  extendedFrozen w1 w2 -> extendedFrozen w2 w3 -> extendedFrozen w1 w3.
Proof. unfold extendedFrozen. intuition congruence. Qed.

(** C8. Once the session is GameOver (or, in the extended variant, Won),
    every sequence of further [gameLoop] frames returns and leaves the ship
    state (world position, heading, speed, acceleration, rudder), the coal
    level, the iceberg list, the loaded chunks and the session flags as they
    were: the physics, generation, collision and goal steps are skipped. *)
Theorem C8_terminal_frames_change_nothing :
  (forall frames w,
     Simple.gameOver w = true ->
     exists w', Simple.play frames w = Some w' /\ simpleFrozen w w') /\
  (forall frames w,
     Extended.gameOver w = true \/ Extended.gameWon w = true ->
     exists w', Extended.play frames w = Some w' /\ extendedFrozen w w').
Proof.
  split.
  - induction frames as [|[currentTime keys] frames IH]; intros w Hover.
    + exists w. split; [reflexivity|]. unfold simpleFrozen. auto 10.
    + destruct (Simple_gameLoop_terminal currentTime keys w Hover)
        as (w1 & Hstep & Hfrozen).
      destruct (IH w1) as (w' & Hrest & Hfrozen').
      { destruct Hfrozen as (_ & _ & _ & _ & _ & _ & _ & Hg & _).
        rewrite Hg. exact Hover. }
      exists w'. split.
      * unfold Simple.play in *. simpl. rewrite Hstep. simpl. exact Hrest.
      * eapply simpleFrozen_trans; eassumption.
  - induction frames as [|[[currentTime now] keys] frames IH]; intros w Hterm.
    + exists w. split; [reflexivity|]. unfold extendedFrozen. auto 20.
    + destruct (Extended_gameLoop_terminal currentTime now keys w Hterm)
        as (w1 & Hstep & Hfrozen).
      destruct (IH w1) as (w' & Hrest & Hfrozen').
      { destruct Hfrozen
          as (_ & _ & _ & _ & _ & _ & _ & _ & _ & _ & _ & _ & Hg & Hw & _).
        rewrite Hg, Hw. exact Hterm. }
      exists w'. split.
      * unfold Extended.play in *. simpl. rewrite Hstep. simpl. exact Hrest.
      * eapply extendedFrozen_trans; eassumption.
Qed.

Lemma C8_terminal_frames_change_nothing_witness :
  let w := Extended.set_gameWon true
             (Extended.set_gameRunning false
                (Extended.declaredWorld (mkCanvas 800 600) 0)) in
  exists w',
    Extended.play [(16, 16, mkKeys true false true false);
                   (33, 33, mkKeys false false false false)] w = Some w' /\
    extendedFrozen w w'.
Proof.
  apply (proj2 C8_terminal_frames_change_nothing).
  right. reflexivity.
Defined.

(** ** Every iceberg of a reachable world came out of the generator *)

Lemma Simple_updateShip_icebergs deltaTime keys w :
  Simple.icebergs (Simple.updateShip deltaTime keys w) = Simple.icebergs w /\
  Simple.loadedIcebergChunks (Simple.updateShip deltaTime keys w)
    = Simple.loadedIcebergChunks w /\
  Simple.canvas (Simple.updateShip deltaTime keys w) = Simple.canvas w /\
  Simple.gameOver (Simple.updateShip deltaTime keys w) = Simple.gameOver w.
Proof.
  unfold Simple.updateShip. destruct (turnAboutPivot _ _ _ _). auto.
Qed.

Lemma Extended_updateShip_icebergs deltaTime keys w :
  Extended.icebergs (Extended.updateShip deltaTime keys w)
    = Extended.icebergs w /\
  Extended.loadedIcebergChunks (Extended.updateShip deltaTime keys w)
    = Extended.loadedIcebergChunks w /\
  Extended.canvas (Extended.updateShip deltaTime keys w) = Extended.canvas w /\
  Extended.gameOver (Extended.updateShip deltaTime keys w)
    = Extended.gameOver w /\
  Extended.gameWon (Extended.updateShip deltaTime keys w) = Extended.gameWon w.
Proof.
  unfold Extended.updateShip. destruct (turnAboutPivot _ _ _ _). auto.
Qed.

Lemma Extended_updateShip_startPort deltaTime keys w :
  Extended.startPort (Extended.updateShip deltaTime keys w)
  = Extended.startPort w.
Proof.
  unfold Extended.updateShip. destruct (turnAboutPivot _ _ _ _). reflexivity.
Qed.

Lemma Simple_checkCollisions_frame w :
  Simple.icebergs (Simple.checkCollisions w) = Simple.icebergs w /\
  Simple.camera (Simple.checkCollisions w) = Simple.camera w /\
  Simple.canvas (Simple.checkCollisions w) = Simple.canvas w.
Proof.
  unfold Simple.checkCollisions.
  destruct (Simple.gameOver w); [auto|]. destruct (collisionLoop _ _); auto.
Qed.

Lemma Extended_checkCollisions_frame w :
  Extended.icebergs (Extended.checkCollisions w) = Extended.icebergs w /\
  Extended.camera (Extended.checkCollisions w) = Extended.camera w /\
  Extended.canvas (Extended.checkCollisions w) = Extended.canvas w /\
  Extended.gameWon (Extended.checkCollisions w) = Extended.gameWon w /\
  Extended.startPort (Extended.checkCollisions w) = Extended.startPort w.
Proof.
  unfold Extended.checkCollisions.
  destruct (_ || _); [auto 10|]. destruct (collisionLoop _ _); auto 10.
Qed.

Lemma Extended_checkGoalReached_frame now w :
  Extended.icebergs (Extended.checkGoalReached now w) = Extended.icebergs w /\
  Extended.camera (Extended.checkGoalReached now w) = Extended.camera w /\
  Extended.canvas (Extended.checkGoalReached now w) = Extended.canvas w /\
  Extended.gameOver (Extended.checkGoalReached now w) = Extended.gameOver w /\
  Extended.startPort (Extended.checkGoalReached now w) = Extended.startPort w.
Proof.
  unfold Extended.checkGoalReached.
  destruct (_ || _); [auto 10|]. case_decide; auto 10.
Qed.

Lemma Simple_draw_frame w :
  Simple.icebergs (Simple.drawGameOver (Simple.drawShip w)) = Simple.icebergs w /\
  Simple.camera (Simple.drawGameOver (Simple.drawShip w)) = Simple.camera w /\
  Simple.gameOver (Simple.drawGameOver (Simple.drawShip w)) = Simple.gameOver w.
Proof.
  unfold Simple.drawGameOver, Simple.drawShip. destruct (negb _); auto.
Qed.

Lemma Extended_draw_frame w :
  Extended.icebergs (Extended.drawGameOver (Extended.drawShip w))
    = Extended.icebergs w /\
  Extended.camera (Extended.drawGameOver (Extended.drawShip w))
    = Extended.camera w /\
  Extended.gameOver (Extended.drawGameOver (Extended.drawShip w))
    = Extended.gameOver w /\
  Extended.startPort (Extended.drawGameOver (Extended.drawShip w))
    = Extended.startPort w.
Proof.
  unfold Extended.drawGameOver, Extended.drawShip. destruct (negb _); auto.
Qed.

(** What a frame of the simple variant does to the iceberg list: nothing,
    or one call of the generator. *)
Lemma Simple_gameLoop_icebergs currentTime keys w w' :
  Simple.gameLoop currentTime keys w = Some w' ->
  Simple.icebergs w' = Simple.icebergs w \/
  exists canvas camera loaded f',
    WorldGenerator.ensureIcebergsGenerated canvas camera
      (WorldGenerator.mkField (Simple.icebergs w) loaded) = Some f' /\
    Simple.icebergs w' = WorldGenerator.f_icebergs f'.
Proof.
  unfold Simple.gameLoop.
  destruct (negb (Simple.gameRunning w) && negb (Simple.gameOver w)).
  { intros [= <-]. auto. }
  cbv zeta.
  set (w1 := Simple.set_animationTime _ _).
  set (deltaTime := Math.min _ _).
  destruct (negb (Simple.gameOver w1)).
  - destruct (Simple.ensureIcebergsGenerated _) as [w2|] eqn:Hens;
      [|discriminate].
    intros [= <-]. right.
    apply Simple_ensure_inv in Hens as (f' & Hf & ->).
    unfold Simple.field in Hf.
    destruct (Simple_updateShip_icebergs deltaTime keys w1) as (Hi & _).
    rewrite Hi in Hf. do 4 eexists. split; [exact Hf|].
    rewrite (proj1 (Simple_draw_frame _)).
    rewrite (proj1 (Simple_checkCollisions_frame _)). destruct f'; reflexivity.
  - intros [= <-]. left. rewrite (proj1 (Simple_draw_frame _)). reflexivity.
Qed.

Lemma Extended_gameLoop_icebergs currentTime now keys w w' :
  Extended.gameLoop currentTime now keys w = Some w' ->
  Extended.icebergs w' = Extended.icebergs w \/
  exists canvas camera loaded f',
    WorldGenerator.ensureIcebergsGenerated canvas camera
      (WorldGenerator.mkField (Extended.icebergs w) loaded) = Some f' /\
    Extended.icebergs w' = WorldGenerator.f_icebergs f'.
Proof.
  unfold Extended.gameLoop.
  destruct (negb (Extended.gameRunning w) && negb (Extended.gameOver w)
            && negb (Extended.gameWon w)).
  { intros [= <-]. auto. }
  cbv zeta.
  set (w1 := Extended.set_animationTime _ _).
  set (deltaTime := Math.min _ _).
  destruct (negb (Extended.gameOver w1) && negb (Extended.gameWon w1)).
  - destruct (Extended.ensureIcebergsGenerated _) as [w2|] eqn:Hens;
      [|discriminate].
    intros [= <-]. right.
    apply Extended_ensure_inv in Hens as (f' & Hf & ->).
    unfold Extended.field in Hf.
    destruct (Extended_updateShip_icebergs deltaTime keys w1) as (Hi & _).
    rewrite Hi in Hf. do 4 eexists. split; [exact Hf|].
    rewrite (proj1 (Extended_draw_frame _)).
    rewrite (proj1 (Extended_checkGoalReached_frame _ _)),
            (proj1 (Extended_checkCollisions_frame _)). destruct f'; reflexivity.
  - intros [= <-]. left. rewrite (proj1 (Extended_draw_frame _)). reflexivity.
Qed.

Lemma Simple_play_Forall (P : Iceberg -> Prop) frames w w' :
  generatorEstablishes P ->
  Simple.play frames w = Some w' ->
  Forall P (Simple.icebergs w) -> Forall P (Simple.icebergs w').
Proof.
  intros HP Hplay H0. unfold Simple.play in Hplay.
  apply (forEach_preserves _ (fun w => Forall P (Simple.icebergs w)) _ _ _)
    in Hplay; [exact Hplay | | exact H0].
  intros [currentTime keys] w1 w2 Hstep H1.
  apply Simple_gameLoop_icebergs in Hstep
    as [-> | (canvas & camera & loaded & f' & Hf & ->)]; [exact H1|].
  eapply (ensure_Forall _ _ P); [exact HP | exact Hf | exact H1].
Qed.

Lemma Extended_play_Forall (P : Iceberg -> Prop) frames w w' :
  generatorEstablishes P ->
  Extended.play frames w = Some w' ->
  Forall P (Extended.icebergs w) -> Forall P (Extended.icebergs w').
Proof.
  intros HP Hplay H0. unfold Extended.play in Hplay.
  apply (forEach_preserves _ (fun w => Forall P (Extended.icebergs w)) _ _ _)
    in Hplay; [exact Hplay | | exact H0].
  intros [[currentTime now] keys] w1 w2 Hstep H1.
  apply Extended_gameLoop_icebergs in Hstep
    as [-> | (canvas & camera & loaded & f' & Hf & ->)]; [exact H1|].
  eapply (ensure_Forall _ _ P); [exact HP | exact Hf | exact H1].
Qed.

Lemma generator_wellSized : generatorEstablishes wellSized.
Proof. intros x y s n k _ Hs. exact Hs. Qed.

Lemma generator_outside_origin : generatorEstablishes (outsideSafeZone 0 0).
Proof.
  intros x y s n k Hd _. unfold outsideSafeZone, euclid. simpl.
  rewrite !Rminus_0_r. exact Hd.
Qed.

(** ** EncounterDetector *)

Lemma sum_of_squares_nonneg (a b : R) : 0 <= a * a + b * b.
Proof. nra. Qed.

Lemma sqrt_below (d c : R) : 0 <= d -> Math.sqrt d < c -> d < c * c.
Proof.
  intros Hd Hlt. unfold Math.sqrt in *.
  pose proof (sqrt_pos d) as Hpos. pose proof (sqrt_sqrt d Hd) as Hsq. nra.
Qed.

(** For an iceberg no larger than [maxSize], the coarse distance filter
    never hides a collision: the loop body reports a hit exactly when the
    exact distance is below the sum of the radii. *)
Lemma hitsIceberg_iff camera iceberg :
  size iceberg <= icebergsConfig.maxSize ->
  hitsIceberg camera iceberg = true <->
  distanceTo camera iceberg < shipRadius + size iceberg.
Proof.
  intros Hsize. unfold hitsIceberg, distanceTo, euclid.
  set (d := (cam_x camera - ice_x iceberg) * (cam_x camera - ice_x iceberg)
            + (cam_y camera - ice_y iceberg) * (cam_y camera - ice_y iceberg)).
  assert (Hd : 0 <= d) by apply sum_of_squares_nonneg.
  case_decide as Hfar.
  - split; [discriminate|]. intros Hhit. exfalso.
    pose proof (sqrt_below _ _ Hd Hhit) as Hsq.
    pose proof (sqrt_pos d) as Hpos. unfold Math.sqrt in Hhit.
    unfold maxCheckDistance, shipRadius, ship_length, ship_width,
      icebergsConfig.maxSize in *.
    clearbody d. set (r := sqrt d) in *. clearbody r.
    assert (Hc : 0 < 60 / 2 + size iceberg <= 110) by lra.
    assert ((60 / 2 + size iceberg) * (60 / 2 + size iceberg) <= 110 * 110)
      by nra.
    lra.
  - apply bool_decide_eq_true.
Qed.

Lemma collisionLoop_iff camera ices :
  collisionLoop camera ices = true <->
  exists iceberg, iceberg ∈ ices /\ hitsIceberg camera iceberg = true.
Proof.
  induction ices as [|b ices IH]; simpl.
  - split; [discriminate|]. intros (b & Hb & _). inversion Hb.
  - destruct (hitsIceberg camera b) eqn:Hhit.
    + split; [|reflexivity]. intros _. exists b. split; [left|exact Hhit].
    + rewrite IH. split.
      * intros (c & Hc & Hhc). exists c. split; [right; exact Hc|exact Hhc].
      * intros (c & Hc & Hhc). apply elem_of_cons in Hc as [->|Hc].
        -- congruence.
        -- exists c. auto.
Qed.

Lemma collisionLoop_exact camera ices :
  Forall wellSized ices ->
  collisionLoop camera ices = true <->
  exists iceberg,
    iceberg ∈ ices /\ distanceTo camera iceberg < shipRadius + size iceberg.
Proof.
  intros Hsizes. rewrite collisionLoop_iff. rewrite Forall_forall in Hsizes.
  split; intros (b & Hb & H); exists b; (split; [exact Hb|]);
    apply hitsIceberg_iff; auto; apply Hsizes, Hb.
Qed.

Lemma Simple_checkCollisions_gameOver w :
  Simple.gameOver w = false ->
  Simple.gameOver (Simple.checkCollisions w)
  = collisionLoop (Simple.camera w) (Simple.icebergs w).
Proof.
  intros Hrun. unfold Simple.checkCollisions. rewrite Hrun.
  destruct (collisionLoop _ _); [reflexivity | exact Hrun].
Qed.

Lemma Extended_checkCollisions_gameOver w :
  Extended.gameOver w = false -> Extended.gameWon w = false ->
  Extended.gameOver (Extended.checkCollisions w)
  = collisionLoop (Extended.camera w) (Extended.icebergs w).
Proof.
  intros Hrun Hwon. unfold Extended.checkCollisions. rewrite Hrun, Hwon. simpl.
  destruct (collisionLoop _ _); [reflexivity | exact Hrun].
Qed.


(** ** The safe zone *)

Lemma sqrt_above (d c : R) : 0 <= c -> c * c <= d -> c <= Math.sqrt d.
Proof.
  intros Hc Hd. unfold Math.sqrt.
  rewrite <- (sqrt_square c Hc). apply sqrt_le_1_alt. exact Hd.
Qed.

Lemma sqrt_under (d c : R) : 0 <= d -> 0 < c -> d < c * c -> Math.sqrt d < c.
Proof.
  intros Hd Hc Hlt. unfold Math.sqrt.
  rewrite <- (sqrt_square c) by lra. apply sqrt_lt_1_alt. lra.
Qed.

(** The sample of a number known to lie in a unit interval. *)
Lemma fracHash_between (h : R) (z : Z) (lo hi : R) :
  0 <= lo -> hi < 1 -> IZR z + lo <= h <= IZR z + hi ->
  lo <= WorldGenerator.fracHash h <= hi.
Proof.
  intros Hlo Hhi Hh. unfold WorldGenerator.fracHash, Math.abs.
  rewrite (floor_eq h z) by lra. rewrite Rabs_right by lra. lra.
Qed.

Lemma sin_02_bounds : 0.19866933 <= Math.sin (IZR 2 * 0.1) <= 0.19866934.
Proof.
  unfold Math.sin.
  pose proof (pre_sin_bound (IZR 2 * 0.1) 1 ltac:(lra) ltac:(lra)) as [Hlo _].
  pose proof (pre_sin_bound (IZR 2 * 0.1) 0 ltac:(lra) ltac:(lra)) as [_ Hhi].
  unfold sin_approx, sin_term in *. simpl in Hlo, Hhi. lra.
Qed.

Lemma cos_02_bounds : 0.98006657 <= Math.cos (IZR 2 * 0.1) <= 0.98006667.
Proof.
  unfold Math.cos.
  pose proof (pre_cos_bound (IZR 2 * 0.1) 1 ltac:(lra) ltac:(lra)) as [Hlo _].
  pose proof (pre_cos_bound (IZR 2 * 0.1) 0 ltac:(lra) ltac:(lra)) as [_ Hhi].
  unfold cos_approx, cos_term in *. simpl in Hlo, Hhi. lra.
Qed.

(** The candidate of index 2 in chunk (0, 0) is accepted, near
    (346.7, 333). *)
Lemma candidate_0_0_2 :
  exists iceberg,
    WorldGenerator.candidateStep 0 0 [] 2 = [iceberg] /\
    346 <= ice_x iceberg <= 347 /\ 332 <= ice_y iceberg <= 334 /\
    wellSized iceberg /\ seed iceberg = 2%Z.
Proof.
  unfold WorldGenerator.candidateStep.
  change (0 * 1000 + 0 + 2)%Z with 2%Z.
  pose proof sin_02_bounds as Hsin. pose proof cos_02_bounds as Hcos.
  pose proof (fracHash_between (Math.sin (IZR 2 * 0.1) * 10000) 1986 0.693 0.694
                ltac:(lra) ltac:(lra) ltac:(lra)) as Hx.
  pose proof (fracHash_between (Math.cos (IZR 2 * 0.1) * 10000) 9800 0.665 0.667
                ltac:(lra) ltac:(lra) ltac:(lra)) as Hy.
  set (fx := WorldGenerator.fracHash (Math.sin (IZR 2 * 0.1) * 10000)) in *.
  set (fy := WorldGenerator.fracHash (Math.cos (IZR 2 * 0.1) * 10000)) in *.
  clearbody fx fy. unfold icebergGridSize.
  rewrite decide_False.
  - eexists. split; [reflexivity|]. simpl.
    repeat split; try lra; cbn [size];
      match goal with |- context [WorldGenerator.fracHash ?h] =>
        pose proof (fracHash_range h) end;
      unfold icebergsConfig.minSize, icebergsConfig.maxSize; nra.
  - intros Hnear. apply Rlt_not_le in Hnear. apply Hnear.
    apply sqrt_above; [unfold WorldGenerator.startSafeRadius; lra|].
    unfold WorldGenerator.startSafeRadius. nra.
Qed.

Lemma expectedCount_800_600 :
  WorldGenerator.expectedCount (mkCanvas 800 600) = Some 5%Z.
Proof.
  unfold WorldGenerator.expectedCount. cbn [width height].
  change (800 * 600)%Z with 480000%Z.
  rewrite decide_False by lia. f_equal.
  apply floor_eq. unfold icebergGridSize, icebergsConfig.density. lra.
Qed.

(** What the iteration for an index of the loop appends is in the list
    after the loop. *)
Lemma candidateLoop_elem chunkX chunkY ices indices i iceberg :
  i ∈ indices ->
  iceberg ∈ WorldGenerator.candidateStep chunkX chunkY [] i ->
  iceberg ∈ foldl (WorldGenerator.candidateStep chunkX chunkY) ices indices.
Proof.
  revert ices. induction indices as [|j indices IH]; intros ices Hi Hb.
  - inversion Hi.
  - simpl. apply elem_of_cons in Hi as [<-|Hi].
    + rewrite candidateLoop_app, candidateStep_app.
      apply elem_of_app. left. apply elem_of_app. right. exact Hb.
    + apply IH; assumption.
Qed.

Lemma generateChunkBody_elem canvas chunkX chunkY n ices ices' i iceberg :
  WorldGenerator.expectedCount canvas = Some n ->
  (0 <= i < n)%Z ->
  iceberg ∈ WorldGenerator.candidateStep chunkX chunkY [] i ->
  WorldGenerator.generateChunkBody canvas chunkX chunkY ices = Some ices' ->
  iceberg ∈ ices'.
Proof.
  intros Hn Hi Hb. unfold WorldGenerator.generateChunkBody. rewrite Hn.
  intros [= <-]. apply (candidateLoop_elem _ _ _ _ i); [|exact Hb].
  apply elem_of_seqZ. lia.
Qed.

(** The iceberg that every generation of chunk (0, 0) on an 800 x 600
    canvas appends. *)
Lemma chunk_0_0_iceberg :
  exists iceberg,
    346 <= ice_x iceberg <= 347 /\ 332 <= ice_y iceberg <= 334 /\
    wellSized iceberg /\
    forall ices ices',
      WorldGenerator.generateChunkBody (mkCanvas 800 600) 0 0 ices = Some ices' ->
      iceberg ∈ ices'.
Proof.
  destruct candidate_0_0_2 as (b & Hstep & Hx & Hy & Hsize & _).
  exists b. split; [exact Hx|]. split; [exact Hy|]. split; [exact Hsize|].
  intros ices ices'.
  apply (generateChunkBody_elem _ 0 0 5 ices ices' 2);
    [exact expectedCount_800_600 | lia | rewrite Hstep; left].
Qed.

(** Once a chunk is loaded, what its generation appends stays in the
    iceberg list through every later generation. *)
Lemma generate_chunk_content canvas key iceberg chunkX chunkY f f' :
  (forall ices ices',
     WorldGenerator.generateChunkBody canvas (fst key) (snd key) ices = Some ices' ->
     iceberg ∈ ices') ->
  WorldGenerator.generateIcebergsForChunk canvas chunkX chunkY f = Some f' ->
  (key ∈ WorldGenerator.f_loaded f -> iceberg ∈ WorldGenerator.f_icebergs f) ->
  (key ∈ WorldGenerator.f_loaded f' -> iceberg ∈ WorldGenerator.f_icebergs f').
Proof.
  intros Hbody Hgen Hinv Hkey.
  unfold WorldGenerator.generateIcebergsForChunk in Hgen.
  case_decide as Hloaded.
  - injection Hgen as <-. auto.
  - destruct (WorldGenerator.generateChunkBody canvas chunkX chunkY _)
      as [ices'|] eqn:Hb; simpl in Hgen; [|discriminate].
    injection Hgen as <-. simpl in *.
    apply elem_of_union in Hkey as [Hkey|Hkey].
    + apply elem_of_singleton in Hkey. subst key. simpl in Hbody.
      eapply Hbody. exact Hb.
    + rewrite generateChunkBody_app in Hb.
      destruct (WorldGenerator.generateChunkBody canvas chunkX chunkY [])
        as [fresh|]; simpl in Hb; [|discriminate].
      injection Hb as <-. apply elem_of_app. left. auto.
Qed.

Lemma ensure_chunk_content canvas camera key iceberg f f' :
  (forall ices ices',
     WorldGenerator.generateChunkBody canvas (fst key) (snd key) ices = Some ices' ->
     iceberg ∈ ices') ->
  WorldGenerator.ensureIcebergsGenerated canvas camera f = Some f' ->
  key ∉ WorldGenerator.f_loaded f ->
  visited canvas camera key ->
  iceberg ∈ WorldGenerator.f_icebergs f'.
Proof.
  intros Hbody Hens Hnew Hvisited.
  pose proof (ensure_loaded _ _ _ _ Hens key Hvisited) as Hloaded.
  set (I := fun g : WorldGenerator.Field =>
              key ∈ WorldGenerator.f_loaded g ->
              iceberg ∈ WorldGenerator.f_icebergs g).
  assert (Hinv : I f') ; [|exact (Hinv Hloaded)].
  rewrite ensure_unfold in Hens.
  eapply (forEach_preserves _ I); [| |exact Hens].
  - intros chunkX g g' Hin Hg.
    eapply (forEach_preserves _ I); [|exact Hg|exact Hin].
    intros chunkY h h' Hgen Hh.
    unfold I in *. eapply generate_chunk_content; eassumption.
  - intros Hin. contradiction.
Qed.

(** Where the camera is after a tick: the pivot correction and the move. *)
Lemma Extended_updateShip_camera deltaTime keys w :
  let w' := Extended.updateShip deltaTime keys w in
  let pivotOffset := (shipConfig.pivotPoint - 0.5) * ship_length in
  cam_x (Extended.camera w')
  = cam_x (Extended.camera w)
    + (cam_x (Extended.camera w)
         + Math.cos (rotation (Extended.ship w)) * pivotOffset
       - (cam_x (Extended.camera w)
            + Math.cos (rotation (Extended.ship w')) * pivotOffset))
    + Math.cos (rotation (Extended.ship w')) * speed (Extended.ship w') /\
  cam_y (Extended.camera w')
  = cam_y (Extended.camera w)
    + (cam_y (Extended.camera w)
         + Math.sin (rotation (Extended.ship w)) * pivotOffset
       - (cam_y (Extended.camera w)
            + Math.sin (rotation (Extended.ship w')) * pivotOffset))
    + Math.sin (rotation (Extended.ship w')) * speed (Extended.ship w').
Proof. split; reflexivity. Qed.

(** A tick moves the camera by at most twice the pivot offset plus the
    top speed, along each axis. *)
Lemma Extended_updateShip_camera_near deltaTime keys w :
  speedInRange (speed (Extended.ship w)) ->
  let w' := Extended.updateShip deltaTime keys w in
  -83.5 <= cam_x (Extended.camera w') - cam_x (Extended.camera w) <= 83.5 /\
  -83.5 <= cam_y (Extended.camera w') - cam_y (Extended.camera w) <= 83.5.
Proof.
  intros Hin w'.
  pose proof (Extended_updateShip_speed deltaTime keys w Hin) as Hv.
  destruct (Extended_updateShip_camera deltaTime keys w) as [Hx Hy].
  fold w' in Hv, Hx, Hy. rewrite Hx, Hy.
  unfold speedInRange in Hv. unfold_config. unfold ship_length, Math.cos, Math.sin.
  pose proof (COS_bound (rotation (Extended.ship w))).
  pose proof (COS_bound (rotation (Extended.ship w'))).
  pose proof (SIN_bound (rotation (Extended.ship w))).
  pose proof (SIN_bound (rotation (Extended.ship w'))).
  set (v := speed (Extended.ship w')) in *.
  set (c := cos (rotation (Extended.ship w))) in *.
  set (c' := cos (rotation (Extended.ship w'))) in *.
  set (s := sin (rotation (Extended.ship w))) in *.
  set (s' := sin (rotation (Extended.ship w'))) in *.
  clearbody v c c' s s'.
  repeat split; nra.
Qed.

Lemma floor_nonpos (v : R) : v < 1 -> (Math.floor v <= 0)%Z.
Proof.
  intros Hv. destruct (floor_spec v) as [Hlo _].
  assert (H : IZR (Math.floor v) < IZR 1) by lra. apply lt_IZR in H. lia.
Qed.

Lemma ceil_nonneg (v : R) : -1 < v -> (0 <= Math.ceil v)%Z.
Proof.
  intros Hv. unfold Math.ceil.
  assert (H : (Math.floor (- v) <= 0)%Z) by (apply floor_nonpos; lra).
  unfold Math.floor in H. lia.
Qed.

(** Chunk (0, 0) is visited when the viewport reaches into it. *)
Lemma visited_0_0 canvas camera :
  cam_x camera - IZR (width canvas) / 2 < 500 ->
  -500 < cam_x camera + IZR (width canvas) / 2 ->
  cam_y camera - IZR (height canvas) / 2 < 500 ->
  -500 < cam_y camera + IZR (height canvas) / 2 ->
  visited canvas camera (0%Z, 0%Z).
Proof.
  intros H1 H2 H3 H4.
  unfold visited, WorldGenerator.chunkRangeX, WorldGenerator.chunkRangeY.
  cbn [fst snd]. unfold icebergGridSize.
  repeat split; first [apply floor_nonpos | apply ceil_nonneg]; lra.
Qed.

(** A frame of a running session of the extended variant. *)
Lemma Extended_gameLoop_running currentTime now keys w :
  Extended.gameRunning w = true ->
  Extended.gameOver w = false ->
  Extended.gameWon w = false ->
  Extended.gameLoop currentTime now keys w
  = (w2 ← Extended.ensureIcebergsGenerated
             (Extended.updateShip
                (Math.min ((currentTime - Extended.lastTime w) / 16.67) 2) keys
                (Extended.set_animationTime (Extended.animationTime w + 0.5)
                   (Extended.set_lastTime currentTime w)));
     Some (Extended.drawGameOver
             (Extended.drawShip
                (Extended.checkGoalReached now (Extended.checkCollisions w2))))).
Proof.
  intros Hrun Hover Hwon. unfold Extended.gameLoop. rewrite Hrun.
  cbn [negb andb].
  change (Extended.gameOver
            (Extended.set_animationTime
               (Extended.animationTime (Extended.set_lastTime currentTime w) + 0.5)
               (Extended.set_lastTime currentTime w)))
    with (Extended.gameOver w).
  change (Extended.gameWon
            (Extended.set_animationTime
               (Extended.animationTime (Extended.set_lastTime currentTime w) + 0.5)
               (Extended.set_lastTime currentTime w)))
    with (Extended.gameWon w).
  rewrite Hover, Hwon. cbn [negb andb].
  destruct (Extended.ensureIcebergsGenerated _); reflexivity.
Qed.

(** The same for the simple variant. *)
Lemma Simple_gameLoop_running currentTime keys w :
  Simple.gameOver w = false ->
  Simple.gameRunning w = true ->
  Simple.gameLoop currentTime keys w
  = (w2 ← Simple.ensureIcebergsGenerated
             (Simple.updateShip
                (Math.min ((currentTime - Simple.lastTime w) / 16.67) 2) keys
                (Simple.set_animationTime (Simple.animationTime w + 0.5)
                   (Simple.set_lastTime currentTime w)));
     Some (Simple.drawGameOver (Simple.drawShip (Simple.checkCollisions w2)))).
Proof.
  intros Hover Hrun. unfold Simple.gameLoop. rewrite Hrun.
  cbn [negb andb].
  change (Simple.gameOver
            (Simple.set_animationTime
               (Simple.animationTime (Simple.set_lastTime currentTime w) + 0.5)
               (Simple.set_lastTime currentTime w)))
    with (Simple.gameOver w).
  rewrite Hover. cbn [negb].
  destruct (Simple.ensureIcebergsGenerated _); reflexivity.
Qed.

(** ** The safe zone in reachable worlds *)

(** In the simple variant every iceberg of a world reached from the
    initial world is at least [startSafeRadius] from the origin, where
    the ship starts. *)
Lemma Simple_icebergs_outside_safe_zone canvas now frames w :
  Simple.play frames (Simple.initialWorld canvas now) = Some w ->
  Forall (outsideSafeZone 0 0) (Simple.icebergs w).
Proof.
  intros Hplay.
  eapply Simple_play_Forall;
    [exact generator_outside_origin | exact Hplay | apply Forall_nil; exact I].
Qed.

(** In the extended variant the safe zone is measured from the origin
    too, not from the start port. *)
Lemma Extended_icebergs_outside_origin canvas now draws w0 draws' frames w :
  Extended.initialWorld canvas now draws = Some (w0, draws') ->
  Extended.play frames w0 = Some w ->
  Forall (outsideSafeZone 0 0) (Extended.icebergs w).
Proof.
  intros Hinit Hplay.
  eapply Extended_play_Forall; [exact generator_outside_origin | exact Hplay |].
  apply Extended_initialWorld_ship in Hinit as (_ & _ & -> & _).
  apply Forall_nil; exact I.
Qed.



(** ** Start port and goal *)

(** The edge [generateGoal] draws differs from the edge it read back from
    the start port's position. *)
Lemma chooseGoalEdge_differs startPortEdge draws edge rest :
  chooseGoalEdge startPortEdge true draws = Some (edge, rest) ->
  edge <> startPortEdge.
Proof.
  revert edge rest. induction draws as [|r draws IH]; intros edge rest; simpl.
  - discriminate.
  - case_bool_decide as Hsame; simpl.
    + apply IH.
    + intros [= <- <-]. exact Hsame.
Qed.

(** A start port placed on the right edge within 10 units of the top
    corner is read back as being on the top edge. *)
Lemma detectStartPortEdge_corner (y : R) :
  y <= goalConfig.edgeOffset + 10 ->
  detectStartPortEdge
    (mkPort (worldConfig.width - goalConfig.edgeOffset) y true) = 0%Z.
Proof.
  intros Hy. unfold detectStartPortEdge. cbn [generated port_y].
  rewrite decide_True by exact Hy. reflexivity.
Qed.

(** C9 (the code at a failing input).  With the draws 0.25, 1/1024, 0.5,
    0.5, 0.25, 0.5 the start port is placed on the right edge, 9.18 units
    below the top corner; [generateGoal] reads its edge back as the top
    edge, accepts the draw of the right edge for the goal, and start port
    and goal are both on the right edge and on no other. *)
Theorem C9_goal_placed_on_start_port_edge :
  exists w0,
    Extended.initialWorld (mkCanvas 800 600) 0
      [0.25; 1 / 1024; 0.5; 0.5; 0.25; 0.5] = Some (w0, []) /\
    generated (Extended.startPort w0) = true /\
    generated (Extended.goal w0) = true /\
    onEdge 1 (Extended.startPort w0) /\
    onEdge 1 (Extended.goal w0) /\
    (forall edge, onEdge edge (Extended.startPort w0) -> edge = 1%Z) /\
    (forall edge, onEdge edge (Extended.goal w0) -> edge = 1%Z).
Proof.
  eexists. split.
  - unfold Extended.initialWorld, Extended.generateStartPort.
    rewrite (floor_eq (0.25 * 4) 1) by (simpl; lra).
    cbn [placeOnEdge mbind option_bind Extended.startPort Extended.declaredWorld
         generated port_x port_y Extended.set_startPort Extended.set_camera].
    unfold Extended.generateGoal.
    cbn [Extended.startPort Extended.set_camera Extended.set_startPort].
    rewrite detectStartPortEdge_corner
      by (unfold goalConfig.edgeOffset, worldConfig.height; lra).
    cbn [generated chooseGoalEdge].
    rewrite (floor_eq (0.25 * 4) 1) by (simpl; lra).
    rewrite bool_decide_eq_false_2 by lia.
    cbn [andb mbind option_bind placeOnEdge]. reflexivity.
  - cbn [Extended.startPort Extended.goal Extended.set_gameStartTime
         Extended.set_goal Extended.set_camera Extended.set_startPort
         generated port_x port_y].
    unfold onEdge, goalConfig.edgeOffset, worldConfig.width, worldConfig.height.
    cbn [port_x port_y].
    repeat split; try lra;
      intros [|[[p|p|]|[p|p|]|]|p] H; cbv beta iota zeta in H;
      try reflexivity; try contradiction;
      destruct H as [H1 [H2 H3]]; exfalso; lra.
Qed.

(** ** Whole frames: speed and coal *)

Lemma Simple_frame_tail_speed w :
  speed (Simple.ship (Simple.drawGameOver
                        (Simple.drawShip (Simple.checkCollisions w))))
  = speed (Simple.ship w).
Proof.
  unfold Simple.drawGameOver, Simple.drawShip, Simple.checkCollisions.
  destruct (Simple.gameOver w); [|destruct (collisionLoop _ _)];
    destruct (negb _); reflexivity.
Qed.

Lemma Extended_frame_tail_physics now w :
  let w' := Extended.drawGameOver
              (Extended.drawShip
                 (Extended.checkGoalReached now (Extended.checkCollisions w))) in
  speed (Extended.ship w') = speed (Extended.ship w) /\
  Extended.currentCoal w' = Extended.currentCoal w.
Proof.
  unfold Extended.drawGameOver, Extended.drawShip, Extended.checkGoalReached,
    Extended.checkCollisions.
  destruct (Extended.gameOver w || Extended.gameWon w);
    [|destruct (collisionLoop _ _)];
    (destruct (_ || _); [|case_decide]); destruct (negb _); auto.
Qed.

(** The speed a frame of the simple variant leaves is the speed it found
    or the speed one [updateShip] leaves. *)
Lemma Simple_gameLoop_speed currentTime keys w w' :
  Simple.gameLoop currentTime keys w = Some w' ->
  speedInRange (speed (Simple.ship w)) ->
  speedInRange (speed (Simple.ship w')).
Proof.
  unfold Simple.gameLoop.
  destruct (negb (Simple.gameRunning w) && negb (Simple.gameOver w)).
  { intros [= <-]. auto. }
  cbv zeta.
  set (w1 := Simple.set_animationTime _ _).
  set (deltaTime := Math.min _ _).
  destruct (negb (Simple.gameOver w1)).
  - destruct (Simple.ensureIcebergsGenerated _) as [w2|] eqn:Hens;
      [|discriminate].
    intros [= <-] Hin.
    apply Simple_ensure_inv in Hens as (f' & _ & ->).
    rewrite Simple_frame_tail_speed.
    change (Simple.ship (Simple.set_field f' (Simple.updateShip deltaTime keys w1)))
      with (Simple.ship (Simple.updateShip deltaTime keys w1)).
    apply Simple_updateShip_speed. exact Hin.
  - intros [= <-] Hin. unfold Simple.drawGameOver, Simple.drawShip.
    destruct (negb _); exact Hin.
Qed.

(** A frame of the extended variant keeps the speed within its limits and
    the coal between 0 and the level it found. *)
Lemma Extended_gameLoop_physics currentTime now keys w w' :
  Extended.gameLoop currentTime now keys w = Some w' ->
  speedInRange (speed (Extended.ship w)) ->
  0 <= Extended.currentCoal w <= coalConfig.maxCoal ->
  speedInRange (speed (Extended.ship w')) /\
  0 <= Extended.currentCoal w' <= Extended.currentCoal w.
Proof.
  unfold Extended.gameLoop.
  destruct (negb (Extended.gameRunning w) && negb (Extended.gameOver w)
            && negb (Extended.gameWon w)).
  { intros [= <-]. split; [assumption|lra]. }
  cbv zeta.
  set (w1 := Extended.set_animationTime _ _).
  set (deltaTime := Math.min _ _).
  destruct (negb (Extended.gameOver w1) && negb (Extended.gameWon w1)).
  - destruct (Extended.ensureIcebergsGenerated _) as [w2|] eqn:Hens;
      [|discriminate].
    intros [= <-] Hin Hcoal.
    apply Extended_ensure_inv in Hens as (f' & _ & ->).
    destruct (Extended_frame_tail_physics now
                (Extended.set_field f' (Extended.updateShip deltaTime keys w1)))
      as [-> ->].
    change (Extended.ship
              (Extended.set_field f' (Extended.updateShip deltaTime keys w1)))
      with (Extended.ship (Extended.updateShip deltaTime keys w1)).
    change (Extended.currentCoal
              (Extended.set_field f' (Extended.updateShip deltaTime keys w1)))
      with (Extended.currentCoal (Extended.updateShip deltaTime keys w1)).
    split.
    + apply Extended_updateShip_speed. exact Hin.
    + apply (Extended_updateShip_coal_range deltaTime keys w1). exact Hcoal.
  - intros [= <-] Hin Hcoal. unfold Extended.drawGameOver, Extended.drawShip.
    destruct (negb _); (split; [exact Hin|]);
      match goal with |- 0 <= ?c <= _ =>
        change c with (Extended.currentCoal w) end; lra.
Qed.

(** Over whole games: any sequence of frames keeps the speed within its
    limits, in both variants, and never raises the coal. *)
Lemma Simple_play_speed frames w w' :
  Simple.play frames w = Some w' ->
  speedInRange (speed (Simple.ship w)) ->
  speedInRange (speed (Simple.ship w')).
Proof.
  intros Hplay Hin. unfold Simple.play in Hplay.
  eapply (forEach_preserves _ (fun w => speedInRange (speed (Simple.ship w))));
    [|exact Hin|exact Hplay].
  intros [currentTime keys] w1 w2 Hstep. eapply Simple_gameLoop_speed, Hstep.
Qed.

Lemma Extended_play_physics frames w w' :
  Extended.play frames w = Some w' ->
  speedInRange (speed (Extended.ship w)) ->
  0 <= Extended.currentCoal w <= coalConfig.maxCoal ->
  speedInRange (speed (Extended.ship w')) /\
  0 <= Extended.currentCoal w' <= Extended.currentCoal w.
Proof.
  intros Hplay Hin Hcoal. unfold Extended.play in Hplay.
  eapply (forEach_preserves _
            (fun w1 => speedInRange (speed (Extended.ship w1)) /\
                       0 <= Extended.currentCoal w1 <= Extended.currentCoal w));
    [| split; [exact Hin | lra] | exact Hplay].
  intros [[currentTime now] keys] w1 w2 Hstep [Hin1 Hcoal1].
  destruct (Extended_gameLoop_physics _ _ _ _ _ Hstep Hin1) as [Hin2 Hcoal2];
    [lra|].
  split; [exact Hin2 | lra].
Qed.

(** ** Whole frames: collisions *)

(** A frame of a running session of the simple variant ends in GameOver
    exactly when, after the move and the generation of that frame, some
    iceberg is within the sum of the radii of the ship's position. *)
Lemma Simple_gameLoop_collision currentTime keys w w' :
  Simple.gameRunning w = true ->
  Simple.gameOver w = false ->
  Forall wellSized (Simple.icebergs w) ->
  Simple.gameLoop currentTime keys w = Some w' ->
  (Simple.gameOver w' = true <->
   exists iceberg,
     iceberg ∈ Simple.icebergs w' /\
     distanceTo (Simple.camera w') iceberg < shipRadius + size iceberg).
Proof.
  intros Hrun Hover Hsizes.
  rewrite (Simple_gameLoop_running _ _ _ Hover Hrun).
  set (w1 := Simple.set_animationTime _ _).
  set (deltaTime := Math.min _ _).
  set (wu := Simple.updateShip deltaTime keys w1).
  destruct (Simple.ensureIcebergsGenerated wu) as [w2|] eqn:Hens;
    [|discriminate].
  intros [= <-].
  destruct (Simple_draw_frame (Simple.checkCollisions w2)) as (-> & -> & ->).
  destruct (Simple_checkCollisions_frame w2) as (-> & -> & _).
  apply Simple_ensure_inv in Hens as (f' & Hf & ->).
  destruct (Simple_updateShip_icebergs deltaTime keys w1)
    as (Hi & _ & _ & Hg). fold wu in Hi, Hg.
  rewrite Simple_checkCollisions_gameOver
    by (change (Simple.gameOver (Simple.set_field f' wu))
          with (Simple.gameOver wu); rewrite Hg; exact Hover).
  apply collisionLoop_exact.
  change (Simple.icebergs (Simple.set_field f' wu))
    with (WorldGenerator.f_icebergs f').
  eapply (ensure_Forall _ _ wellSized);
    [exact generator_wellSized | exact Hf |].
  unfold Simple.field. cbn [WorldGenerator.f_icebergs]. rewrite Hi.
  exact Hsizes.
Qed.

(** The same for the extended variant. *)
Lemma Extended_gameLoop_collision currentTime now keys w w' :
  Extended.gameRunning w = true ->
  Extended.gameOver w = false ->
  Extended.gameWon w = false ->
  Forall wellSized (Extended.icebergs w) ->
  Extended.gameLoop currentTime now keys w = Some w' ->
  (Extended.gameOver w' = true <->
   exists iceberg,
     iceberg ∈ Extended.icebergs w' /\
     distanceTo (Extended.camera w') iceberg < shipRadius + size iceberg).
Proof.
  intros Hrun Hover Hwon Hsizes.
  rewrite (Extended_gameLoop_running _ _ _ _ Hrun Hover Hwon).
  set (w1 := Extended.set_animationTime _ _).
  set (deltaTime := Math.min _ _).
  set (wu := Extended.updateShip deltaTime keys w1).
  destruct (Extended.ensureIcebergsGenerated wu) as [w2|] eqn:Hens;
    [|discriminate].
  intros [= <-].
  destruct (Extended_draw_frame
              (Extended.checkGoalReached now (Extended.checkCollisions w2)))
    as (-> & -> & -> & _).
  destruct (Extended_checkGoalReached_frame now (Extended.checkCollisions w2))
    as (-> & -> & _ & -> & _).
  destruct (Extended_checkCollisions_frame w2) as (-> & -> & _).
  apply Extended_ensure_inv in Hens as (f' & Hf & ->).
  destruct (Extended_updateShip_icebergs deltaTime keys w1)
    as (Hi & _ & _ & Hg & Hw). fold wu in Hi, Hg, Hw.
  rewrite Extended_checkCollisions_gameOver.
  - apply collisionLoop_exact.
    change (Extended.icebergs (Extended.set_field f' wu))
      with (WorldGenerator.f_icebergs f').
    eapply (ensure_Forall _ _ wellSized);
      [exact generator_wellSized | exact Hf |].
    unfold Extended.field. cbn [WorldGenerator.f_icebergs]. rewrite Hi.
    exact Hsizes.
  - change (Extended.gameOver (Extended.set_field f' wu))
      with (Extended.gameOver wu). rewrite Hg. exact Hover.
  - change (Extended.gameWon (Extended.set_field f' wu))
      with (Extended.gameWon wu). rewrite Hw. exact Hwon.
Qed.

(** ** A ship at rest with no key held *)

Lemma decayAcceleration_0 : decayAcceleration 0 = 0.
Proof. unfold decayAcceleration. rewrite !decide_False by lra. reflexivity. Qed.

Lemma applyFriction_0 : applyFriction 0 = 0.
Proof. unfold applyFriction. rewrite !decide_False by lra. reflexivity. Qed.

Lemma steerRudder_0 : steerRudder (mkKeys false false false false) 0 = 0.
Proof.
  unfold steerRudder. cbn [ArrowLeft ArrowRight].
  rewrite !decide_False by lra. reflexivity.
Qed.

(** With the ship at rest, no acceleration, the rudder centred and no key
    held, a tick of the extended variant leaves the speed at zero and the
    heading and the camera where they were. *)
Lemma Extended_updateShip_idle deltaTime w :
  speed (Extended.ship w) = 0 ->
  acceleration (Extended.ship w) = 0 ->
  rudderAngle (Extended.ship w) = 0 ->
  let w' := Extended.updateShip deltaTime (mkKeys false false false false) w in
  speed (Extended.ship w') = 0 /\
  rotation (Extended.ship w') = rotation (Extended.ship w) /\
  cam_x (Extended.camera w') = cam_x (Extended.camera w) /\
  cam_y (Extended.camera w') = cam_y (Extended.camera w).
Proof.
  intros Hs Ha Hr w'.
  assert (Hv : speed (Extended.ship w') = 0 /\
               rotation (Extended.ship w') = rotation (Extended.ship w)).
  { unfold w', Extended.updateShip, turnAboutPivot.
    rewrite Hs, Ha, Hr. cbn [ArrowUp ArrowDown].
    rewrite decayAcceleration_0, steerRudder_0.
    assert (Hacc : (if decide (Extended.currentCoal w > 0) then 0 else 0) = 0)
      by (case_decide; reflexivity).
    rewrite Hacc.
    rewrite bool_decide_Rne_false by reflexivity.
    rewrite (bool_decide_eq_true_2 (0 = 0)) by reflexivity.
    cbn [andb orb]. rewrite applyFriction_0.
    cbn [speed rotation Extended.ship Extended.set_ship Extended.set_camera
         Extended.set_totalDistance Extended.set_currentCoal].
    split; [reflexivity|lra]. }
  destruct Hv as [Hv Hrot]. split; [exact Hv|]. split; [exact Hrot|].
  destruct (Extended_updateShip_camera deltaTime
              (mkKeys false false false false) w) as [Hx Hy].
  fold w' in Hx, Hy. rewrite Hx, Hy, Hrot, Hv. split; lra.
Qed.

(** ** Claim C2: the extended variant *)

(** The first frame after the start-up of [Extended_initialWorld_example]:
    whatever keys are held, it returns, and the iceberg list it leaves
    contains an iceberg of chunk (0, 0) near (346.7, 333); with no key held
    the camera stays on the start port. *)
Lemma Extended_first_frame_example :
  exists w0,
    Extended.initialWorld (mkCanvas 800 600) 0 [0; 0; 0.5; 0.5; 0.25; 0]
      = Some (w0, []) /\
    Extended.startPort w0 = mkPort (300 + 0 * (10000 - 300 * 2)) 300 true /\
    Extended.camera w0
      = mkCamera (300 + 0 * (10000 - 300 * 2) + (0.5 - 0.5) * (250 + 50) * 0.5)
                 (300 + (0.5 - 0.5) * (250 + 50) * 0.5) /\
    Extended.gameRunning w0 = true /\
    Extended.gameOver w0 = false /\
    Extended.gameWon w0 = false /\
    Extended.icebergs w0 = [] /\
    forall currentTime now keys,
      exists w1 iceberg,
        Extended.gameLoop currentTime now keys w0 = Some w1 /\
        Extended.startPort w1 = Extended.startPort w0 /\
        iceberg ∈ Extended.icebergs w1 /\
        346 <= ice_x iceberg <= 347 /\ 332 <= ice_y iceberg <= 334 /\
        wellSized iceberg /\
        (keys = mkKeys false false false false ->
         cam_x (Extended.camera w1) = cam_x (Extended.camera w0) /\
         cam_y (Extended.camera w1) = cam_y (Extended.camera w0)).
Proof.
  destruct Extended_initialWorld_example
    as (w0 & Hinit & Hport & Hcam & Hloaded & Hrun & Hover & Hwon).
  destruct (Extended_initialWorld_ship _ _ _ _ _ Hinit)
    as (Hship & _ & Hices & Hcanvas).
  exists w0. do 7 (split; [assumption|]).
  intros currentTime now keys.
  rewrite (Extended_gameLoop_running _ _ _ _ Hrun Hover Hwon).
  set (w1 := Extended.set_animationTime _ _).
  set (deltaTime := Math.min _ _).
  set (wu := Extended.updateShip deltaTime keys w1).
  assert (Hcv : Extended.canvas wu = mkCanvas 800 600).
  { unfold wu.
    rewrite (proj1 (proj2 (proj2 (Extended_updateShip_icebergs _ _ _)))).
    exact Hcanvas. }
  assert (Harea : (width (Extended.canvas wu) * height (Extended.canvas wu))%Z
                  <> 0%Z).
  { rewrite Hcv. cbn [width height]. lia. }
  destruct (Extended_ensure_total wu Harea) as [w2 Hens]. rewrite Hens.
  destruct chunk_0_0_iceberg as (b & Hbx & Hby & Hbsize & Hbody).
  eexists. exists b. split; [reflexivity|].
  apply Extended_ensure_inv in Hens as (f' & Hf & ->).
  destruct (Extended_draw_frame
              (Extended.checkGoalReached now
                 (Extended.checkCollisions (Extended.set_field f' wu))))
    as (-> & -> & _ & ->).
  destruct (Extended_checkGoalReached_frame now
              (Extended.checkCollisions (Extended.set_field f' wu)))
    as (-> & -> & _ & _ & ->).
  destruct (Extended_checkCollisions_frame (Extended.set_field f' wu))
    as (-> & -> & _ & _ & ->).
  change (Extended.startPort (Extended.set_field f' wu))
    with (Extended.startPort wu).
  change (Extended.camera (Extended.set_field f' wu))
    with (Extended.camera wu).
  change (Extended.icebergs (Extended.set_field f' wu))
    with (WorldGenerator.f_icebergs f').
  assert (Hin : speedInRange (speed (Extended.ship w1))).
  { change (Extended.ship w1) with (Extended.ship w0). rewrite Hship.
    apply speedInRange_0. }
  split; [|split; [|split; [|split; [|split]]]]; try assumption.
  - unfold wu. rewrite Extended_updateShip_startPort. reflexivity.
  - rewrite Hcv in Hf.
    apply (ensure_chunk_content _ _ (0%Z, 0%Z) b _ _ Hbody Hf).
    + unfold Extended.field. cbn [WorldGenerator.f_loaded]. unfold wu.
      rewrite (proj1 (proj2 (Extended_updateShip_icebergs _ _ _))).
      change (Extended.loadedIcebergChunks w1)
        with (Extended.loadedIcebergChunks w0).
      rewrite Hloaded. apply not_elem_of_empty.
    + destruct (Extended_updateShip_camera_near deltaTime keys w1 Hin)
        as [Hx Hy].
      fold wu in Hx, Hy.
      change (Extended.camera w1) with (Extended.camera w0) in Hx, Hy.
      rewrite Hcam in Hx, Hy. cbn [cam_x cam_y] in Hx, Hy.
      apply visited_0_0; cbn [width height]; lra.
  - intros ->.
    destruct (Extended_updateShip_idle deltaTime w1) as (_ & _ & Hx & Hy).
    + change (Extended.ship w1) with (Extended.ship w0). rewrite Hship.
      reflexivity.
    + change (Extended.ship w1) with (Extended.ship w0). rewrite Hship.
      reflexivity.
    + change (Extended.ship w1) with (Extended.ship w0). rewrite Hship.
      reflexivity.
    + split; [exact Hx | exact Hy].
Qed.

(** C2 (extended variant, the code at a failing input).  With an
    800 x 600 canvas and the draws 0, 0, 0.5, 0.5, 0.25, 0 the start port is
    at (300, 300) and the ship on it; the first frame, whatever keys are
    held, generates chunk (0, 0), and the candidate of index 2 of that chunk
    is appended although it lies within [startSafeRadius] of the start
    port: the generator measured its distance from the world origin.  With
    no key held the ship is within the sum of the radii of that iceberg and
    the first frame ends the game. *)
Theorem C2_extended_iceberg_inside_start_port_safe_zone :
  exists w0,
    Extended.initialWorld (mkCanvas 800 600) 0 [0; 0; 0.5; 0.5; 0.25; 0]
      = Some (w0, []) /\
    port_x (Extended.startPort w0) = 300 /\
    port_y (Extended.startPort w0) = 300 /\
    (forall currentTime now keys,
       exists w1 iceberg,
         Extended.gameLoop currentTime now keys w0 = Some w1 /\
         Extended.startPort w1 = Extended.startPort w0 /\
         iceberg ∈ Extended.icebergs w1 /\
         euclid (ice_x iceberg) (ice_y iceberg)
                (port_x (Extended.startPort w0))
                (port_y (Extended.startPort w0))
           < WorldGenerator.startSafeRadius) /\
    (forall currentTime now,
       exists w1,
         Extended.gameLoop currentTime now (mkKeys false false false false) w0
           = Some w1 /\
         Extended.gameOver w1 = true).
Proof.
  destruct Extended_first_frame_example
    as (w0 & Hinit & Hport & Hcam & Hrun & Hover & Hwon & Hices & Hframe).
  exists w0. split; [exact Hinit|]. rewrite Hport. cbn [port_x port_y].
  split; [lra|]. split; [reflexivity|]. split.
  - intros currentTime now keys.
    destruct (Hframe currentTime now keys)
      as (w1 & b & Hloop & Hsp & Hb & Hbx & Hby & _).
    exists w1, b. split; [exact Hloop|]. split; [rewrite Hsp; exact Hport|].
    split; [exact Hb|].
    unfold WorldGenerator.startSafeRadius, euclid.
    apply sqrt_under; [apply sum_of_squares_nonneg | lra | nra].
  - intros currentTime now.
    destruct (Hframe currentTime now (mkKeys false false false false))
      as (w1 & b & Hloop & _ & Hb & Hbx & Hby & Hbsize & Hcamera).
    destruct (Hcamera eq_refl) as [Hx Hy].
    exists w1. split; [exact Hloop|].
    assert (Hsizes : Forall wellSized (Extended.icebergs w0))
      by (rewrite Hices; apply Forall_nil; exact I).
    apply (Extended_gameLoop_collision _ _ _ _ _ Hrun Hover Hwon Hsizes Hloop).
    exists b. split; [exact Hb|].
    unfold distanceTo, euclid. rewrite Hx, Hy, Hcam. cbn [cam_x cam_y].
    destruct Hbsize as [Hmin _].
    unfold icebergsConfig.minSize in Hmin. unfold shipRadius, ship_width.
    apply sqrt_under; [apply sum_of_squares_nonneg | lra | nra].
Qed.

(** ** Claim C3 *)

(** C3. While the session is Running, [checkCollisions] sets [gameOver]
    if and only if some iceberg of the list is at an exact Euclidean
    distance from the camera point below [shipRadius + size], where
    [shipRadius] is half the ship's width, provided the icebergs have
    sizes the generator produces (between [minSize] and [maxSize]); every
    iceberg of a world reached by playing from the initial world has such a
    size, so the coarse filter never hides a collision.  In particular an
    iceberg of such a size at distance [shipRadius + size - 1] ends the
    game on that check.  The same equivalence holds for a whole frame of
    [gameLoop], with the camera and the icebergs that frame leaves.  Both
    variants. *)
Theorem C3_collision_iff_within_radii :
  (forall w,
     Simple.gameOver w = false ->
     Forall wellSized (Simple.icebergs w) ->
     (Simple.gameOver (Simple.checkCollisions w) = true <->
      exists iceberg,
        iceberg ∈ Simple.icebergs w /\
        distanceTo (Simple.camera w) iceberg < ship_width / 2 + size iceberg)) /\
  (forall w,
     Extended.gameOver w = false -> Extended.gameWon w = false ->
     Forall wellSized (Extended.icebergs w) ->
     (Extended.gameOver (Extended.checkCollisions w) = true <->
      exists iceberg,
        iceberg ∈ Extended.icebergs w /\
        distanceTo (Extended.camera w) iceberg
          < ship_width / 2 + size iceberg)) /\
  (forall w iceberg,
     Simple.gameOver w = false ->
     iceberg ∈ Simple.icebergs w -> wellSized iceberg ->
     distanceTo (Simple.camera w) iceberg = ship_width / 2 + size iceberg - 1 ->
     Simple.gameOver (Simple.checkCollisions w) = true) /\
  (forall w iceberg,
     Extended.gameOver w = false -> Extended.gameWon w = false ->
     iceberg ∈ Extended.icebergs w -> wellSized iceberg ->
     distanceTo (Extended.camera w) iceberg
       = ship_width / 2 + size iceberg - 1 ->
     Extended.gameOver (Extended.checkCollisions w) = true) /\
  (forall canvas now frames w,
     Simple.play frames (Simple.initialWorld canvas now) = Some w ->
     Forall wellSized (Simple.icebergs w)) /\
  (forall canvas now draws w0 draws' frames w,
     Extended.initialWorld canvas now draws = Some (w0, draws') ->
     Extended.play frames w0 = Some w ->
     Forall wellSized (Extended.icebergs w)) /\
  (forall currentTime keys w w',
     Simple.gameRunning w = true -> Simple.gameOver w = false ->
     Forall wellSized (Simple.icebergs w) ->
     Simple.gameLoop currentTime keys w = Some w' ->
     (Simple.gameOver w' = true <->
      exists iceberg,
        iceberg ∈ Simple.icebergs w' /\
        distanceTo (Simple.camera w') iceberg
          < ship_width / 2 + size iceberg)) /\
  (forall currentTime now keys w w',
     Extended.gameRunning w = true -> Extended.gameOver w = false ->
     Extended.gameWon w = false ->
     Forall wellSized (Extended.icebergs w) ->
     Extended.gameLoop currentTime now keys w = Some w' ->
     (Extended.gameOver w' = true <->
      exists iceberg,
        iceberg ∈ Extended.icebergs w' /\
        distanceTo (Extended.camera w') iceberg
          < ship_width / 2 + size iceberg)).
Proof.
  split; [|split; [|split; [|split; [|split; [|split; [|split]]]]]];
    [| | | | | | exact Simple_gameLoop_collision
             | exact Extended_gameLoop_collision].
  all: repeat split.
  - rewrite Simple_checkCollisions_gameOver by assumption.
    apply collisionLoop_exact; assumption.
  - rewrite Simple_checkCollisions_gameOver by assumption.
    apply collisionLoop_exact; assumption.
  - rewrite Extended_checkCollisions_gameOver by assumption.
    apply collisionLoop_exact; assumption.
  - rewrite Extended_checkCollisions_gameOver by assumption.
    apply collisionLoop_exact; assumption.
  - intros w b Hrun Hb Hsize Hdist.
    rewrite Simple_checkCollisions_gameOver by assumption.
    apply collisionLoop_iff. exists b. split; [exact Hb|].
    apply hitsIceberg_iff; [apply Hsize|]. fold shipRadius in Hdist.
    rewrite Hdist. lra.
  - intros w b Hrun Hwon Hb Hsize Hdist.
    rewrite Extended_checkCollisions_gameOver by assumption.
    apply collisionLoop_iff. exists b. split; [exact Hb|].
    apply hitsIceberg_iff; [apply Hsize|]. fold shipRadius in Hdist.
    rewrite Hdist. lra.
  - intros canvas now frames w Hplay.
    eapply Simple_play_Forall;
      [exact generator_wellSized | exact Hplay | apply Forall_nil; exact I].
  - intros canvas now draws w0 draws' frames w Hinit Hplay.
    eapply Extended_play_Forall;
      [exact generator_wellSized | exact Hplay |].
    apply Extended_initialWorld_ship in Hinit as (_ & _ & -> & _).
    apply Forall_nil; exact I.
Qed.

Lemma C3_collision_iff_within_radii_witness :
  let w := Simple.set_icebergs [mkIceberg 0 59 30 6 0]
             (Simple.initialWorld (mkCanvas 800 600) 0) in
  Simple.gameOver (Simple.checkCollisions w) = true.
Proof.
  apply (proj1 (proj2 (proj2 C3_collision_iff_within_radii))
           (Simple.set_icebergs [mkIceberg 0 59 30 6 0]
              (Simple.initialWorld (mkCanvas 800 600) 0))
           (mkIceberg 0 59 30 6 0)).
  - reflexivity.
  - left.
  - unfold wellSized, icebergsConfig.minSize, icebergsConfig.maxSize.
    cbn [size]. lra.
  - unfold distanceTo, euclid. cbn [Simple.camera Simple.set_icebergs
      Simple.initialWorld cam_x cam_y ice_x ice_y size]. unfold ship_width.
    replace ((0 - 0) * (0 - 0) + (0 - 59) * (0 - 59)) with (59 * 59) by lra.
    unfold Math.sqrt. rewrite sqrt_square by lra. lra.
Defined.

(** * Further properties of the code *)

(** ** ShipPhysics: rudder *)

Lemma maxRudderAngle_pos : 0 < shipConfig.maxRudderAngle.
Proof.
  unfold shipConfig.maxRudderAngle, Math.PI. pose proof PI_RGT_0. lra.
Qed.

Lemma steerRudder_range keys r :
  rudderInRange r -> rudderInRange (steerRudder keys r).
Proof.
  pose proof maxRudderAngle_pos as Hpos.
  unfold rudderInRange, steerRudder. intros Hr.
  set (M := shipConfig.maxRudderAngle) in *. clearbody M.
  destruct (ArrowLeft keys); [|destruct (ArrowRight keys)];
    repeat case_decide; unfold_config; split_minmax; lra.
Qed.

(** With no steering key held the rudder moves toward the centre by
    [rudderSpeed], never past it. *)
Lemma steerRudder_centres keys r :
  noSteering keys ->
  Rabs (steerRudder keys r) = Rmax 0 (Rabs r - shipConfig.rudderSpeed) /\
  (0 <= r -> 0 <= steerRudder keys r) /\
  (r <= 0 -> steerRudder keys r <= 0).
Proof.
  intros [Hl Hr]. unfold steerRudder. rewrite Hl, Hr.
  repeat split; intros; repeat case_decide; unfold_config; split_minmax; lra.
Qed.

Lemma Simple_updateShip_rudder deltaTime keys w :
  rudderAngle (Simple.ship (Simple.updateShip deltaTime keys w))
  = steerRudder keys (rudderAngle (Simple.ship w)).
Proof.
  unfold Simple.updateShip. destruct (turnAboutPivot _ _ _ _). reflexivity.
Qed.

Lemma Extended_updateShip_rudder deltaTime keys w :
  rudderAngle (Extended.ship (Extended.updateShip deltaTime keys w))
  = steerRudder keys (rudderAngle (Extended.ship w)).
Proof.
  unfold Extended.updateShip. destruct (turnAboutPivot _ _ _ _). reflexivity.
Qed.

Lemma Simple_sail_rudder inputs w :
  rudderInRange (rudderAngle (Simple.ship w)) ->
  rudderInRange (rudderAngle (Simple.ship (Simple.sail inputs w))).
Proof.
  revert w; induction inputs as [|[deltaTime keys] inputs IH]; intros w Hin.
  - exact Hin.
  - change (Simple.sail ((deltaTime, keys) :: inputs) w)
      with (Simple.sail inputs (Simple.updateShip deltaTime keys w)).
    apply IH. rewrite Simple_updateShip_rudder. apply steerRudder_range, Hin.
Qed.

Lemma Extended_sail_rudder inputs w :
  rudderInRange (rudderAngle (Extended.ship w)) ->
  rudderInRange (rudderAngle (Extended.ship (Extended.sail inputs w))).
Proof.
  revert w; induction inputs as [|[deltaTime keys] inputs IH]; intros w Hin.
  - exact Hin.
  - change (Extended.sail ((deltaTime, keys) :: inputs) w)
      with (Extended.sail inputs (Extended.updateShip deltaTime keys w)).
    apply IH. rewrite Extended_updateShip_rudder. apply steerRudder_range, Hin.
Qed.

(** X1. Whatever keys are held and for however many ticks, a rudder that
    is within [-maxRudderAngle, maxRudderAngle] stays within it, in both
    variants; the initial rudder (0) is within it. *)
Theorem X1_rudder_within_stops :
  (forall inputs w,
     rudderInRange (rudderAngle (Simple.ship w)) ->
     rudderInRange (rudderAngle (Simple.ship (Simple.sail inputs w)))) /\
  (forall inputs w,
     rudderInRange (rudderAngle (Extended.ship w)) ->
     rudderInRange (rudderAngle (Extended.ship (Extended.sail inputs w)))) /\
  rudderInRange 0.
Proof.
  split; [exact Simple_sail_rudder|]. split; [exact Extended_sail_rudder|].
  pose proof maxRudderAngle_pos. unfold rudderInRange. lra.
Qed.

Lemma X1_rudder_within_stops_witness :
  rudderInRange
    (rudderAngle
       (Simple.ship
          (Simple.sail [(1, mkKeys false false true false);
                        (1, mkKeys false false false true)]
             (Simple.initialWorld (mkCanvas 800 600) 0)))).
Proof.
  apply (proj1 X1_rudder_within_stops).
  cbn [Simple.initialWorld Simple.ship rudderAngle].
  pose proof maxRudderAngle_pos. unfold rudderInRange. lra.
Defined.

Lemma Simple_sail_rudder_centres inputs w :
  Forall (fun input => noSteering (snd input)) inputs ->
  Rabs (rudderAngle (Simple.ship w))
    <= INR (length inputs) * shipConfig.rudderSpeed ->
  rudderAngle (Simple.ship (Simple.sail inputs w)) = 0.
Proof.
  revert w; induction inputs as [|[deltaTime keys] inputs IH]; intros w Hk Hr.
  - simpl in *. pose proof (Rabs_pos (rudderAngle (Simple.ship w))).
    destruct (Req_dec (rudderAngle (Simple.ship w)) 0) as [H0|H0]; [exact H0|].
    apply Rabs_pos_lt in H0. lra.
  - change (Simple.sail ((deltaTime, keys) :: inputs) w)
      with (Simple.sail inputs (Simple.updateShip deltaTime keys w)).
    apply Forall_cons in Hk as [Hk Hks]. apply IH; [exact Hks|].
    rewrite Simple_updateShip_rudder.
    destruct (steerRudder_centres keys (rudderAngle (Simple.ship w)) Hk)
      as (-> & _).
    change (length ((deltaTime, keys) :: inputs)) with (S (length inputs)) in Hr.
    rewrite S_INR in Hr. pose proof (pos_INR (length inputs)).
    unfold_config. split_minmax; nra.
Qed.

Lemma Extended_sail_rudder_centres inputs w :
  Forall (fun input => noSteering (snd input)) inputs ->
  Rabs (rudderAngle (Extended.ship w))
    <= INR (length inputs) * shipConfig.rudderSpeed ->
  rudderAngle (Extended.ship (Extended.sail inputs w)) = 0.
Proof.
  revert w; induction inputs as [|[deltaTime keys] inputs IH]; intros w Hk Hr.
  - simpl in *. pose proof (Rabs_pos (rudderAngle (Extended.ship w))).
    destruct (Req_dec (rudderAngle (Extended.ship w)) 0) as [H0|H0]; [exact H0|].
    apply Rabs_pos_lt in H0. lra.
  - change (Extended.sail ((deltaTime, keys) :: inputs) w)
      with (Extended.sail inputs (Extended.updateShip deltaTime keys w)).
    apply Forall_cons in Hk as [Hk Hks]. apply IH; [exact Hks|].
    rewrite Extended_updateShip_rudder.
    destruct (steerRudder_centres keys (rudderAngle (Extended.ship w)) Hk)
      as (-> & _).
    change (length ((deltaTime, keys) :: inputs)) with (S (length inputs)) in Hr.
    rewrite S_INR in Hr. pose proof (pos_INR (length inputs)).
    unfold_config. split_minmax; nra.
Qed.

(** X2. With neither steering key held, a tick takes [rudderSpeed] off the
    magnitude of the rudder angle, down to 0, and keeps its sign (it never
    swings past the centre); after a run of such ticks at least
    |rudder| / rudderSpeed long the rudder is exactly centred.  Both
    variants. *)
Theorem X2_rudder_self_centres :
  (forall deltaTime keys w,
     noSteering keys ->
     let r := rudderAngle (Simple.ship w) in
     let r' := rudderAngle (Simple.ship (Simple.updateShip deltaTime keys w)) in
     Rabs r' = Rmax 0 (Rabs r - shipConfig.rudderSpeed) /\
     (0 <= r -> 0 <= r') /\ (r <= 0 -> r' <= 0)) /\
  (forall deltaTime keys w,
     noSteering keys ->
     let r := rudderAngle (Extended.ship w) in
     let r' :=
       rudderAngle (Extended.ship (Extended.updateShip deltaTime keys w)) in
     Rabs r' = Rmax 0 (Rabs r - shipConfig.rudderSpeed) /\
     (0 <= r -> 0 <= r') /\ (r <= 0 -> r' <= 0)) /\
  (forall inputs w,
     Forall (fun input => noSteering (snd input)) inputs ->
     Rabs (rudderAngle (Simple.ship w))
       <= INR (length inputs) * shipConfig.rudderSpeed ->
     rudderAngle (Simple.ship (Simple.sail inputs w)) = 0) /\
  (forall inputs w,
     Forall (fun input => noSteering (snd input)) inputs ->
     Rabs (rudderAngle (Extended.ship w))
       <= INR (length inputs) * shipConfig.rudderSpeed ->
     rudderAngle (Extended.ship (Extended.sail inputs w)) = 0).
Proof.
  split; [|split; [|split]].
  - intros deltaTime keys w Hk r r'. unfold r'.
    rewrite Simple_updateShip_rudder. apply steerRudder_centres, Hk.
  - intros deltaTime keys w Hk r r'. unfold r'.
    rewrite Extended_updateShip_rudder. apply steerRudder_centres, Hk.
  - exact Simple_sail_rudder_centres.
  - exact Extended_sail_rudder_centres.
Qed.

Lemma X2_rudder_self_centres_witness :
  let w := Simple.set_ship (mkShip 0 0 0 0 0 0.05)
             (Simple.initialWorld (mkCanvas 800 600) 0) in
  rudderAngle
    (Simple.ship
       (Simple.sail [(1, mkKeys true false false false);
                     (1, mkKeys false false false false)] w)) = 0.
Proof.
  apply (proj1 (proj2 (proj2 X2_rudder_self_centres))).
  - repeat constructor.
  - cbn [Simple.ship Simple.set_ship rudderAngle length].
    rewrite Rabs_right by lra. unfold shipConfig.rudderSpeed. simpl. lra.
Defined.

(** ** ShipPhysics: the pivot *)

Lemma turnAboutPivot_keeps_pivot rot spd rudder cam :
  pivotOf (snd (turnAboutPivot rot spd rudder cam))
          (fst (turnAboutPivot rot spd rudder cam))
  = pivotOf cam rot.
Proof.
  unfold pivotOf, turnAboutPivot. cbn [fst snd cam_x cam_y].
  f_equal; lra.
Qed.

Lemma Simple_updateShip_camera deltaTime keys w :
  let w' := Simple.updateShip deltaTime keys w in
  let pivotOffset := (shipConfig.pivotPoint - 0.5) * ship_length in
  cam_x (Simple.camera w')
  = cam_x (Simple.camera w)
    + (cam_x (Simple.camera w)
         + Math.cos (rotation (Simple.ship w)) * pivotOffset
       - (cam_x (Simple.camera w)
            + Math.cos (rotation (Simple.ship w')) * pivotOffset))
    + Math.cos (rotation (Simple.ship w')) * speed (Simple.ship w') /\
  cam_y (Simple.camera w')
  = cam_y (Simple.camera w)
    + (cam_y (Simple.camera w)
         + Math.sin (rotation (Simple.ship w)) * pivotOffset
       - (cam_y (Simple.camera w)
            + Math.sin (rotation (Simple.ship w')) * pivotOffset))
    + Math.sin (rotation (Simple.ship w')) * speed (Simple.ship w').
Proof. split; reflexivity. Qed.

(** X3. The turn of a tick is about the pivot point: after the tick the
    pivot point ([pivotOffset] = (pivotPoint - 0.5) * length ahead of the
    camera point along the heading) is where it was before, moved by
    [speed] along the new heading; so with the ship at rest a turn would
    leave the pivot point fixed.  Both variants. *)
Theorem X3_turn_is_about_the_pivot :
  (forall deltaTime keys w,
     let w' := Simple.updateShip deltaTime keys w in
     let rot' := rotation (Simple.ship w') in
     pivotOf (Simple.camera w') rot'
     = (fst (pivotOf (Simple.camera w) (rotation (Simple.ship w)))
          + Math.cos rot' * speed (Simple.ship w'),
        snd (pivotOf (Simple.camera w) (rotation (Simple.ship w)))
          + Math.sin rot' * speed (Simple.ship w'))) /\
  (forall deltaTime keys w,
     let w' := Extended.updateShip deltaTime keys w in
     let rot' := rotation (Extended.ship w') in
     pivotOf (Extended.camera w') rot'
     = (fst (pivotOf (Extended.camera w) (rotation (Extended.ship w)))
          + Math.cos rot' * speed (Extended.ship w'),
        snd (pivotOf (Extended.camera w) (rotation (Extended.ship w)))
          + Math.sin rot' * speed (Extended.ship w'))).
Proof.
  split.
  - intros deltaTime keys w w' rot'.
    destruct (Simple_updateShip_camera deltaTime keys w) as [Hx Hy].
    fold w' in Hx, Hy. fold rot' in Hx, Hy.
    unfold pivotOf. cbn [fst snd]. rewrite Hx, Hy. f_equal; lra.
  - intros deltaTime keys w w' rot'.
    destruct (Extended_updateShip_camera deltaTime keys w) as [Hx Hy].
    fold w' in Hx, Hy. fold rot' in Hx, Hy.
    unfold pivotOf. cbn [fst snd]. rewrite Hx, Hy. f_equal; lra.
Qed.

(** ** ShipPhysics: heading *)






(** ** ShipPhysics: acceleration *)

Lemma decayAcceleration_level a :
  accelerationLevel a -> decayAcceleration a = 0.
Proof.
  unfold accelerationLevel, decayAcceleration.
  intros [-> | [-> | ->]]; repeat case_decide; unfold_config; split_minmax; lra.
Qed.

Lemma selectedAcceleration_level keys :
  accelerationLevel (selectedAcceleration keys).
Proof.
  unfold accelerationLevel, selectedAcceleration.
  destruct (ArrowUp keys), (ArrowDown keys); auto.
Qed.

(** X5. The acceleration has no memory.  From an acceleration that is
    [+accelerationPower], [-accelerationPower] or 0 (the initial value), a
    tick leaves the value the held keys select: [+accelerationPower] with
    up held, else [-accelerationPower] with down held, else 0, because one
    step of the decay (0.08) exceeds the power (0.03); in the extended
    variant it leaves 0 whenever no coal is left.  So the acceleration is
    always one of those three values.  Both variants. *)
Theorem X5_acceleration_follows_keys :
  (forall deltaTime keys w,
     accelerationLevel (acceleration (Simple.ship w)) ->
     acceleration (Simple.ship (Simple.updateShip deltaTime keys w))
     = selectedAcceleration keys) /\
  (forall deltaTime keys w,
     accelerationLevel (acceleration (Extended.ship w)) ->
     acceleration (Extended.ship (Extended.updateShip deltaTime keys w))
     = if decide (Extended.currentCoal w > 0) then selectedAcceleration keys
       else 0) /\
  (forall inputs w,
     accelerationLevel (acceleration (Simple.ship w)) ->
     accelerationLevel (acceleration (Simple.ship (Simple.sail inputs w)))) /\
  (forall inputs w,
     accelerationLevel (acceleration (Extended.ship w)) ->
     accelerationLevel (acceleration (Extended.ship (Extended.sail inputs w)))).
Proof.
  assert (HS : forall deltaTime keys w,
     accelerationLevel (acceleration (Simple.ship w)) ->
     acceleration (Simple.ship (Simple.updateShip deltaTime keys w))
     = selectedAcceleration keys).
  { intros deltaTime keys w Hlevel.
    change (acceleration (Simple.ship (Simple.updateShip deltaTime keys w)))
      with (if ArrowUp keys then shipConfig.accelerationPower
            else if ArrowDown keys then - shipConfig.accelerationPower
            else decayAcceleration (acceleration (Simple.ship w))).
    rewrite (decayAcceleration_level _ Hlevel). reflexivity. }
  assert (HE : forall deltaTime keys w,
     accelerationLevel (acceleration (Extended.ship w)) ->
     acceleration (Extended.ship (Extended.updateShip deltaTime keys w))
     = if decide (Extended.currentCoal w > 0) then selectedAcceleration keys
       else 0).
  { intros deltaTime keys w Hlevel.
    change (acceleration (Extended.ship (Extended.updateShip deltaTime keys w)))
      with (if decide (Extended.currentCoal w > 0) then
              if ArrowUp keys then shipConfig.accelerationPower
              else if ArrowDown keys then - shipConfig.accelerationPower
              else decayAcceleration (acceleration (Extended.ship w))
            else 0).
    rewrite (decayAcceleration_level _ Hlevel). reflexivity. }
  split; [exact HS|]. split; [exact HE|]. split.
  - induction inputs as [|[deltaTime keys] inputs IH]; intros w Hlevel.
    + exact Hlevel.
    + change (Simple.sail ((deltaTime, keys) :: inputs) w)
        with (Simple.sail inputs (Simple.updateShip deltaTime keys w)).
      apply IH. rewrite HS by exact Hlevel. apply selectedAcceleration_level.
  - induction inputs as [|[deltaTime keys] inputs IH]; intros w Hlevel.
    + exact Hlevel.
    + change (Extended.sail ((deltaTime, keys) :: inputs) w)
        with (Extended.sail inputs (Extended.updateShip deltaTime keys w)).
      apply IH. rewrite HE by exact Hlevel.
      case_decide; [apply selectedAcceleration_level|].
      unfold accelerationLevel. auto.
Qed.

Lemma X5_acceleration_follows_keys_witness :
  acceleration
    (Simple.ship
       (Simple.updateShip 1 (mkKeys false false true false)
          (Simple.set_ship (mkShip 0 0 0 1 0.03 0)
             (Simple.initialWorld (mkCanvas 800 600) 0))))
  = selectedAcceleration (mkKeys false false true false).
Proof.
  apply (proj1 X5_acceleration_follows_keys).
  left. reflexivity.
Defined.

(** ** ResourceModel: distance and coal *)

Lemma move_length (a b r v : R) :
  Math.sqrt ((a + Math.cos r * v - a) * (a + Math.cos r * v - a)
             + (b + Math.sin r * v - b) * (b + Math.sin r * v - b))
  = Rabs v.
Proof.
  unfold Math.sqrt, Math.cos, Math.sin.
  replace ((a + cos r * v - a) * (a + cos r * v - a)
           + (b + sin r * v - b) * (b + sin r * v - b))
    with ((sin r * sin r + cos r * cos r) * (v * v)) by lra.
  pose proof (sin2_cos2 r) as H. unfold Rsqr in H. rewrite H, Rmult_1_l.
  fold (Rsqr v). apply sqrt_Rsqr_abs.
Qed.

(** The distance a tick adds to [totalDistance] is the magnitude of the
    speed the tick leaves. *)
Lemma Extended_updateShip_distance deltaTime keys w :
  Extended.totalDistance (Extended.updateShip deltaTime keys w)
  = Extended.totalDistance w
    + Rabs (speed (Extended.ship (Extended.updateShip deltaTime keys w))).
Proof.
  set (w' := Extended.updateShip deltaTime keys w).
  set (c1 := snd (turnAboutPivot (rotation (Extended.ship w))
                    (speed (Extended.ship w')) (rudderAngle (Extended.ship w'))
                    (Extended.camera w))).
  rewrite <- (move_length (cam_x c1) (cam_y c1)
                (rotation (Extended.ship w')) (speed (Extended.ship w'))).
  reflexivity.
Qed.

Lemma Extended_updateShip_coal_closed deltaTime keys w :
  0 <= Extended.currentCoal w ->
  Extended.currentCoal (Extended.updateShip deltaTime keys w)
  = Rmax 0 (Extended.currentCoal w
            - coalConfig.depletionRate / shipConfig.maxSpeed
              * Rabs (speed (Extended.ship
                               (Extended.updateShip deltaTime keys w)))).
Proof.
  intros Hc. rewrite Extended_updateShip_coal.
  set (v := speed _). unfold Math.abs, Math.max.
  case_decide as Hv.
  - f_equal. unfold coalConfig.depletionRate. unfold_config. lra.
  - assert (Rabs v = 0) by (pose proof (Rabs_pos v); lra).
    unfold coalConfig.depletionRate. unfold_config. split_minmax; lra.
Qed.

Lemma Extended_sail_coal_distance inputs w :
  0 <= Extended.currentCoal w ->
  Extended.totalDistance w <= Extended.totalDistance (Extended.sail inputs w) /\
  Extended.currentCoal (Extended.sail inputs w)
  = Rmax 0 (Extended.currentCoal w
            - coalConfig.depletionRate / shipConfig.maxSpeed
              * (Extended.totalDistance (Extended.sail inputs w)
                 - Extended.totalDistance w)).
Proof.
  revert w; induction inputs as [|[deltaTime keys] inputs IH]; intros w Hc.
  - change (Extended.sail [] w) with w. split; [lra|].
    unfold coalConfig.depletionRate. unfold_config. split_minmax; lra.
  - change (Extended.sail ((deltaTime, keys) :: inputs) w)
      with (Extended.sail inputs (Extended.updateShip deltaTime keys w)).
    set (w1 := Extended.updateShip deltaTime keys w).
    pose proof (Extended_updateShip_distance deltaTime keys w) as Hd.
    pose proof (Extended_updateShip_coal_closed deltaTime keys w Hc) as Hc1.
    fold w1 in Hd, Hc1.
    assert (Hc1' : 0 <= Extended.currentCoal w1)
      by (rewrite Hc1; apply Rmax_l).
    destruct (IH w1 Hc1') as [Hmono Hclosed].
    pose proof (Rabs_pos (speed (Extended.ship w1))) as Hv.
    split; [lra|]. rewrite Hclosed, Hc1, Hd.
    set (dn := Extended.totalDistance (Extended.sail inputs w1)) in *.
    set (v := Rabs (speed (Extended.ship w1))) in *.
    set (c := Extended.currentCoal w) in *.
    set (d := Extended.totalDistance w) in *.
    clearbody dn v c d.
    unfold coalConfig.depletionRate in *. unfold_config.
    assert (Hk : 0 <= 0.01 / 3.5 * v) by nra.
    assert (Hk' : 0 <= 0.01 / 3.5 * (dn - (d + v))) by nra.
    split_minmax; lra.
Qed.

(** X6. In the extended variant coal is a function of the distance sailed.
    A tick adds the magnitude of the speed it leaves to [totalDistance],
    which therefore never decreases; and after any sequence of ticks from a
    world with non-negative coal the coal is
    [max(0, coal - depletionRate / maxSpeed * distance sailed since)].
    From a full bunker the coal is exhausted exactly when the distance
    sailed since reaches 35000 world units. *)
Theorem X6_coal_is_a_function_of_distance :
  forall inputs w,
    0 <= Extended.currentCoal w ->
    let w' := Extended.sail inputs w in
    let sailed := Extended.totalDistance w' - Extended.totalDistance w in
    0 <= sailed /\
    Extended.currentCoal w'
    = Rmax 0 (Extended.currentCoal w
              - coalConfig.depletionRate / shipConfig.maxSpeed * sailed) /\
    (forall deltaTime keys,
       Extended.totalDistance (Extended.updateShip deltaTime keys w')
       = Extended.totalDistance w'
         + Rabs (speed (Extended.ship
                          (Extended.updateShip deltaTime keys w')))) /\
    (Extended.currentCoal w = coalConfig.maxCoal ->
     (Extended.currentCoal w' = 0 <-> 35000 <= sailed)).
Proof.
  intros inputs w Hc w' sailed.
  destruct (Extended_sail_coal_distance inputs w Hc) as [Hmono Hclosed].
  fold w' in Hmono, Hclosed.
  split; [unfold sailed; lra|]. split; [exact Hclosed|].
  split; [intros; apply Extended_updateShip_distance|].
  intros Hfull. rewrite Hclosed, Hfull. fold sailed.
  unfold coalConfig.maxCoal, coalConfig.depletionRate. unfold_config.
  split; intros H; split_minmax; lra.
Qed.

Lemma X6_coal_is_a_function_of_distance_witness :
  let w := Extended.declaredWorld (mkCanvas 800 600) 0 in
  let w' := Extended.sail [(1, mkKeys true false false false)] w in
  let sailed := Extended.totalDistance w' - Extended.totalDistance w in
  0 <= sailed /\
  Extended.currentCoal w'
  = Rmax 0 (Extended.currentCoal w
            - coalConfig.depletionRate / shipConfig.maxSpeed * sailed) /\
  (forall deltaTime keys,
     Extended.totalDistance (Extended.updateShip deltaTime keys w')
     = Extended.totalDistance w'
       + Rabs (speed (Extended.ship
                        (Extended.updateShip deltaTime keys w')))) /\
  (Extended.currentCoal w = coalConfig.maxCoal ->
   (Extended.currentCoal w' = 0 <-> 35000 <= sailed)).
Proof.
  apply (X6_coal_is_a_function_of_distance
           [(1, mkKeys true false false false)]
           (Extended.declaredWorld (mkCanvas 800 600) 0)).
  cbn [Extended.declaredWorld Extended.currentCoal].
  unfold coalConfig.maxCoal. lra.
Defined.

(** ** WorldGenerator: what an accepted candidate looks like *)

Lemma candidateStep_cases chunkX chunkY i :
  WorldGenerator.candidateStep chunkX chunkY [] i = [] \/
  exists iceberg, WorldGenerator.candidateStep chunkX chunkY [] i = [iceberg].
Proof.
  unfold WorldGenerator.candidateStep. case_decide; [left|right]; eauto.
Qed.

Lemma floor_between (v : R) (lo hi : Z) :
  IZR lo <= v < IZR hi -> (lo <= Math.floor v < hi)%Z.
Proof.
  intros [Hlo Hhi]. destruct (floor_spec v) as [H1 H2]. split.
  - assert (H : IZR lo < IZR (Math.floor v) + 1) by lra.
    rewrite <- plus_IZR in H. apply lt_IZR in H. lia.
  - apply lt_IZR. lra.
Qed.

Lemma candidateOf_facts chunkX chunkY i iceberg :
  candidateOf chunkX chunkY i iceberg ->
  chunkOf (ice_x iceberg) (ice_y iceberg) = (chunkX, chunkY) /\
  icebergsConfig.minSize <= size iceberg < icebergsConfig.maxSize /\
  (6 <= pointCount iceberg <= 11)%Z /\
  seed iceberg = (chunkX * 1000 + chunkY + i)%Z /\
  WorldGenerator.startSafeRadius
    <= euclid (ice_x iceberg) (ice_y iceberg) 0 0.
Proof.
  intros [_ Hstep]. unfold WorldGenerator.candidateStep in Hstep.
  case_decide as Hfar; [discriminate|].
  injection Hstep as <-. cbn [ice_x ice_y size pointCount seed].
  set (s := (chunkX * 1000 + chunkY + i)%Z) in *.
  pose proof (fracHash_range (Math.sin (IZR s * 0.1) * 10000)) as Hfx.
  pose proof (fracHash_range (Math.cos (IZR s * 0.1) * 10000)) as Hfy.
  pose proof (fracHash_range (Math.sin (IZR s * 0.15) * 10000)) as Hfs.
  pose proof (fracHash_range (Math.sin (IZR s * 0.2) * 10000)) as Hfp.
  set (fx := WorldGenerator.fracHash (Math.sin (IZR s * 0.1) * 10000)) in *.
  set (fy := WorldGenerator.fracHash (Math.cos (IZR s * 0.1) * 10000)) in *.
  set (fs := WorldGenerator.fracHash (Math.sin (IZR s * 0.15) * 10000)) in *.
  set (fp := WorldGenerator.fracHash (Math.sin (IZR s * 0.2) * 10000)) in *.
  clearbody fx fy fs fp.
  unfold icebergGridSize, icebergsConfig.minSize, icebergsConfig.maxSize,
    icebergsConfig.minPoints, icebergsConfig.maxPoints in *.
  repeat split; try lra.
  - unfold chunkOf, icebergGridSize. f_equal; apply floor_eq; lra.
  - apply (floor_between _ 6 12). lra.
  - assert (H : (Math.floor (6 + fp * (12 - 6)) < 12)%Z)
      by (apply (floor_between _ 6 12); lra).
    lia.
  - unfold euclid. rewrite !Rminus_0_r. lra.
Qed.

(** Whatever the loop leaves in the list was there before or is the
    accepted candidate of one of the indices. *)
Lemma candidateLoop_generated chunkX chunkY ices indices iceberg :
  iceberg ∈ foldl (WorldGenerator.candidateStep chunkX chunkY) ices indices ->
  iceberg ∈ ices \/
  exists i, i ∈ indices /\
            WorldGenerator.candidateStep chunkX chunkY [] i = [iceberg].
Proof.
  revert ices. induction indices as [|j indices IH]; intros ices; simpl.
  - auto.
  - intros Hin. apply IH in Hin as [Hin | (i & Hi & Hstep)].
    + rewrite candidateStep_app in Hin. apply elem_of_app in Hin as [Hin|Hin].
      * auto.
      * right. exists j. split; [left|].
        destruct (candidateStep_cases chunkX chunkY j) as [H0|[b Hb]].
        -- rewrite H0 in Hin. inversion Hin.
        -- rewrite Hb in Hin. apply list_elem_of_singleton in Hin.
           subst. exact Hb.
    + right. exists i. split; [right; exact Hi | exact Hstep].
Qed.

Lemma fieldGenerated_mono ices loaded loaded' :
  loaded ⊆ loaded' -> fieldGenerated ices loaded ->
  fieldGenerated ices loaded'.
Proof.
  intros Hsub Hgen b Hb. destruct (Hgen b Hb) as (cx & cy & i & Hkey & Hc).
  exists cx, cy, i. split; [|exact Hc].
  eapply elem_of_subseteq; eassumption.
Qed.

Lemma generate_fieldGenerated canvas chunkX chunkY f f' :
  WorldGenerator.generateIcebergsForChunk canvas chunkX chunkY f = Some f' ->
  fieldGenerated (WorldGenerator.f_icebergs f) (WorldGenerator.f_loaded f) ->
  fieldGenerated (WorldGenerator.f_icebergs f') (WorldGenerator.f_loaded f').
Proof.
  intros Hgen Hinv.
  pose proof (generate_loaded _ _ _ _ _ Hgen) as [Hsub Hkey].
  unfold WorldGenerator.generateIcebergsForChunk in Hgen.
  case_decide as Hloaded.
  - injection Hgen as <-. exact Hinv.
  - unfold WorldGenerator.generateChunkBody in Hgen.
    destruct (WorldGenerator.expectedCount canvas) as [n|];
      [|discriminate].
    injection Hgen as <-. cbn [WorldGenerator.f_icebergs WorldGenerator.f_loaded] in *.
    intros b Hb. apply candidateLoop_generated in Hb as [Hb|(i & Hi & Hstep)].
    + destruct (Hinv b Hb) as (cx & cy & j & Hk & Hc).
      exists cx, cy, j. split; [|exact Hc].
      eapply elem_of_subseteq; eassumption.
    + exists chunkX, chunkY, i. split; [exact Hkey|].
      split; [|exact Hstep]. apply elem_of_seqZ in Hi. lia.
Qed.

Lemma ensure_fieldGenerated canvas camera f f' :
  WorldGenerator.ensureIcebergsGenerated canvas camera f = Some f' ->
  fieldGenerated (WorldGenerator.f_icebergs f) (WorldGenerator.f_loaded f) ->
  fieldGenerated (WorldGenerator.f_icebergs f') (WorldGenerator.f_loaded f').
Proof.
  rewrite ensure_unfold. intros H Hf.
  set (I := fun g : WorldGenerator.Field =>
              fieldGenerated (WorldGenerator.f_icebergs g)
                             (WorldGenerator.f_loaded g)).
  eapply (forEach_preserves _ I); [|exact Hf|exact H].
  intros chunkX g g' Hin Hg.
  eapply (forEach_preserves _ I); [|exact Hg|exact Hin].
  intros chunkY h h' Hgen Hh. eapply generate_fieldGenerated; eassumption.
Qed.

(** ** Frames and the iceberg field *)

Lemma Simple_tail_field w :
  Simple.field (Simple.drawGameOver (Simple.drawShip (Simple.checkCollisions w)))
    = Simple.field w /\
  Simple.canvas (Simple.drawGameOver (Simple.drawShip (Simple.checkCollisions w)))
    = Simple.canvas w /\
  Simple.camera (Simple.drawGameOver (Simple.drawShip (Simple.checkCollisions w)))
    = Simple.camera w.
Proof.
  unfold Simple.drawGameOver, Simple.drawShip, Simple.checkCollisions.
  destruct (Simple.gameOver w); [|destruct (collisionLoop _ _)];
    destruct (negb _); auto.
Qed.

Lemma Extended_tail_field now w :
  let w' := Extended.drawGameOver
              (Extended.drawShip
                 (Extended.checkGoalReached now (Extended.checkCollisions w))) in
  Extended.field w' = Extended.field w /\
  Extended.canvas w' = Extended.canvas w /\
  Extended.camera w' = Extended.camera w /\
  Extended.currentCoal w' = Extended.currentCoal w /\
  Extended.goal w' = Extended.goal w /\
  Extended.startPort w' = Extended.startPort w.
Proof.
  unfold Extended.drawGameOver, Extended.drawShip, Extended.checkGoalReached,
    Extended.checkCollisions.
  destruct (Extended.gameOver w || Extended.gameWon w);
    [|destruct (collisionLoop _ _)];
    (destruct (_ || _); [|case_decide]); destruct (negb _); auto 10.
Qed.

Lemma Simple_gameLoop_over currentTime keys w :
  Simple.gameOver w = true ->
  Simple.gameLoop currentTime keys w
  = Some (Simple.drawGameOver
            (Simple.drawShip
               (Simple.set_animationTime (Simple.animationTime w + 0.5)
                  (Simple.set_lastTime currentTime w)))).
Proof.
  intros Hover. unfold Simple.gameLoop. rewrite Hover, andb_false_r.
  cbv zeta.
  change (Simple.gameOver
            (Simple.set_animationTime
               (Simple.animationTime (Simple.set_lastTime currentTime w) + 0.5)
               (Simple.set_lastTime currentTime w)))
    with (Simple.gameOver w).
  rewrite Hover. reflexivity.
Qed.



Lemma Extended_gameLoop_terminal_eq currentTime now keys w :
  Extended.gameOver w = true \/ Extended.gameWon w = true ->
  Extended.gameLoop currentTime now keys w
  = Some (Extended.drawGameOver
            (Extended.drawShip
               (Extended.set_animationTime (Extended.animationTime w + 0.5)
                  (Extended.set_lastTime currentTime w)))).
Proof.
  intros Hterm. unfold Extended.gameLoop.
  assert (Hguard : negb (Extended.gameRunning w) && negb (Extended.gameOver w)
                   && negb (Extended.gameWon w) = false)
    by (destruct Hterm as [-> | ->];
        destruct (Extended.gameRunning w), (Extended.gameOver w),
          (Extended.gameWon w); reflexivity).
  rewrite Hguard. cbv zeta.
  change (Extended.gameOver
            (Extended.set_animationTime
               (Extended.animationTime (Extended.set_lastTime currentTime w) + 0.5)
               (Extended.set_lastTime currentTime w)))
    with (Extended.gameOver w).
  change (Extended.gameWon
            (Extended.set_animationTime
               (Extended.animationTime (Extended.set_lastTime currentTime w) + 0.5)
               (Extended.set_lastTime currentTime w)))
    with (Extended.gameWon w).
  assert (Hinner : negb (Extended.gameOver w) && negb (Extended.gameWon w)
                   = false)
    by (destruct Hterm as [-> | ->];
        destruct (Extended.gameOver w), (Extended.gameWon w); reflexivity).
  rewrite Hinner. reflexivity.
Qed.

Lemma Extended_draw_field w :
  Extended.field (Extended.drawGameOver (Extended.drawShip w))
    = Extended.field w /\
  Extended.canvas (Extended.drawGameOver (Extended.drawShip w))
    = Extended.canvas w.
Proof.
  unfold Extended.drawGameOver, Extended.drawShip. destruct (negb _); auto.
Qed.

Lemma Extended_gameLoop_field currentTime now keys w w' :
  Extended.gameLoop currentTime now keys w = Some w' ->
  Extended.canvas w' = Extended.canvas w /\
  (Extended.field w' = Extended.field w \/
   (Extended.gameRunning w = true /\ Extended.gameOver w = false /\
    Extended.gameWon w = false /\
    WorldGenerator.ensureIcebergsGenerated
      (Extended.canvas w') (Extended.camera w') (Extended.field w)
    = Some (Extended.field w'))).
Proof.
  destruct (Extended.gameOver w) eqn:Hover;
    [|destruct (Extended.gameWon w) eqn:Hwon].
  - rewrite (Extended_gameLoop_terminal_eq _ _ _ _ (or_introl Hover)).
    intros [= <-].
    destruct (Extended_draw_field
                (Extended.set_animationTime (Extended.animationTime w + 0.5)
                   (Extended.set_lastTime currentTime w))) as [-> ->].
    split; [reflexivity|]. left. reflexivity.
  - rewrite (Extended_gameLoop_terminal_eq _ _ _ _ (or_intror Hwon)).
    intros [= <-].
    destruct (Extended_draw_field
                (Extended.set_animationTime (Extended.animationTime w + 0.5)
                   (Extended.set_lastTime currentTime w))) as [-> ->].
    split; [reflexivity|]. left. reflexivity.
  - destruct (Extended.gameRunning w) eqn:Hrun.
    + rewrite (Extended_gameLoop_running _ _ _ _ Hrun Hover Hwon).
      set (w1 := Extended.set_animationTime _ _).
      set (deltaTime := Math.min _ _).
      set (wu := Extended.updateShip deltaTime keys w1).
      destruct (Extended.ensureIcebergsGenerated wu) as [w2|] eqn:Hens;
        [|discriminate].
      intros [= <-].
      destruct (Extended_tail_field now w2) as (-> & -> & -> & _).
      apply Extended_ensure_inv in Hens as (f' & Hf & ->).
      rewrite Extended_field_set_field.
      change (Extended.canvas (Extended.set_field f' wu))
        with (Extended.canvas wu).
      change (Extended.camera (Extended.set_field f' wu))
        with (Extended.camera wu).
      destruct (Extended_updateShip_icebergs deltaTime keys w1)
        as (Hi & Hl & Hc & _). fold wu in Hi, Hl, Hc.
      split; [exact Hc|]. right. do 3 (split; [reflexivity|]).
      unfold Extended.field in Hf. rewrite Hi, Hl in Hf. exact Hf.
    + unfold Extended.gameLoop. rewrite Hrun, Hover, Hwon. simpl.
      intros [= <-]. auto.
Qed.

(** ** Start port, goal and restart *)

Lemma placeOnEdge_generated edge p draws p' draws' :
  placeOnEdge edge p draws = Some (p', draws') -> generated p' = generated p.
Proof.
  unfold placeOnEdge.
  destruct edge as [|[[q|q|]|[q|q|]|]|q]; destruct draws as [|r rest];
    intros [= <- <-]; reflexivity.
Qed.

(** On an edge 0..3 and with a draw in [0, 1) the port is put on that
    edge. *)
Lemma placeOnEdge_onEdge edge p r rest p' draws' :
  (0 <= edge <= 3)%Z -> 0 <= r < 1 ->
  placeOnEdge edge p (r :: rest) = Some (p', draws') ->
  onEdge edge p' /\ draws' = rest.
Proof.
  intros Hedge Hr. unfold placeOnEdge, onEdge.
  destruct edge as [|[[q|q|]|[q|q|]|]|q]; try lia;
    intros [= <- <-]; cbn [port_x port_y];
    unfold goalConfig.edgeOffset, worldConfig.width, worldConfig.height;
    (split; [split; [lra|nra] | reflexivity]).
Qed.

Lemma edge_of_draw (r : R) : 0 <= r < 1 -> (0 <= Math.floor (r * 4) <= 3)%Z.
Proof.
  intros Hr.
  assert (H : (0 <= Math.floor (r * 4) < 4)%Z)
    by (apply (floor_between _ 0 4); lra).
  lia.
Qed.

Lemma generateStartPort_inv draws w w' draws' :
  Extended.generateStartPort draws w = Some (w', draws') ->
  exists r edgeDraws p rx ry,
    draws = r :: edgeDraws /\
    placeOnEdge (Math.floor (r * 4)) (Extended.startPort w) edgeDraws
      = Some (p, rx :: ry :: draws') /\
    w' = Extended.set_camera
           (mkCamera (port_x p + (rx - 0.5) * (goalConfig.radius + 50) * 0.5)
                     (port_y p + (ry - 0.5) * (goalConfig.radius + 50) * 0.5))
           (Extended.set_startPort (mkPort (port_x p) (port_y p) true) w).
Proof.
  unfold Extended.generateStartPort. destruct draws as [|r draws]; [discriminate|].
  destruct (placeOnEdge _ _ _) as [[p rest]|] eqn:Hplace; simpl; [|discriminate].
  destruct rest as [|rx [|ry rest]]; try discriminate.
  intros [= <- <-]. exists r, draws, p, rx, ry. auto.
Qed.

Lemma generateGoal_inv draws w w' draws' :
  Extended.generateGoal draws w = Some (w', draws') ->
  exists edge rest g,
    chooseGoalEdge (detectStartPortEdge (Extended.startPort w))
      (generated (Extended.startPort w)) draws = Some (edge, rest) /\
    placeOnEdge edge (Extended.goal w) rest = Some (g, draws') /\
    w' = Extended.set_goal (mkPort (port_x g) (port_y g) true) w.
Proof.
  unfold Extended.generateGoal.
  destruct (chooseGoalEdge _ _ _) as [[edge rest]|]; simpl; [|discriminate].
  destruct (placeOnEdge _ _ _) as [[g rest']|] eqn:Hplace; simpl; [|discriminate].
  intros [= <- <-]. exists edge, rest, g. auto.
Qed.

(** Reduction of the projections of a world built by setters, and of the
    projections of a ship, without touching the numbers. *)
Ltac simple_world_cbn :=
  cbn [Simple.gameRunning Simple.gameOver Simple.animationTime Simple.camera
       Simple.icebergs Simple.loadedIcebergChunks Simple.ship Simple.lastTime
       Simple.canvas Simple.gameOverButton
       Simple.set_gameRunning Simple.set_gameOver Simple.set_animationTime
       Simple.set_camera Simple.set_icebergs Simple.set_loadedIcebergChunks
       Simple.set_ship Simple.set_lastTime Simple.set_canvas
       Simple.set_gameOverButton
       screenX screenY rotation speed acceleration rudderAngle
       negb orb andb] in *.

Ltac extended_world_cbn :=
  cbn [Extended.gameRunning Extended.gameOver Extended.gameWon
       Extended.animationTime Extended.totalDistance Extended.gameStartTime
       Extended.winTime Extended.currentCoal Extended.goal Extended.startPort
       Extended.camera Extended.icebergs Extended.loadedIcebergChunks
       Extended.ship Extended.lastTime Extended.canvas Extended.gameOverButton
       Extended.set_gameRunning Extended.set_gameOver Extended.set_gameWon
       Extended.set_animationTime Extended.set_totalDistance
       Extended.set_gameStartTime Extended.set_winTime
       Extended.set_currentCoal Extended.set_goal Extended.set_startPort
       Extended.set_camera Extended.set_icebergs
       Extended.set_loadedIcebergChunks Extended.set_ship
       Extended.set_lastTime Extended.set_canvas Extended.set_gameOverButton
       screenX screenY rotation speed acceleration rudderAngle
       port_x port_y generated negb orb andb] in *.

(** ** Sessions of the simple variant *)

Lemma Simple_updateShip_sound deltaTime keys w :
  shipSound (Simple.ship w) ->
  shipSound (Simple.ship (Simple.updateShip deltaTime keys w)).
Proof.
  intros (Hv & Hr & Ha). split; [|split].
  - apply Simple_updateShip_speed. exact Hv.
  - rewrite Simple_updateShip_rudder. apply steerRudder_range. exact Hr.
  - change (acceleration (Simple.ship (Simple.updateShip deltaTime keys w)))
      with (if ArrowUp keys then shipConfig.accelerationPower
            else if ArrowDown keys then - shipConfig.accelerationPower
            else decayAcceleration (acceleration (Simple.ship w))).
    rewrite (decayAcceleration_level _ Ha).
    apply (selectedAcceleration_level keys).
Qed.

Lemma shipSound_at_rest x y rot : shipSound (mkShip x y rot 0 0 0).
Proof.
  pose proof maxRudderAngle_pos.
  split; [apply speedInRange_0|]. split; [unfold rudderInRange|right; left];
    cbn [rudderAngle acceleration]; [lra|reflexivity].
Qed.

Lemma fieldGenerated_empty : fieldGenerated [] ∅.
Proof. intros b Hb. apply elem_of_nil in Hb. destruct Hb. Qed.

(** The three ways a frame of the simple variant goes. *)
Lemma Simple_gameLoop_cases currentTime keys w w' :
  Simple.gameLoop currentTime keys w = Some w' ->
  let w1 := Simple.set_animationTime (Simple.animationTime w + 0.5)
              (Simple.set_lastTime currentTime w) in
  let wu := Simple.updateShip
              (Math.min ((currentTime - Simple.lastTime w) / 16.67) 2) keys w1 in
  (Simple.gameRunning w = false /\ Simple.gameOver w = false /\ w' = w) \/
  (Simple.gameOver w = true /\
   w' = Simple.drawGameOver (Simple.drawShip w1)) \/
  (Simple.gameRunning w = true /\ Simple.gameOver w = false /\
   exists f',
     WorldGenerator.ensureIcebergsGenerated
       (Simple.canvas w) (Simple.camera wu) (Simple.field w) = Some f' /\
     w' = Simple.drawGameOver
            (Simple.drawShip (Simple.checkCollisions (Simple.set_field f' wu)))).
Proof.
  intros H w1 wu.
  destruct (Simple.gameOver w) eqn:Hover.
  - right; left. rewrite (Simple_gameLoop_over _ _ _ Hover) in H.
    injection H as <-. auto.
  - destruct (Simple.gameRunning w) eqn:Hrun.
    + right; right. rewrite (Simple_gameLoop_running _ _ _ Hover Hrun) in H.
      fold w1 in H. fold wu in H.
      destruct (Simple.ensureIcebergsGenerated wu) as [w2|] eqn:Hens;
        [|discriminate].
      injection H as <-.
      apply Simple_ensure_inv in Hens as (f' & Hf & ->).
      destruct (Simple_updateShip_icebergs
                  (Math.min ((currentTime - Simple.lastTime w) / 16.67) 2)
                  keys w1) as (Hi & Hl & Hc & _).
      fold wu in Hi, Hl, Hc.
      assert (Hfield : Simple.field wu = Simple.field w).
      { unfold Simple.field. rewrite Hi, Hl. reflexivity. }
      rewrite Hfield, Hc in Hf.
      repeat split. exists f'. split; [exact Hf|reflexivity].
    + left. unfold Simple.gameLoop in H. rewrite Hrun, Hover in H.
      injection H as <-. auto.
Qed.

(** The end of a running frame: collision check and drawing. *)
Lemma Simple_tail_sound w :
  Simple.gameRunning w = true -> Simple.gameOver w = false ->
  shipSound (Simple.ship w) ->
  fieldGenerated (Simple.icebergs w) (Simple.loadedIcebergChunks w) ->
  simpleSound (Simple.drawGameOver (Simple.drawShip (Simple.checkCollisions w))).
Proof.
  destruct w as [running over anim cam ices loaded s last cv btn].
  cbn [Simple.gameRunning Simple.gameOver Simple.ship Simple.icebergs
       Simple.loadedIcebergChunks].
  intros -> -> Hs Hf. unfold simpleSound, Simple.drawGameOver, Simple.drawShip,
    Simple.checkCollisions, shipSound in *.
  destruct s as [sx sy rot spd acc rud]. simple_world_cbn.
  destruct (collisionLoop _ _); simple_world_cbn;
    (split; [reflexivity|]);
    (split; [first [solve [intros [=]] | intros _; reflexivity]|]);
    (split; [exact Hs|exact Hf]).
Qed.

Lemma Simple_frame_sound currentTime keys w w' :
  Simple.gameLoop currentTime keys w = Some w' ->
  simpleSound w -> simpleSound w'.
Proof.
  intros H Hw.
  destruct (Simple_gameLoop_cases _ _ _ _ H)
    as [(_ & _ & ->) | [(Hover & ->) | (Hrun & Hover & f' & Hf & ->)]].
  - exact Hw.
  - destruct Hw as (Hflags & _ & Hs & Hfield).
    destruct w as [running over anim cam ices loaded s last cv btn].
    cbn [Simple.gameRunning Simple.gameOver Simple.ship Simple.icebergs
         Simple.loadedIcebergChunks] in *.
    subst over running. destruct s as [sx sy rot spd acc rud].
    unfold simpleSound, Simple.drawGameOver, Simple.drawShip, shipSound in *.
    simple_world_cbn.
    split; [reflexivity|]. split; [intros _; reflexivity|].
    split; [exact Hs|exact Hfield].
  - destruct Hw as (_ & _ & Hs & Hfield).
    set (deltaTime := Math.min _ _) in *.
    set (w1 := Simple.set_animationTime _ _) in *.
    set (wu := Simple.updateShip deltaTime keys w1) in *.
    apply Simple_tail_sound.
    + change (Simple.gameRunning (Simple.set_field f' wu))
        with (Simple.gameRunning wu).
      unfold wu, Simple.updateShip. destruct (turnAboutPivot _ _ _ _).
      exact Hrun.
    + change (Simple.gameOver (Simple.set_field f' wu))
        with (Simple.gameOver wu).
      destruct (Simple_updateShip_icebergs deltaTime keys w1)
        as (_ & _ & _ & Hg).
      fold wu in Hg. rewrite Hg. exact Hover.
    + change (Simple.ship (Simple.set_field f' wu)) with (Simple.ship wu).
      apply Simple_updateShip_sound. exact Hs.
    + change (Simple.icebergs (Simple.set_field f' wu))
        with (WorldGenerator.f_icebergs f').
      change (Simple.loadedIcebergChunks (Simple.set_field f' wu))
        with (WorldGenerator.f_loaded f').
      eapply ensure_fieldGenerated; [exact Hf|exact Hfield].
Qed.

Lemma Simple_restart_sound now w : simpleSound (Simple.restartGame now w).
Proof.
  unfold simpleSound, Simple.restartGame.
  cbn [Simple.gameRunning Simple.gameOver Simple.ship Simple.icebergs
       Simple.loadedIcebergChunks Simple.set_lastTime Simple.set_animationTime
       Simple.set_loadedIcebergChunks Simple.set_icebergs Simple.set_camera
       Simple.set_ship Simple.set_gameRunning Simple.set_gameOver negb].
  repeat split; [discriminate|apply shipSound_at_rest..|
                 apply fieldGenerated_empty].
Qed.

Lemma Simple_step_sound e w w' :
  SimpleSession.step e w = Some w' -> simpleSound w -> simpleSound w'.
Proof.
  destruct e as [currentTime keys | x y now]; cbn [SimpleSession.step].
  - apply Simple_frame_sound.
  - intros [= <-] Hw. unfold SimpleSession.click.
    destruct (negb _); [exact Hw|].
    destruct (Simple.gameOverButton w) as [b|]; [|exact Hw].
    destruct (insideButton x y b); [apply Simple_restart_sound|exact Hw].
Qed.

Lemma Simple_reachable_sound w : simpleReachable w -> simpleSound w.
Proof.
  intros (cv & now & events & Hrun). unfold SimpleSession.run in Hrun.
  eapply (forEach_preserves _ simpleSound); [|idtac|exact Hrun].
  - intros e v v' Hstep Hv. eapply Simple_step_sound; eassumption.
  - unfold simpleSound, Simple.initialWorld.
    cbn [Simple.gameRunning Simple.gameOver Simple.ship Simple.icebergs
         Simple.loadedIcebergChunks negb].
    repeat split; [discriminate|apply shipSound_at_rest..|
                   apply fieldGenerated_empty].
Qed.

(** ** Sessions of the extended variant *)

Lemma Extended_updateShip_sound deltaTime keys w :
  shipSound (Extended.ship w) ->
  shipSound (Extended.ship (Extended.updateShip deltaTime keys w)).
Proof.
  intros (Hv & Hr & Ha). split; [|split].
  - apply Extended_updateShip_speed. exact Hv.
  - rewrite Extended_updateShip_rudder. apply steerRudder_range. exact Hr.
  - change (acceleration (Extended.ship (Extended.updateShip deltaTime keys w)))
      with (if decide (Extended.currentCoal w > 0) then
              if ArrowUp keys then shipConfig.accelerationPower
              else if ArrowDown keys then - shipConfig.accelerationPower
              else decayAcceleration (acceleration (Extended.ship w))
            else 0).
    rewrite (decayAcceleration_level _ Ha).
    case_decide; [apply (selectedAcceleration_level keys)|].
    right; left; reflexivity.
Qed.

Lemma coalAfter_0 : coalAfter 0 = coalConfig.maxCoal.
Proof.
  unfold coalAfter, coalConfig.maxCoal, coalConfig.depletionRate.
  unfold_config. split_minmax; lra.
Qed.

(** A tick keeps the coal the function [coalAfter] of the distance. *)
Lemma Extended_updateShip_coalAfter deltaTime keys w :
  0 <= Extended.totalDistance w ->
  Extended.currentCoal w = coalAfter (Extended.totalDistance w) ->
  0 <= Extended.totalDistance (Extended.updateShip deltaTime keys w) /\
  Extended.currentCoal (Extended.updateShip deltaTime keys w)
  = coalAfter (Extended.totalDistance (Extended.updateShip deltaTime keys w)).
Proof.
  intros Hd Hc.
  assert (Hc0 : 0 <= Extended.currentCoal w)
    by (rewrite Hc; apply Rmax_l).
  rewrite (Extended_updateShip_coal_closed _ _ _ Hc0),
    Extended_updateShip_distance, Hc.
  pose proof (Rabs_pos (speed (Extended.ship
                                 (Extended.updateShip deltaTime keys w)))) as Hv.
  set (v := Rabs _) in *. set (d := Extended.totalDistance w) in *.
  clearbody v d. split; [lra|].
  unfold coalAfter, coalConfig.maxCoal, coalConfig.depletionRate.
  unfold_config.
  assert (Hk : 0 <= 0.01 / 3.5 * v) by nra.
  split_minmax; lra.
Qed.

(** The three ways a frame of the extended variant goes. *)
Lemma Extended_gameLoop_cases currentTime now keys w w' :
  Extended.gameLoop currentTime now keys w = Some w' ->
  let w1 := Extended.set_animationTime (Extended.animationTime w + 0.5)
              (Extended.set_lastTime currentTime w) in
  let wu := Extended.updateShip
              (Math.min ((currentTime - Extended.lastTime w) / 16.67) 2)
              keys w1 in
  (Extended.gameRunning w = false /\ Extended.gameOver w = false /\
   Extended.gameWon w = false /\ w' = w) \/
  ((Extended.gameOver w = true \/ Extended.gameWon w = true) /\
   w' = Extended.drawGameOver (Extended.drawShip w1)) \/
  (Extended.gameRunning w = true /\ Extended.gameOver w = false /\
   Extended.gameWon w = false /\
   exists f',
     WorldGenerator.ensureIcebergsGenerated
       (Extended.canvas w) (Extended.camera wu) (Extended.field w) = Some f' /\
     w' = Extended.drawGameOver
            (Extended.drawShip
               (Extended.checkGoalReached now
                  (Extended.checkCollisions (Extended.set_field f' wu))))).
Proof.
  intros H w1 wu.
  destruct (Extended.gameOver w) eqn:Hover.
  { right; left.
    rewrite (Extended_gameLoop_terminal_eq _ _ _ _ (or_introl Hover)) in H.
    injection H as <-. auto. }
  destruct (Extended.gameWon w) eqn:Hwon.
  { right; left.
    rewrite (Extended_gameLoop_terminal_eq _ _ _ _ (or_intror Hwon)) in H.
    injection H as <-. auto. }
  destruct (Extended.gameRunning w) eqn:Hrun.
  - right; right.
    rewrite (Extended_gameLoop_running _ _ _ _ Hrun Hover Hwon) in H.
    fold w1 in H. fold wu in H.
    destruct (Extended.ensureIcebergsGenerated wu) as [w2|] eqn:Hens;
      [|discriminate].
    injection H as <-.
    apply Extended_ensure_inv in Hens as (f' & Hf & ->).
    destruct (Extended_updateShip_icebergs
                (Math.min ((currentTime - Extended.lastTime w) / 16.67) 2)
                keys w1) as (Hi & Hl & Hc & _).
    fold wu in Hi, Hl, Hc.
    assert (Hfield : Extended.field wu = Extended.field w).
    { unfold Extended.field. rewrite Hi, Hl. reflexivity. }
    rewrite Hfield, Hc in Hf.
    repeat split. exists f'. split; [exact Hf|reflexivity].
  - left. unfold Extended.gameLoop in H. rewrite Hrun, Hover, Hwon in H.
    injection H as <-. auto.
Qed.

(** The end of a running frame: collision check, goal check and drawing. *)
Lemma Extended_tail_sound now w :
  Extended.gameRunning w = true -> Extended.gameOver w = false ->
  Extended.gameWon w = false ->
  shipSound (Extended.ship w) ->
  0 <= Extended.totalDistance w ->
  Extended.currentCoal w = coalAfter (Extended.totalDistance w) ->
  generated (Extended.startPort w) = true ->
  generated (Extended.goal w) = true ->
  fieldGenerated (Extended.icebergs w) (Extended.loadedIcebergChunks w) ->
  extendedSound
    (ExtendedSession.drawWinScreen
       (Extended.drawGameOver
          (Extended.drawShip
             (Extended.checkGoalReached now (Extended.checkCollisions w))))).
Proof.
  destruct w as [running over won anim dist start wint coal g sp cam ices
                 loaded s last cv btn].
  destruct s as [sx sy rot spd acc rud].
  unfold shipSound. extended_world_cbn.
  intros -> -> -> Hs Hd Hc Hsp Hg Hf.
  unfold Extended.checkCollisions. extended_world_cbn.
  destruct (collisionLoop _ _).
  - unfold Extended.checkGoalReached. extended_world_cbn.
    unfold Extended.drawShip. extended_world_cbn.
    unfold Extended.drawGameOver. extended_world_cbn.
    unfold ExtendedSession.drawWinScreen. extended_world_cbn.
    unfold extendedSound, shipSound. extended_world_cbn.
    split; [reflexivity|]. split; [reflexivity|].
    split; [intros _; reflexivity|]. auto 10.
  - unfold Extended.checkGoalReached. extended_world_cbn.
    rewrite Hg. extended_world_cbn. case_decide.
    + unfold Extended.drawShip. extended_world_cbn.
      unfold Extended.drawGameOver. extended_world_cbn.
      unfold ExtendedSession.drawWinScreen. extended_world_cbn.
      unfold extendedSound, shipSound. extended_world_cbn.
      split; [reflexivity|]. split; [reflexivity|].
      split; [intros _; reflexivity|]. auto 10.
    + unfold Extended.drawShip. extended_world_cbn.
      unfold Extended.drawGameOver. extended_world_cbn.
      unfold ExtendedSession.drawWinScreen. extended_world_cbn.
      unfold extendedSound, shipSound. extended_world_cbn.
      split; [reflexivity|]. split; [reflexivity|].
      split; [intros [=]|]. auto 10.
Qed.

(** A frame in a terminal state. *)
Lemma Extended_terminal_frame_sound w1 :
  Extended.gameOver w1 = true \/ Extended.gameWon w1 = true ->
  extendedSound w1 ->
  forall anim last,
    extendedSound
      (ExtendedSession.drawWinScreen
         (Extended.drawGameOver
            (Extended.drawShip
               (Extended.set_animationTime anim
                  (Extended.set_lastTime last w1))))).
Proof.
  intros Hterm (Hflags & Hboth & _ & Hs & Hd & Hc & Hsp & Hg & Hf) anim' last'.
  destruct w1 as [running over won anim dist start wint coal g sp cam ices
                  loaded s last cv btn].
  cbn [Extended.gameRunning Extended.gameOver Extended.gameWon Extended.ship
       Extended.totalDistance Extended.currentCoal Extended.startPort
       Extended.goal Extended.icebergs Extended.loadedIcebergChunks] in *.
  unfold extendedSound, ExtendedSession.drawWinScreen, Extended.drawGameOver,
    Extended.drawShip, shipSound in *.
  destruct s as [sx sy rot spd acc rud]. extended_world_cbn.
  destruct over, won; extended_world_cbn; try discriminate;
    try (destruct Hterm; discriminate);
    (split; [exact Hflags|]); (split; [reflexivity|]);
    (split; [intros _; reflexivity|]);
    (split; [exact Hs|]); (split; [exact Hd|]); (split; [exact Hc|]);
    (split; [exact Hsp|]); (split; [exact Hg|exact Hf]).
Qed.

Lemma Extended_frame_sound currentTime now keys w w' :
  ExtendedSession.frame currentTime now keys w = Some w' ->
  extendedSound w -> extendedSound w'.
Proof.
  unfold ExtendedSession.frame.
  destruct (Extended.gameLoop currentTime now keys w) as [wg|] eqn:H;
    [|discriminate].
  cbn [mbind option_bind]. intros [= <-] Hw.
  destruct (Extended_gameLoop_cases _ _ _ _ _ H)
    as [(_ & _ & Hwon & ->) | [(Hterm & ->) |
        (Hrun & Hover & Hwon & f' & Hf & ->)]].
  - unfold ExtendedSession.drawWinScreen. rewrite Hwon. exact Hw.
  - apply Extended_terminal_frame_sound; assumption.
  - destruct Hw as (_ & _ & _ & Hs & Hd & Hc & Hsp & Hg & Hfield).
    set (deltaTime := Math.min _ _) in *.
    set (w1 := Extended.set_animationTime _ _) in *.
    set (wu := Extended.updateShip deltaTime keys w1) in *.
    destruct (Extended_updateShip_icebergs deltaTime keys w1)
      as (_ & _ & _ & Hgo & Hgw).
    fold wu in Hgo, Hgw.
    destruct (Extended_updateShip_coalAfter deltaTime keys w1 Hd Hc)
      as [Hd' Hc']. fold wu in Hd', Hc'.
    apply Extended_tail_sound.
    + change (Extended.gameRunning (Extended.set_field f' wu))
        with (Extended.gameRunning wu).
      unfold wu, Extended.updateShip. destruct (turnAboutPivot _ _ _ _).
      exact Hrun.
    + change (Extended.gameOver (Extended.set_field f' wu))
        with (Extended.gameOver wu). rewrite Hgo. exact Hover.
    + change (Extended.gameWon (Extended.set_field f' wu))
        with (Extended.gameWon wu). rewrite Hgw. exact Hwon.
    + change (Extended.ship (Extended.set_field f' wu)) with (Extended.ship wu).
      apply Extended_updateShip_sound. exact Hs.
    + exact Hd'.
    + exact Hc'.
    + change (Extended.startPort (Extended.set_field f' wu))
        with (Extended.startPort wu).
      unfold wu. rewrite Extended_updateShip_startPort. exact Hsp.
    + change (Extended.goal (Extended.set_field f' wu))
        with (Extended.goal wu).
      unfold wu, Extended.updateShip. destruct (turnAboutPivot _ _ _ _).
      exact Hg.
    + change (Extended.icebergs (Extended.set_field f' wu))
        with (WorldGenerator.f_icebergs f').
      change (Extended.loadedIcebergChunks (Extended.set_field f' wu))
        with (WorldGenerator.f_loaded f').
      eapply ensure_fieldGenerated; [exact Hf|exact Hfield].
Qed.

(** ** Restart *)

Lemma placeOnEdge_indep edge p q draws :
  (0 <= edge <= 3)%Z -> generated q = generated p ->
  placeOnEdge edge q draws = placeOnEdge edge p draws.
Proof.
  intros Hedge Hgen. unfold placeOnEdge.
  destruct edge as [|[[e|e|]|[e|e|]|]|e]; try lia; rewrite Hgen; reflexivity.
Qed.

Lemma placeOnEdge_draws edge p draws p' draws' :
  placeOnEdge edge p draws = Some (p', draws') ->
  unitDraws draws -> unitDraws draws'.
Proof.
  unfold placeOnEdge, unitDraws.
  destruct edge as [|[[e|e|]|[e|e|]|]|e]; destruct draws as [|r rest];
    intros [= <- <-] H; try exact H; inversion H; assumption.
Qed.

Lemma chooseGoalEdge_range startPortEdge startGenerated draws edge rest :
  unitDraws draws ->
  chooseGoalEdge startPortEdge startGenerated draws = Some (edge, rest) ->
  (0 <= edge <= 3)%Z /\ unitDraws rest.
Proof.
  unfold unitDraws. induction draws as [|r draws IH]; intros Hunit; simpl.
  - discriminate.
  - inversion Hunit as [|? ? Hr Hrest]; subst.
    destruct (bool_decide _ && startGenerated).
    + apply IH. exact Hrest.
    + intros [= <- <-]. split; [apply edge_of_draw; exact Hr|exact Hrest].
Qed.

Lemma Extended_restartGame_sound now now' draws w w' draws' :
  Extended.restartGame now now' draws w = Some (w', draws') ->
  extendedSound w' /\ Extended.canvas w' = Extended.canvas w.
Proof.
  unfold Extended.restartGame.
  destruct (Extended.generateStartPort _ _) as [[w1 d1]|] eqn:H1;
    [|discriminate].
  cbn [mbind option_bind].
  destruct (Extended.generateGoal d1 w1) as [[w2 d2]|] eqn:H2;
    [|discriminate].
  cbn [mbind option_bind]. intros [= <- <-].
  apply generateStartPort_inv in H1 as (r & ed & p & rx & ry & _ & _ & ->).
  apply generateGoal_inv in H2 as (edge & rest & g & _ & _ & ->).
  split; [|reflexivity]. unfold extendedSound.
  cbn [Extended.gameRunning Extended.gameOver Extended.gameWon Extended.ship
       Extended.totalDistance Extended.currentCoal Extended.startPort
       Extended.goal Extended.icebergs Extended.loadedIcebergChunks
       Extended.gameOverButton Extended.canvas
       Extended.set_lastTime Extended.set_winTime Extended.set_gameStartTime
       Extended.set_currentCoal Extended.set_totalDistance
       Extended.set_animationTime Extended.set_goal Extended.set_camera
       Extended.set_startPort Extended.set_loadedIcebergChunks
       Extended.set_icebergs Extended.set_ship Extended.set_gameRunning
       Extended.set_gameWon Extended.set_gameOver generated orb andb negb].
  rewrite coalAfter_0.
  repeat split; [discriminate|apply shipSound_at_rest..|lra|
                 apply fieldGenerated_empty].
Qed.

Lemma Extended_initialWorld_sound cv now draws w0 rest :
  Extended.initialWorld cv now draws = Some (w0, rest) ->
  extendedSound w0 /\ Extended.canvas w0 = cv.
Proof.
  unfold Extended.initialWorld.
  destruct (Extended.generateStartPort _ _) as [[w1 d1]|] eqn:H1;
    [|discriminate].
  cbn [mbind option_bind].
  destruct (Extended.generateGoal d1 w1) as [[w2 d2]|] eqn:H2;
    [|discriminate].
  cbn [mbind option_bind]. intros [= <- <-].
  apply generateStartPort_inv in H1 as (r & ed & p & rx & ry & _ & _ & ->).
  apply generateGoal_inv in H2 as (edge & rest' & g & _ & _ & ->).
  split; [|reflexivity]. unfold extendedSound.
  cbn [Extended.gameRunning Extended.gameOver Extended.gameWon Extended.ship
       Extended.totalDistance Extended.currentCoal Extended.startPort
       Extended.goal Extended.icebergs Extended.loadedIcebergChunks
       Extended.gameOverButton Extended.canvas Extended.declaredWorld
       Extended.set_gameStartTime Extended.set_goal Extended.set_camera
       Extended.set_startPort generated orb andb negb].
  rewrite coalAfter_0.
  repeat split; [discriminate|apply shipSound_at_rest..|lra|
                 apply fieldGenerated_empty].
Qed.

Lemma Extended_step_sound e w w' :
  ExtendedSession.step e w = Some w' -> extendedSound w -> extendedSound w'.
Proof.
  destruct e as [currentTime now keys | x y now now' draws];
    cbn [ExtendedSession.step].
  - apply Extended_frame_sound.
  - unfold ExtendedSession.click.
    destruct (negb _ && negb _); [intros [= <-]; auto|].
    destruct (Extended.gameOverButton w) as [b|]; [|intros [= <-]; auto].
    destruct (insideButton x y b); [|intros [= <-]; auto].
    destruct (Extended.restartGame now now' draws w) as [[wr dr]|] eqn:Hr;
      [|discriminate].
    cbn [fmap option_fmap option_map fst]. intros [= <-] _.
    apply (Extended_restartGame_sound _ _ _ _ _ _ Hr).
Qed.

Lemma Extended_reachable_sound w : extendedReachable w -> extendedSound w.
Proof.
  intros (cv & now & draws & w0 & rest & events & Hinit & Hrun).
  unfold ExtendedSession.run in Hrun.
  eapply (forEach_preserves _ extendedSound); [|idtac|exact Hrun].
  - intros e v v' Hstep Hv. eapply Extended_step_sound; eassumption.
  - apply (Extended_initialWorld_sound _ _ _ _ _ Hinit).
Qed.

(** ** What holds throughout a session *)

Lemma Simple_reachable_initial cv now :
  simpleReachable (Simple.initialWorld cv now).
Proof. exists cv, now, []. reflexivity. Qed.

(** A session of the extended variant that has an iceberg: the start-up of
    [Extended_initialWorld_example] and one frame. *)
Lemma Extended_reachable_example :
  exists w iceberg,
    extendedReachable w /\ iceberg ∈ Extended.icebergs w.
Proof.
  destruct Extended_first_frame_example
    as (w0 & Hinit & _ & _ & _ & _ & _ & _ & Hframe).
  destruct (Hframe 16 16 (mkKeys false false false false))
    as (w1 & b & Hloop & _ & Hb & _).
  exists (ExtendedSession.drawWinScreen w1), b. split.
  - exists (mkCanvas 800 600), 0, [0; 0; 0.5; 0.5; 0.25; 0], w0, [],
      [ExtendedSession.Frame 16 16 (mkKeys false false false false)].
    split; [exact Hinit|].
    unfold ExtendedSession.run.
    cbn [forEach ExtendedSession.step]. unfold ExtendedSession.frame.
    rewrite Hloop. reflexivity.
  - unfold ExtendedSession.drawWinScreen. destruct (negb _); exact Hb.
Qed.

Lemma Extended_reachable_initial :
  exists w, extendedReachable w.
Proof.
  destruct Extended_initialWorld_example as (w0 & Hinit & _).
  exists w0, (mkCanvas 800 600), 0, [0; 0; 0.5; 0.5; 0.25; 0], w0, [], [].
  split; [exact Hinit|reflexivity].
Qed.

Lemma fieldGenerated_facts ices loaded iceberg :
  fieldGenerated ices loaded -> iceberg ∈ ices ->
  chunkOf (ice_x iceberg) (ice_y iceberg) ∈ loaded /\
  icebergsConfig.minSize <= size iceberg < icebergsConfig.maxSize /\
  (6 <= pointCount iceberg <= 11)%Z /\
  WorldGenerator.startSafeRadius
    <= euclid (ice_x iceberg) (ice_y iceberg) 0 0 /\
  (fst (chunkOf (ice_x iceberg) (ice_y iceberg)) * 1000
   + snd (chunkOf (ice_x iceberg) (ice_y iceberg)) <= seed iceberg)%Z.
Proof.
  intros Hgen Hin. destruct (Hgen _ Hin) as (cx & cy & i & Hkey & Hc).
  pose proof Hc as [Hi _].
  destruct (candidateOf_facts _ _ _ _ Hc) as (-> & Hsize & Hpts & -> & Hfar).
  cbn [fst snd]. repeat split; try assumption; try tauto; lia.
Qed.

(** X7. Throughout a session (frames, collisions, wins, clicks and
    restarts, from the start-up of the page) every iceberg of the list
    came out of the generator for a chunk that is marked loaded: it lies in
    the 500 x 500 square of that chunk, its size is in [30, 80), it has 6
    to 11 outline points, its seed is at least the seed of its chunk, and
    it is no nearer than [startSafeRadius] to the world origin.  Both
    variants. *)
Theorem X7_session_icebergs_come_from_loaded_chunks :
  (forall w iceberg,
     simpleReachable w -> iceberg ∈ Simple.icebergs w ->
     chunkOf (ice_x iceberg) (ice_y iceberg) ∈ Simple.loadedIcebergChunks w /\
     icebergsConfig.minSize <= size iceberg < icebergsConfig.maxSize /\
     (6 <= pointCount iceberg <= 11)%Z /\
     WorldGenerator.startSafeRadius
       <= euclid (ice_x iceberg) (ice_y iceberg) 0 0 /\
     (fst (chunkOf (ice_x iceberg) (ice_y iceberg)) * 1000
      + snd (chunkOf (ice_x iceberg) (ice_y iceberg)) <= seed iceberg)%Z) /\
  (forall w iceberg,
     extendedReachable w -> iceberg ∈ Extended.icebergs w ->
     chunkOf (ice_x iceberg) (ice_y iceberg) ∈ Extended.loadedIcebergChunks w /\
     icebergsConfig.minSize <= size iceberg < icebergsConfig.maxSize /\
     (6 <= pointCount iceberg <= 11)%Z /\
     WorldGenerator.startSafeRadius
       <= euclid (ice_x iceberg) (ice_y iceberg) 0 0 /\
     (fst (chunkOf (ice_x iceberg) (ice_y iceberg)) * 1000
      + snd (chunkOf (ice_x iceberg) (ice_y iceberg)) <= seed iceberg)%Z).
Proof.
  split; intros w iceberg Hreach Hin.
  - destruct (Simple_reachable_sound w Hreach) as (_ & _ & _ & Hgen).
    exact (fieldGenerated_facts _ _ _ Hgen Hin).
  - destruct (Extended_reachable_sound w Hreach)
      as (_ & _ & _ & _ & _ & _ & _ & _ & Hgen).
    exact (fieldGenerated_facts _ _ _ Hgen Hin).
Qed.

Lemma X7_session_icebergs_come_from_loaded_chunks_witness :
  exists w iceberg,
    extendedReachable w /\ iceberg ∈ Extended.icebergs w /\
    chunkOf (ice_x iceberg) (ice_y iceberg) ∈ Extended.loadedIcebergChunks w.
Proof.
  destruct Extended_reachable_example as (w & iceberg & Hreach & Hin).
  exists w, iceberg. split; [exact Hreach|]. split; [exact Hin|].
  exact (proj1 (proj2 X7_session_icebergs_come_from_loaded_chunks
                  w iceberg Hreach Hin)).
Defined.






(** ** The restart button *)




(** The two end screens store the same rectangle, so the order of their
    writes does not matter. *)
Lemma Extended_end_screens_commute w :
  ExtendedSession.drawWinScreen (Extended.drawGameOver w)
  = Extended.drawGameOver (ExtendedSession.drawWinScreen w).
Proof.
  unfold ExtendedSession.drawWinScreen, Extended.drawGameOver.
  destruct w as [running over won anim dist start wint coal g sp cam ices
                 loaded s last cv btn].
  destruct over, won; reflexivity.
Qed.

(** X11. A restart is a fresh start.  With draws that [Math.random] can
    return, whenever the start-up of the page on the same canvas, clock and
    draws gives a world, [restartGame] called in any world gives that same
    world: same start port, goal, ship position, flags, coal, distance,
    start time, empty iceberg list and loaded set.  Only the last frame
    time (read again), the stored button and the screen position cached in
    [ship] are carried over.  The simple variant likewise returns to its
    initial world. *)
Theorem X11_restart_is_a_fresh_start :
  (forall cv now now' draws w w0 rest,
     unitDraws draws ->
     Extended.canvas w = cv ->
     Extended.initialWorld cv now draws = Some (w0, rest) ->
     Extended.restartGame now now' draws w
     = Some (Extended.set_lastTime now'
               (Extended.set_gameOverButton (Extended.gameOverButton w)
                  (Extended.set_ship
                     (mkShip (screenX (Extended.ship w))
                             (screenY (Extended.ship w))
                             (- Math.PI / 2) 0 0 0) w0)), rest)) /\
  (forall now w,
     Simple.restartGame now w
     = Simple.set_gameOverButton (Simple.gameOverButton w)
         (Simple.set_ship
            (mkShip (screenX (Simple.ship w)) (screenY (Simple.ship w))
                    (- Math.PI / 2) 0 0 0)
            (Simple.initialWorld (Simple.canvas w) now))).
Proof.
  split; [|intros now w; reflexivity].
  intros cv now now' draws w w0 rest Hunit Hcv Hinit.
  unfold Extended.initialWorld in Hinit.
  destruct (Extended.generateStartPort draws (Extended.declaredWorld cv now))
    as [[w1 d1]|] eqn:H1; [|discriminate].
  cbn [mbind option_bind] in Hinit.
  destruct (Extended.generateGoal d1 w1) as [[w2 d2]|] eqn:H2;
    [|discriminate].
  cbn [mbind option_bind] in Hinit. injection Hinit as <- <-.
  apply generateStartPort_inv in H1 as (r & ed & p & rx & ry & -> & Hplace & ->).
  apply generateGoal_inv in H2 as (edge & rest' & g & Hchoose & Hplaceg & ->).
  cbn [Extended.startPort Extended.goal Extended.set_camera
       Extended.set_startPort generated] in Hchoose, Hplaceg.
  inversion Hunit as [|? ? Hr Hed]; subst.
  pose proof (edge_of_draw r Hr) as He.
  pose proof (placeOnEdge_draws _ _ _ _ _ Hplace Hed) as Hd1.
  inversion Hd1 as [|? ? _ Hd1']; subst.
  inversion Hd1' as [|? ? _ Hd1'']; subst.
  destruct (chooseGoalEdge_range _ _ _ _ _ Hd1'' Hchoose) as [Hedge _].
  unfold Extended.restartGame, Extended.generateStartPort.
  rewrite (placeOnEdge_indep _ (Extended.startPort
                                  (Extended.declaredWorld (Extended.canvas w)
                                     now)) _ ed He)
    by reflexivity.
  rewrite Hplace. cbn [mbind option_bind].
  unfold Extended.generateGoal.
  cbn [Extended.startPort Extended.set_camera Extended.set_startPort generated].
  rewrite Hchoose. cbn [mbind option_bind].
  rewrite (placeOnEdge_indep _ (Extended.goal
                                  (Extended.declaredWorld (Extended.canvas w)
                                     now)) _ rest' Hedge)
    by reflexivity.
  rewrite Hplaceg. cbn [mbind option_bind].
  destruct w as [running over won anim dist start wint coal g0 sp cam ices
                 loaded s last cv btn].
  reflexivity.
Qed.

Lemma X11_restart_is_a_fresh_start_witness :
  exists w0,
    Extended.initialWorld (mkCanvas 800 600) 0 [0; 0; 0.5; 0.5; 0.25; 0]
      = Some (w0, []) /\
    Extended.restartGame 0 7 [0; 0; 0.5; 0.5; 0.25; 0]
      (Extended.set_gameOver true
         (Extended.declaredWorld (mkCanvas 800 600) 3))
    = Some (Extended.set_lastTime 7
              (Extended.set_gameOverButton None
                 (Extended.set_ship (mkShip 0 0 (- Math.PI / 2) 0 0 0) w0)),
            []).
Proof.
  destruct Extended_initialWorld_example as (w0 & Hinit & _).
  exists w0. split; [exact Hinit|].
  apply (proj1 X11_restart_is_a_fresh_start (mkCanvas 800 600) 0 7
           [0; 0; 0.5; 0.5; 0.25; 0]
           (Extended.set_gameOver true
              (Extended.declaredWorld (mkCanvas 800 600) 3))
           w0 []).
  - unfold unitDraws. repeat constructor; lra.
  - reflexivity.
  - exact Hinit.
Defined.

(** ** The iceberg list as a function of the loaded chunks *)






Lemma Extended_initialWorld_field cv now draws w0 rest :
  Extended.initialWorld cv now draws = Some (w0, rest) ->
  Extended.icebergs w0 = [] /\ Extended.loadedIcebergChunks w0 = ∅ /\
  Extended.canvas w0 = cv.
Proof.
  unfold Extended.initialWorld.
  destruct (Extended.generateStartPort _ _) as [[w1 d1]|] eqn:H1;
    [|discriminate].
  cbn [mbind option_bind].
  destruct (Extended.generateGoal d1 w1) as [[w2 d2]|] eqn:H2;
    [|discriminate].
  cbn [mbind option_bind]. intros [= <- <-].
  apply generateStartPort_inv in H1 as (r & ed & p & rx & ry & _ & _ & ->).
  apply generateGoal_inv in H2 as (edge & rest' & g & _ & _ & ->).
  repeat split.
Qed.

Lemma Extended_drawWinScreen_field w :
  Extended.field (ExtendedSession.drawWinScreen w) = Extended.field w /\
  Extended.canvas (ExtendedSession.drawWinScreen w) = Extended.canvas w /\
  Extended.camera (ExtendedSession.drawWinScreen w) = Extended.camera w.
Proof.
  unfold ExtendedSession.drawWinScreen. destruct (negb _); auto.
Qed.




(** ** The visible area and the loaded chunks *)

Lemma floor_le_ceil (x : R) : (Math.floor x <= Math.ceil x)%Z.
Proof.
  destruct (floor_spec x) as [Hlo _].
  destruct (floor_spec (- x)) as [Hlo' _].
  unfold Math.ceil, Math.floor in *. apply le_IZR. rewrite opp_IZR. lra.
Qed.

(** The chunk of a point of the viewport is among the visited ones. *)
Lemma inViewport_visited canvas camera x y :
  inViewport canvas camera x y -> visited canvas camera (chunkOf x y).
Proof.
  intros [[Hx1 Hx2] [Hy1 Hy2]].
  unfold visited, chunkOf, WorldGenerator.chunkRangeX,
    WorldGenerator.chunkRangeY. cbn [fst snd].
  assert (Hg : 0 < icebergGridSize) by (unfold icebergGridSize; lra).
  assert (Hdiv : forall a b, a <= b -> a / icebergGridSize <= b / icebergGridSize).
  { intros a b Hab. unfold Rdiv. apply Rmult_le_compat_r; [|exact Hab].
    apply Rlt_le, Rinv_0_lt_compat, Hg. }
  repeat split.
  - apply floor_mono, Hdiv, Hx1.
  - etrans; [apply floor_mono, Hdiv, Hx2|apply floor_le_ceil].
  - apply floor_mono, Hdiv, Hy1.
  - etrans; [apply floor_mono, Hdiv, Hy2|apply floor_le_ceil].
Qed.

(** X13. When a frame of a running game is drawn, every point of the
    visible area (the canvas rectangle centred on the camera, after the
    ship has moved) lies in a chunk that is marked loaded; by X12 the
    icebergs of that chunk are then all in the list.  Both variants. *)
Theorem X13_visible_area_is_generated :
  (forall currentTime keys w w' x y,
     Simple.gameRunning w = true -> Simple.gameOver w = false ->
     Simple.gameLoop currentTime keys w = Some w' ->
     inViewport (Simple.canvas w') (Simple.camera w') x y ->
     chunkOf x y ∈ Simple.loadedIcebergChunks w') /\
  (forall currentTime now keys w w' x y,
     Extended.gameRunning w = true -> Extended.gameOver w = false ->
     Extended.gameWon w = false ->
     ExtendedSession.frame currentTime now keys w = Some w' ->
     inViewport (Extended.canvas w') (Extended.camera w') x y ->
     chunkOf x y ∈ Extended.loadedIcebergChunks w').
Proof.
  split.
  - intros currentTime keys w w' x y Hrun Hover Hloop Hview.
    destruct (Simple_gameLoop_cases _ _ _ _ Hloop)
      as [(Hrun' & _) | [(Hover' & _) | (_ & _ & f' & Hf & ->)]];
      [congruence..|].
    set (wu := Simple.updateShip _ _ _) in *.
    destruct (Simple_tail_field (Simple.set_field f' wu)) as (Hfield & Hcv & Hcam).
    rewrite Hcv, Hcam in Hview.
    unfold Simple.field in Hfield. injection Hfield as _ ->.
    change (Simple.loadedIcebergChunks (Simple.set_field f' wu))
      with (WorldGenerator.f_loaded f').
    change (Simple.canvas (Simple.set_field f' wu)) with (Simple.canvas wu)
      in Hview.
    change (Simple.camera (Simple.set_field f' wu)) with (Simple.camera wu)
      in Hview.
    assert (Hc : Simple.canvas wu = Simple.canvas w).
    { unfold wu.
      rewrite (proj1 (proj2 (proj2 (Simple_updateShip_icebergs _ _ _)))).
      reflexivity. }
    rewrite Hc in Hview.
    apply (ensure_loaded _ _ _ _ Hf). apply inViewport_visited. exact Hview.
  - intros currentTime now keys w w' x y Hrun Hover Hwon Hframe Hview.
    unfold ExtendedSession.frame in Hframe.
    destruct (Extended.gameLoop currentTime now keys w) as [wg|] eqn:Hloop;
      [|discriminate].
    cbn [mbind option_bind] in Hframe. injection Hframe as <-.
    destruct (Extended_drawWinScreen_field wg) as (Hwf & Hwc & Hwcam).
    rewrite Hwc, Hwcam in Hview.
    unfold Extended.field in Hwf. injection Hwf as _ ->.
    destruct (Extended_gameLoop_cases _ _ _ _ _ Hloop)
      as [(Hrun' & _) | [([Hover' | Hwon'] & _) |
          (_ & _ & _ & f' & Hf & ->)]];
      [congruence..|].
    set (wu := Extended.updateShip _ _ _) in *.
    destruct (Extended_tail_field now (Extended.set_field f' wu))
      as (Hfield & Hcv & Hcam & _).
    rewrite Hcv, Hcam in Hview.
    unfold Extended.field in Hfield. injection Hfield as _ ->.
    change (Extended.loadedIcebergChunks (Extended.set_field f' wu))
      with (WorldGenerator.f_loaded f').
    change (Extended.canvas (Extended.set_field f' wu))
      with (Extended.canvas wu) in Hview.
    change (Extended.camera (Extended.set_field f' wu))
      with (Extended.camera wu) in Hview.
    assert (Hc : Extended.canvas wu = Extended.canvas w).
    { unfold wu.
      rewrite (proj1 (proj2 (proj2 (Extended_updateShip_icebergs _ _ _)))).
      reflexivity. }
    rewrite Hc in Hview.
    apply (ensure_loaded _ _ _ _ Hf). apply inViewport_visited. exact Hview.
Qed.

Lemma X13_visible_area_is_generated_witness :
  exists w w',
    ExtendedSession.frame 16 16 (mkKeys false false false false) w = Some w' /\
    chunkOf (cam_x (Extended.camera w')) (cam_y (Extended.camera w'))
      ∈ Extended.loadedIcebergChunks w'.
Proof.
  destruct Extended_first_frame_example
    as (w0 & Hinit & _ & _ & Hrun & Hover & Hwon & _ & Hframe).
  destruct (Hframe 16 16 (mkKeys false false false false))
    as (w1 & b & Hloop & _).
  assert (Hf : ExtendedSession.frame 16 16 (mkKeys false false false false) w0
               = Some (ExtendedSession.drawWinScreen w1))
    by (unfold ExtendedSession.frame; rewrite Hloop; reflexivity).
  exists w0, (ExtendedSession.drawWinScreen w1). split; [exact Hf|].
  apply (proj2 X13_visible_area_is_generated 16 16
           (mkKeys false false false false) w0 _ _ _ Hrun Hover Hwon Hf).
  destruct (Extended_drawWinScreen_field w1) as (_ & -> & _).
  destruct (Extended_gameLoop_field _ _ _ _ _ Hloop) as [-> _].
  destruct (Extended_initialWorld_field _ _ _ _ _ Hinit) as (_ & _ & ->).
  unfold inViewport. cbn [width height]. lra.
Defined.

(** ** How a frame ends the game *)

Lemma fieldGenerated_wellSized ices loaded :
  fieldGenerated ices loaded -> Forall wellSized ices.
Proof.
  intros Hgen. apply Forall_forall. intros b Hb.
  destruct (fieldGenerated_facts _ _ _ Hgen Hb) as (_ & Hsize & _).
  unfold wellSized. lra.
Qed.

(** The end of a running frame, read off the flags. *)
Lemma Extended_tail_outcome now w :
  Extended.gameOver w = false -> Extended.gameWon w = false ->
  generated (Extended.goal w) = true ->
  let w' := ExtendedSession.drawWinScreen
              (Extended.drawGameOver
                 (Extended.drawShip
                    (Extended.checkGoalReached now
                       (Extended.checkCollisions w)))) in
  Extended.gameOver w'
    = collisionLoop (Extended.camera w) (Extended.icebergs w) /\
  Extended.gameWon w'
    = negb (collisionLoop (Extended.camera w) (Extended.icebergs w))
      && bool_decide
           (euclid (cam_x (Extended.camera w)) (cam_y (Extended.camera w))
                   (port_x (Extended.goal w)) (port_y (Extended.goal w))
            < goalConfig.radius) /\
  (Extended.gameWon w' = true -> Extended.winTime w' = now) /\
  Extended.camera w' = Extended.camera w /\
  Extended.goal w' = Extended.goal w /\
  Extended.icebergs w' = Extended.icebergs w.
Proof.
  destruct w as [running over won anim dist start wint coal g sp cam ices
                 loaded s last cv btn].
  extended_world_cbn. intros -> -> Hg.
  unfold Extended.checkCollisions. extended_world_cbn.
  destruct (collisionLoop _ _).
  - unfold Extended.checkGoalReached. extended_world_cbn.
    unfold Extended.drawShip. extended_world_cbn.
    unfold Extended.drawGameOver. extended_world_cbn.
    unfold ExtendedSession.drawWinScreen. extended_world_cbn.
    repeat split. intros [=].
  - unfold Extended.checkGoalReached, euclid. extended_world_cbn.
    rewrite Hg. extended_world_cbn. case_decide as Hnear.
    + rewrite bool_decide_eq_true_2 by exact Hnear.
      unfold Extended.drawShip. extended_world_cbn.
      unfold Extended.drawGameOver. extended_world_cbn.
      unfold ExtendedSession.drawWinScreen. extended_world_cbn.
      repeat split.
    + rewrite bool_decide_eq_false_2 by exact Hnear.
      unfold Extended.drawShip. extended_world_cbn.
      unfold Extended.drawGameOver. extended_world_cbn.
      unfold ExtendedSession.drawWinScreen. extended_world_cbn.
      repeat split. intros [=].
Qed.

(** X14. How a frame of a running game of a session ends it (extended
    variant).  After the ship has moved and the visible chunks are
    generated, the frame leaves [gameOver] set exactly when some iceberg of
    the list is nearer to the ship than the sum of the two radii, and
    [gameWon] set exactly when no iceberg is and the ship is nearer than
    [goalConfig.radius] to the goal: a collision takes precedence over
    reaching the goal in the same frame.  A win records the clock in
    [winTime]. *)
Theorem X14_frame_outcome :
  forall currentTime now keys w w',
    extendedReachable w ->
    Extended.gameRunning w = true ->
    ExtendedSession.frame currentTime now keys w = Some w' ->
    (Extended.gameOver w' = true <->
     exists iceberg,
       iceberg ∈ Extended.icebergs w' /\
       distanceTo (Extended.camera w') iceberg < shipRadius + size iceberg) /\
    (Extended.gameWon w' = true <->
     Extended.gameOver w' = false /\
     euclid (cam_x (Extended.camera w')) (cam_y (Extended.camera w'))
            (port_x (Extended.goal w')) (port_y (Extended.goal w'))
       < goalConfig.radius) /\
    (Extended.gameWon w' = true -> Extended.winTime w' = now).
Proof.
  intros currentTime now keys w w' Hreach Hrun Hframe.
  destruct (Extended_reachable_sound w Hreach)
    as (Hflags & _ & _ & _ & _ & _ & _ & Hgoal & Hfield).
  unfold ExtendedSession.frame in Hframe.
  destruct (Extended.gameLoop currentTime now keys w) as [wg|] eqn:Hloop;
    [|discriminate].
  cbn [mbind option_bind] in Hframe. injection Hframe as <-.
  destruct (Extended_gameLoop_cases _ _ _ _ _ Hloop)
    as [(Hrun' & _) | [(Hterm & _) | (_ & Hover & Hwon & f' & Hf & ->)]].
  - congruence.
  - rewrite Hrun in Hflags.
    destruct Hterm as [Ht | Ht]; rewrite Ht in Hflags;
      destruct (Extended.gameOver w), (Extended.gameWon w); discriminate.
  - set (wu := Extended.updateShip _ _ _) in *.
    destruct (Extended_updateShip_icebergs
                (Math.min ((currentTime - Extended.lastTime w) / 16.67) 2) keys
                (Extended.set_animationTime (Extended.animationTime w + 0.5)
                   (Extended.set_lastTime currentTime w)))
      as (_ & _ & _ & Hgo & Hgw).
    fold wu in Hgo, Hgw.
    assert (Hgoal' : generated (Extended.goal (Extended.set_field f' wu)) = true).
    { change (Extended.goal (Extended.set_field f' wu))
        with (Extended.goal wu).
      unfold wu, Extended.updateShip. destruct (turnAboutPivot _ _ _ _).
      exact Hgoal. }
    destruct (Extended_tail_outcome now (Extended.set_field f' wu))
      as (Ho & Hw & Ht & Hcam & Hg & Hi);
      [change (Extended.gameOver wu = false); rewrite Hgo; exact Hover
      |change (Extended.gameWon wu = false); rewrite Hgw; exact Hwon
      |exact Hgoal'|].
    rewrite Ho, Hw, Hcam, Hg, Hi.
    assert (Hsizes : Forall wellSized
                       (Extended.icebergs (Extended.set_field f' wu))).
    { change (Extended.icebergs (Extended.set_field f' wu))
        with (WorldGenerator.f_icebergs f').
      eapply fieldGenerated_wellSized.
      eapply ensure_fieldGenerated; [exact Hf|exact Hfield]. }
    split; [|split].
    + apply collisionLoop_exact. exact Hsizes.
    + rewrite andb_true_iff, negb_true_iff, bool_decide_eq_true. tauto.
    + intros Hwin. apply Ht. rewrite Hw. exact Hwin.
Qed.

Lemma X14_frame_outcome_witness :
  exists w w',
    ExtendedSession.frame 16 16 (mkKeys false false false false) w = Some w' /\
    (Extended.gameWon w' = true -> Extended.winTime w' = 16).
Proof.
  destruct Extended_first_frame_example
    as (w0 & Hinit & _ & _ & Hrun & _ & _ & _ & Hframe).
  destruct (Hframe 16 16 (mkKeys false false false false))
    as (w1 & b & Hloop & _).
  assert (Hf : ExtendedSession.frame 16 16 (mkKeys false false false false) w0
               = Some (ExtendedSession.drawWinScreen w1))
    by (unfold ExtendedSession.frame; rewrite Hloop; reflexivity).
  exists w0, (ExtendedSession.drawWinScreen w1). split; [exact Hf|].
  refine (proj2 (proj2 (X14_frame_outcome 16 16
                          (mkKeys false false false false) w0 _ _ Hrun Hf))).
  exists (mkCanvas 800 600), 0, [0; 0; 0.5; 0.5; 0.25; 0], w0, [], [].
  split; [exact Hinit|reflexivity].
Defined.

(** ** Where the start port, the ship and the goal are put *)

Lemma onEdge_coords edge p q :
  port_x q = port_x p -> port_y q = port_y p -> onEdge edge p -> onEdge edge q.
Proof. intros Hx Hy. unfold onEdge. rewrite Hx, Hy. auto. Qed.

(** What the start-up leaves, in terms of the draws it consumed. *)
Lemma Extended_initialWorld_placement cv now draws w0 rest :
  unitDraws draws ->
  Extended.initialWorld cv now draws = Some (w0, rest) ->
  exists r0 r1 rx ry more edge,
    draws = r0 :: r1 :: rx :: ry :: more /\
    onEdge (Math.floor (r0 * 4)) (Extended.startPort w0) /\
    placeOnEdge (Math.floor (r0 * 4)) (mkPort 0 0 false) [r1]
      = Some (mkPort (port_x (Extended.startPort w0))
                     (port_y (Extended.startPort w0)) false, []) /\
    generated (Extended.startPort w0) = true /\
    Extended.camera w0
      = mkCamera (port_x (Extended.startPort w0)
                  + (rx - 0.5) * (goalConfig.radius + 50) * 0.5)
                 (port_y (Extended.startPort w0)
                  + (ry - 0.5) * (goalConfig.radius + 50) * 0.5) /\
    0 <= rx < 1 /\ 0 <= ry < 1 /\
    edge <> detectStartPortEdge (Extended.startPort w0) /\
    onEdge edge (Extended.goal w0) /\
    unitDraws rest.
Proof.
  intros Hunit Hinit. unfold Extended.initialWorld in Hinit.
  destruct (Extended.generateStartPort draws (Extended.declaredWorld cv now))
    as [[w1 d1]|] eqn:H1; [|discriminate].
  cbn [mbind option_bind] in Hinit.
  destruct (Extended.generateGoal d1 w1) as [[w2 d2]|] eqn:H2;
    [|discriminate].
  cbn [mbind option_bind] in Hinit. injection Hinit as <- <-.
  apply generateStartPort_inv in H1 as (r & ed & p & rx & ry & -> & Hplace & ->).
  apply generateGoal_inv in H2 as (edge & rest' & g & Hchoose & Hplaceg & ->).
  extended_world_cbn. cbn [Extended.declaredWorld] in Hplace.
  extended_world_cbn.
  inversion Hunit as [|? ? Hr Hed]; subst.
  pose proof (edge_of_draw r Hr) as He.
  destruct ed as [|r1 ed].
  { exfalso. revert Hplace. unfold placeOnEdge.
    destruct (Math.floor (r * 4)) as [|[[q|q|]|[q|q|]|]|q]; try lia;
      discriminate. }
  inversion Hed as [|? ? Hr1 Hed']; subst.
  destruct (placeOnEdge_onEdge _ _ _ _ _ _ He Hr1 Hplace) as [Hon Heq].
  subst ed.
  inversion Hed' as [|? ? Hrx Hed'']; subst.
  inversion Hed'' as [|? ? Hry Hd1]; subst.
  destruct (chooseGoalEdge_range _ _ _ _ _ Hd1 Hchoose) as [Hedge Hrest'].
  pose proof (chooseGoalEdge_differs _ _ _ _ Hchoose) as Hdiff.
  destruct rest' as [|rg rest'].
  { exfalso. revert Hplaceg. unfold placeOnEdge.
    destruct edge as [|[[q|q|]|[q|q|]|]|q]; try lia; discriminate. }
  inversion Hrest' as [|? ? Hrg Hrest]; subst.
  destruct (placeOnEdge_onEdge _ _ _ _ _ _ Hedge Hrg Hplaceg) as [Hong Heqg].
  subst rest'.
  exists r, r1, rx, ry, d1, edge.
  split; [reflexivity|]. split; [eapply onEdge_coords; [..|exact Hon]; reflexivity|].
  split.
  { revert Hplace. unfold placeOnEdge.
    destruct (Math.floor (r * 4)) as [|[[q|q|]|[q|q|]|]|q]; try lia;
      intros [= <-]; reflexivity. }
  split; [reflexivity|]. split; [reflexivity|].
  split; [exact Hrx|]. split; [exact Hry|].
  split; [exact Hdiff|].
  split; [eapply onEdge_coords; [..|exact Hong]; reflexivity|exact Hrest].
Qed.

Lemma onEdge_inside edge p :
  onEdge edge p ->
  goalConfig.edgeOffset <= port_x p <= worldConfig.width - goalConfig.edgeOffset /\
  goalConfig.edgeOffset <= port_y p <= worldConfig.height - goalConfig.edgeOffset.
Proof.
  unfold onEdge, goalConfig.edgeOffset, worldConfig.width, worldConfig.height.
  destruct edge as [|[[q|q|]|[q|q|]|]|q]; try tauto; intros [-> H]; lra.
Qed.

(** An island is drawn whenever a point of the viewport is within the
    margin of its port. *)
Lemma drawPort_in_view canvas camera port x y :
  generated port = true ->
  inViewport canvas camera x y ->
  euclid x y (port_x port) (port_y port) <= goalConfig.radius + 50 ->
  drawPort canvas camera port
  = Some (port_x port - cam_x camera + IZR (width canvas) / 2,
          port_y port - cam_y camera + IZR (height canvas) / 2).
Proof.
  intros Hgen [[Hx1 Hx2] [Hy1 Hy2]] Hnear.
  unfold drawPort. rewrite Hgen. cbn [negb].
  set (m := goalConfig.radius + 50) in *.
  assert (Hm : 0 <= m) by (unfold m, goalConfig.radius; lra).
  assert (Hsq : (x - port_x port) * (x - port_x port)
                + (y - port_y port) * (y - port_y port) <= m * m).
  { unfold euclid in Hnear.
    pose proof (sum_of_squares_nonneg (x - port_x port) (y - port_y port)) as H0.
    set (d := (x - port_x port) * (x - port_x port)
              + (y - port_y port) * (y - port_y port)) in *.
    destruct (Rle_or_lt d (m * m)) as [|Hgt]; [assumption|].
    exfalso. assert (m < Math.sqrt d); [|lra].
    unfold Math.sqrt. rewrite <- (sqrt_square m Hm).
    apply sqrt_lt_1_alt. nra. }
  assert (Hbound : forall a b, a * a + b * b <= m * m -> - m <= a <= m).
  { intros a b Hab. pose proof (Rle_0_sqr b) as Hb. unfold Rsqr in Hb.
    split.
    - destruct (Rle_or_lt (- m) a) as [|Hlt]; [assumption|].
      exfalso. assert (m * m < a * a) by nra. lra.
    - destruct (Rle_or_lt a m) as [|Hlt]; [assumption|].
      exfalso. assert (m * m < a * a) by nra. lra. }
  assert (Hdx : - m <= x - port_x port <= m) by (eapply Hbound; exact Hsq).
  assert (Hdy : - m <= y - port_y port <= m).
  { apply (Hbound _ (x - port_x port)). lra. }
  rewrite !bool_decide_eq_false_2 by lra. reflexivity.
Qed.

(** X15. Where the start-up puts things, for draws that [Math.random]
    can return (by X11 a restart puts them the same way).  The start port
    and the goal are both marked generated and each lies on one of the four
    edge stretches, 300 inside the boundary of the world, so both island
    discs (radius 250) lie wholly inside the world; and the ship starts
    within 75 of the start port in each coordinate, hence inside the disc
    of the start port, and [drawStartPort] draws the island of the start
    port on the canvas. *)
Theorem X15_ports_on_edge_stretches_ship_on_start_port :
  forall cv now draws w0 rest,
    unitDraws draws ->
    Extended.initialWorld cv now draws = Some (w0, rest) ->
    generated (Extended.startPort w0) = true /\
    generated (Extended.goal w0) = true /\
    (exists edge, onEdge edge (Extended.startPort w0)) /\
    (exists edge, onEdge edge (Extended.goal w0)) /\
    (forall p,
       p = Extended.startPort w0 \/ p = Extended.goal w0 ->
       0 < port_x p - goalConfig.radius /\
       port_x p + goalConfig.radius < worldConfig.width /\
       0 < port_y p - goalConfig.radius /\
       port_y p + goalConfig.radius < worldConfig.height) /\
    Rabs (cam_x (Extended.camera w0) - port_x (Extended.startPort w0)) <= 75 /\
    Rabs (cam_y (Extended.camera w0) - port_y (Extended.startPort w0)) <= 75 /\
    euclid (cam_x (Extended.camera w0)) (cam_y (Extended.camera w0))
           (port_x (Extended.startPort w0)) (port_y (Extended.startPort w0))
      < goalConfig.radius /\
    ((0 <= width cv)%Z -> (0 <= height cv)%Z ->
     drawStartPort w0
     = Some (port_x (Extended.startPort w0) - cam_x (Extended.camera w0)
             + IZR (width cv) / 2,
             port_y (Extended.startPort w0) - cam_y (Extended.camera w0)
             + IZR (height cv) / 2)).
Proof.
  intros cv now draws w0 rest Hunit Hinit.
  destruct (Extended_initialWorld_sound _ _ _ _ _ Hinit)
    as [(_ & _ & _ & _ & _ & _ & Hsp & Hg & _) Hcv].
  assert (Hdraw : euclid (cam_x (Extended.camera w0))
                    (cam_y (Extended.camera w0))
                    (port_x (Extended.startPort w0))
                    (port_y (Extended.startPort w0)) < goalConfig.radius ->
                  (0 <= width cv)%Z -> (0 <= height cv)%Z ->
                  drawStartPort w0
                  = Some (port_x (Extended.startPort w0)
                          - cam_x (Extended.camera w0) + IZR (width cv) / 2,
                          port_y (Extended.startPort w0)
                          - cam_y (Extended.camera w0) + IZR (height cv) / 2)).
  { intros Hnear Hwd Hht. unfold drawStartPort. rewrite Hcv.
    apply (drawPort_in_view _ _ _ (cam_x (Extended.camera w0))
             (cam_y (Extended.camera w0)) Hsp).
    - apply IZR_le in Hwd, Hht. unfold inViewport. lra.
    - lra. }
  destruct (Extended_initialWorld_placement _ _ _ _ _ Hunit Hinit)
    as (r0 & r1 & rx & ry & more & edge & _ & Hon & _ & _ & Hcam & Hrx & Hry
        & _ & Hong & _).
  split; [exact Hsp|]. split; [exact Hg|].
  split; [eauto|]. split; [eauto|]. split.
  { intros p [-> | ->];
      [destruct (onEdge_inside _ _ Hon) | destruct (onEdge_inside _ _ Hong)];
      unfold goalConfig.edgeOffset, goalConfig.radius, worldConfig.width,
        worldConfig.height in *; lra. }
  rewrite Hcam in Hdraw |- *. cbn [cam_x cam_y] in Hdraw |- *.
  set (px := port_x (Extended.startPort w0)) in *.
  set (py := port_y (Extended.startPort w0)) in *. clearbody px py.
  unfold goalConfig.radius in Hdraw |- *.
  assert (Hdx : -75 <= px + (rx - 0.5) * (250 + 50) * 0.5 - px <= 75) by lra.
  assert (Hdy : -75 <= py + (ry - 0.5) * (250 + 50) * 0.5 - py <= 75) by lra.
  split; [apply Rabs_le; lra|]. split; [apply Rabs_le; lra|].
  assert (Hnear : euclid (px + (rx - 0.5) * (250 + 50) * 0.5)
                    (py + (ry - 0.5) * (250 + 50) * 0.5) px py < 250).
  { unfold euclid. apply sqrt_under; [apply sum_of_squares_nonneg|lra|nra]. }
  split; [exact Hnear|]. apply Hdraw. exact Hnear.
Qed.

Lemma X15_ports_on_edge_stretches_ship_on_start_port_witness :
  exists w0,
    Extended.initialWorld (mkCanvas 800 600) 0 [0; 0; 0.5; 0.5; 0.25; 0]
      = Some (w0, []) /\
    euclid (cam_x (Extended.camera w0)) (cam_y (Extended.camera w0))
           (port_x (Extended.startPort w0)) (port_y (Extended.startPort w0))
      < goalConfig.radius.
Proof.
  destruct Extended_initialWorld_example as (w0 & Hinit & _).
  exists w0. split; [exact Hinit|].
  refine (proj1 (proj2 (proj2 (proj2 (proj2 (proj2 (proj2 (proj2
            (X15_ports_on_edge_stretches_ship_on_start_port
               (mkCanvas 800 600) 0 [0; 0; 0.5; 0.5; 0.25; 0] w0 [] _
               Hinit))))))))).
  unfold unitDraws. repeat constructor; lra.
Defined.

(** X16. The goal is put on another edge than the start port whenever
    the start port is more than 10 units from both ends of its edge
    stretch.  Then [generateGoal] reads back from the position of the
    start port the edge [generateStartPort] chose, and places the goal on
    an edge different from it.  (Within 10 units of an end the read-back
    can name the neighbouring edge.) *)
Theorem X16_goal_on_another_edge_away_from_corners :
  forall cv now r0 r1 more w0 rest,
    unitDraws (r0 :: r1 :: more) ->
    10 < r1 * (worldConfig.width - goalConfig.edgeOffset * 2)
      < worldConfig.width - goalConfig.edgeOffset * 2 - 10 ->
    Extended.initialWorld cv now (r0 :: r1 :: more) = Some (w0, rest) ->
    onEdge (Math.floor (r0 * 4)) (Extended.startPort w0) /\
    detectStartPortEdge (Extended.startPort w0) = Math.floor (r0 * 4) /\
    exists edge,
      edge <> Math.floor (r0 * 4) /\ onEdge edge (Extended.goal w0).
Proof.
  intros cv now r0 r1 more w0 rest Hunit Haway Hinit.
  destruct (Extended_initialWorld_placement _ _ _ _ _ Hunit Hinit)
    as (r0' & r1' & rx & ry & more' & edge & Hdraws & Hon & Hplace & Hgen & _
        & _ & _ & Hdiff & Hong & _).
  injection Hdraws as <- <- _.
  inversion Hunit as [|? ? Hr0 _]; subst.
  pose proof (edge_of_draw r0 Hr0) as He.
  assert (Hdetect : detectStartPortEdge (Extended.startPort w0)
                    = Math.floor (r0 * 4)).
  { destruct (Extended.startPort w0) as [px py gen].
    cbn [port_x port_y generated] in *. subst gen.
    revert Hplace. unfold placeOnEdge, detectStartPortEdge.
    cbn [port_x port_y generated].
    unfold goalConfig.edgeOffset, worldConfig.width, worldConfig.height in *.
    destruct (Math.floor (r0 * 4)) as [|[[q|q|]|[q|q|]|]|q]; try lia;
      intros [= <- <-]; repeat case_decide; try reflexivity; exfalso; lra. }
  split; [exact Hon|]. split; [exact Hdetect|].
  exists edge. rewrite <- Hdetect. split; [exact Hdiff|exact Hong].
Qed.

Lemma X16_goal_on_another_edge_away_from_corners_witness :
  exists w0 rest,
    Extended.initialWorld (mkCanvas 800 600) 0 [0; 0.5; 0.5; 0.5; 0.25; 0]
      = Some (w0, rest) /\
    detectStartPortEdge (Extended.startPort w0) = Math.floor (0 * 4).
Proof.
  assert (H : exists w0 rest,
             Extended.initialWorld (mkCanvas 800 600) 0
               [0; 0.5; 0.5; 0.5; 0.25; 0] = Some (w0, rest)).
  { eexists. eexists.
    unfold Extended.initialWorld, Extended.generateStartPort.
    rewrite (floor_eq (0 * 4) 0) by (simpl; lra).
    cbn [placeOnEdge mbind option_bind Extended.declaredWorld
         Extended.startPort].
    unfold Extended.generateGoal. extended_world_cbn.
    unfold detectStartPortEdge. cbn [generated port_y].
    rewrite decide_True by (unfold goalConfig.edgeOffset; lra).
    cbn [chooseGoalEdge]. rewrite (floor_eq (0.25 * 4) 1) by (simpl; lra).
    rewrite bool_decide_eq_false_2 by lia.
    cbn [andb mbind option_bind placeOnEdge]. reflexivity. }
  destruct H as (w0 & rest & Hinit). exists w0, rest.
  split; [exact Hinit|].
  refine (proj1 (proj2 (X16_goal_on_another_edge_away_from_corners
                          (mkCanvas 800 600) 0 0 0.5 _ w0 rest _ _ Hinit))).
  - unfold unitDraws. repeat constructor; lra.
  - unfold worldConfig.width, goalConfig.edgeOffset. lra.
Defined.

(** ** Drawing the icebergs *)

Lemma polar_length (a r : R) :
  Math.sqrt ((Math.cos a * r) * (Math.cos a * r)
             + (Math.sin a * r) * (Math.sin a * r)) = Rabs r.
Proof.
  unfold Math.sqrt, Math.cos, Math.sin.
  replace ((cos a * r) * (cos a * r) + (sin a * r) * (sin a * r))
    with ((sin a * sin a + cos a * cos a) * (r * r)) by lra.
  pose proof (sin2_cos2 a) as H. unfold Rsqr in H. rewrite H, Rmult_1_l.
  fold (Rsqr r). apply sqrt_Rsqr_abs.
Qed.

Lemma icebergPoint_distance iceberg i :
  0 <= size iceberg ->
  (1 - icebergIrregularity) * size iceberg
  <= euclid (fst (icebergPoint iceberg i)) (snd (icebergPoint iceberg i)) 0 0
  <= (1 + icebergIrregularity) * size iceberg.
Proof.
  intros Hsize. unfold icebergPoint, euclid. cbn [fst snd].
  set (angle := IZR i * (Math.PI * 2 / IZR (pointCount iceberg))).
  set (h := Math.sin (IZR (seed iceberg) * 0.1 + angle) * 10000).
  pose proof (fracHash_range h) as Hf.
  set (fr := WorldGenerator.fracHash h) in *. clearbody fr.
  set (r := size iceberg * (1 + (fr - 0.5) * icebergIrregularity * 2)).
  replace ((Math.cos angle * r - 0) * (Math.cos angle * r - 0)
           + (Math.sin angle * r - 0) * (Math.sin angle * r - 0))
    with ((Math.cos angle * r) * (Math.cos angle * r)
          + (Math.sin angle * r) * (Math.sin angle * r)) by lra.
  rewrite polar_length. unfold r, icebergIrregularity.
  rewrite Rabs_right by nra. nra.
Qed.

Lemma inVisibleArea_onScreen canvas camera iceberg :
  inVisibleArea canvas camera iceberg = icebergOnScreen canvas camera iceberg.
Proof.
  unfold inVisibleArea, icebergOnScreen.
  set (W := IZR (width canvas)). set (H := IZR (height canvas)).
  apply eq_true_iff_eq.
  rewrite negb_true_iff, !orb_false_iff, !andb_true_iff,
    !bool_decide_eq_true, !bool_decide_eq_false.
  lra.
Qed.

(** X17. The outline [drawIceberg] computes.  [points] gets one vertex
    per outline point of the iceberg, and every vertex lies between
    [(1 - irregularity) * size] and [(1 + irregularity) * size] from the
    centre of the iceberg (0.6 and 1.4 times the radius the collision test
    uses).  The call draws a polygon exactly when the iceberg passes the
    on-screen test and has at least one outline point; on screen with none
    it throws at [points[0].x]. *)
Theorem X17_iceberg_outline :
  forall canvas camera iceberg,
    length (icebergPoints iceberg) = Z.to_nat (pointCount iceberg) /\
    (0 <= size iceberg ->
     forall p,
       p ∈ icebergPoints iceberg ->
       (1 - icebergIrregularity) * size iceberg
       <= euclid (fst p) (snd p) 0 0
       <= (1 + icebergIrregularity) * size iceberg) /\
    (drawIceberg canvas camera iceberg = OffScreen <->
     icebergOnScreen canvas camera iceberg = false) /\
    (drawIceberg canvas camera iceberg = Throws <->
     icebergOnScreen canvas camera iceberg = true /\
     (pointCount iceberg <= 0)%Z) /\
    ((exists first others,
        drawIceberg canvas camera iceberg = Polygon first others /\
        first :: others = icebergPoints iceberg) <->
     icebergOnScreen canvas camera iceberg = true /\
     (1 <= pointCount iceberg)%Z).
Proof.
  intros canvas camera iceberg.
  assert (Hlen : length (icebergPoints iceberg)
                 = Z.to_nat (pointCount iceberg)).
  { unfold icebergPoints. rewrite length_fmap, length_seqZ. reflexivity. }
  split; [exact Hlen|]. split.
  { intros Hsize p Hp. unfold icebergPoints in Hp.
    apply list_elem_of_fmap in Hp as (i & -> & _).
    apply icebergPoint_distance. exact Hsize. }
  unfold drawIceberg.
  destruct (icebergOnScreen canvas camera iceberg).
  - destruct (icebergPoints iceberg) as [|first others] eqn:Hpts;
      cbn [length] in Hlen.
    + split; [split; discriminate|]. split.
      * split; [intros _; split; [reflexivity|lia]|reflexivity].
      * split; [intros (f & o & H & _); discriminate|].
        intros [_ Hn]. lia.
    + split; [split; discriminate|]. split.
      * split; [discriminate|]. intros [_ Hn]. lia.
      * split; [intros _; split; [reflexivity|lia]|].
        intros _. exists first, others. split; reflexivity.
  - split; [split; reflexivity|]. split.
    + split; [discriminate|]. intros [H _]. discriminate.
    + split; [intros (f & o & H & _); discriminate|].
      intros [H _]. discriminate.
Qed.

(** X18. [drawIcebergs] filters the list by the very test on which
    [drawIceberg] returns early, so that early return is never taken in a
    call made from [drawIcebergs]: with icebergs that have at least one
    outline point (as all icebergs of a session have, by X7) every call
    draws a polygon, one for each iceberg of the list in the visible
    area. *)
Theorem X18_drawIcebergs_draws_what_it_visits :
  forall canvas camera ices,
    (forall iceberg,
       inVisibleArea canvas camera iceberg
       = icebergOnScreen canvas camera iceberg) /\
    Forall (fun d => d <> OffScreen) (drawIcebergs canvas camera ices) /\
    (Forall (fun iceberg => (1 <= pointCount iceberg)%Z) ices ->
     Forall (fun d => exists first others, d = Polygon first others)
            (drawIcebergs canvas camera ices)).
Proof.
  intros canvas camera ices.
  split; [intros b; apply inVisibleArea_onScreen|].
  unfold drawIcebergs. split.
  - apply Forall_fmap, Forall_forall. intros b Hb.
    apply list_elem_of_filter in Hb as [Hvis _].
    apply Is_true_true in Hvis.
    unfold compose, drawIceberg.
    rewrite <- inVisibleArea_onScreen, Hvis.
    destruct (icebergPoints b); discriminate.
  - intros Hpts. apply Forall_fmap, Forall_forall. intros b Hb.
    apply list_elem_of_filter in Hb as [Hvis Hin].
    apply Is_true_true in Hvis.
    rewrite Forall_forall in Hpts. specialize (Hpts b Hin).
    unfold compose, drawIceberg.
    rewrite <- inVisibleArea_onScreen, Hvis.
    destruct (icebergPoints b) as [|first others] eqn:Hp; [|eauto].
    exfalso.
    assert (Hlen : length (icebergPoints b) = Z.to_nat (pointCount b))
      by (unfold icebergPoints; rewrite length_fmap, length_seqZ; reflexivity).
    rewrite Hp in Hlen. cbn [length] in Hlen. lia.
Qed.

Lemma X17_iceberg_outline_witness :
  (1 - icebergIrregularity) * 30
  <= euclid (fst (icebergPoint (mkIceberg 0 0 30 1 0) 0))
            (snd (icebergPoint (mkIceberg 0 0 30 1 0) 0)) 0 0
  <= (1 + icebergIrregularity) * 30.
Proof.
  apply (proj1 (proj2 (X17_iceberg_outline (mkCanvas 800 600) (mkCamera 0 0)
                         (mkIceberg 0 0 30 1 0)))).
  - cbn [size]. lra.
  - unfold icebergPoints. cbn [pointCount].
    apply list_elem_of_fmap_2, elem_of_seqZ. lia.
Defined.

Lemma X18_drawIcebergs_draws_what_it_visits_witness :
  Forall (fun d => exists first others, d = Polygon first others)
         (drawIcebergs (mkCanvas 800 600) (mkCamera 0 0)
                       [mkIceberg 0 0 30 6 0]).
Proof.
  apply (proj2 (proj2 (X18_drawIcebergs_draws_what_it_visits
                         (mkCanvas 800 600) (mkCamera 0 0)
                         [mkIceberg 0 0 30 6 0]))).
  constructor; [cbn [pointCount]; lia|constructor].
Defined.

(** ** The clock of the win screen *)

(** X19. The time shown on the win screen.  When the elapsed time is not
    negative, [minutes] is not negative, [seconds] is between 0 and 59, and
    together they are the elapsed time in whole seconds, rounded down.
    Once [winTime] is positive the clock no longer depends on the time at
    which the screen is drawn. *)
Theorem X19_win_clock :
  forall gameStartTime winTime now,
    (gameStartTime <= (if decide (winTime > 0) then winTime else now) ->
     let '(minutes, seconds) := winClock gameStartTime winTime now in
     (0 <= minutes)%Z /\ (0 <= seconds <= 59)%Z /\
     (60 * minutes + seconds)%Z
     = Math.floor (((if decide (winTime > 0) then winTime else now)
                    - gameStartTime) / 1000)) /\
    (winTime > 0 ->
     forall now',
       winClock gameStartTime winTime now'
       = winClock gameStartTime winTime now).
Proof.
  intros gameStartTime winTime now. split.
  - intros Hle. unfold winClock.
    set (endTime := if decide (winTime > 0) then winTime else now) in *.
    set (e := (endTime - gameStartTime) / 1000).
    assert (He : 0 <= e) by (unfold e; lra).
    unfold jsRemainder. rewrite decide_False by lra.
    destruct (floor_spec (e / 60)) as [Hm1 Hm2].
    set (m := Math.floor (e / 60)) in *.
    destruct (floor_spec (e - 60 * IZR m)) as [Hs1 Hs2].
    set (s := Math.floor (e - 60 * IZR m)) in *.
    assert (Hm : (0 <= m)%Z).
    { assert (H : (0 <= m < m + 1)%Z -> (0 <= m)%Z) by lia.
      destruct (Z_lt_le_dec m 0) as [Hneg|]; [|assumption].
      exfalso. apply IZR_lt in Hneg.
      assert (IZR m <= -1).
      { assert (Hz : (m <= -1)%Z) by (apply lt_IZR in Hneg; lia).
        apply IZR_le in Hz. exact Hz. }
      lra. }
    assert (Hs : (0 <= s <= 59)%Z).
    { assert (Hlo : (0 <= s)%Z).
      { destruct (Z_lt_le_dec s 0) as [Hneg|]; [|assumption].
        exfalso. assert (Hz : (s + 1 <= 0)%Z) by lia.
        apply IZR_le in Hz. rewrite plus_IZR in Hz. lra. }
      assert (Hhi : (s < 60)%Z) by (apply lt_IZR; lra).
      lia. }
    split; [exact Hm|]. split; [exact Hs|].
    symmetry. apply floor_eq.
    rewrite plus_IZR, mult_IZR. fold e. lra.
  - intros Hwin now'. unfold winClock. rewrite !decide_True by exact Hwin.
    reflexivity.
Qed.

Lemma X19_win_clock_witness :
  let '(minutes, seconds) := winClock 1000 126500 0 in
  (0 <= minutes)%Z /\ (0 <= seconds <= 59)%Z /\
  (60 * minutes + seconds)%Z
  = Math.floor (((if decide (126500 > 0) then 126500 else 0) - 1000) / 1000).
Proof.
  apply (proj1 (X19_win_clock 1000 126500 0)).
  rewrite decide_True by lra. lra.
Defined.

(** ** The smokestacks *)

(** X20. The row of smokestacks.  For any number of stacks and any
    radius the row is centred on the ship (the stack of index [i] and the
    stack of index [stackCount - 1 - i] are mirror images), neighbouring
    stacks are a diameter and 15 apart from centre to centre, and every
    stack disc lies within half the group width of the centre.  With the
    ship's own four stacks of radius 10, every stack disc lies inside the
    rectangle of the superstructure that [drawTopStructure] fills. *)
Theorem X20_smokestacks_centred_on_the_superstructure :
  (forall stackCount stackRadius i,
     stackX stackCount stackRadius i
     + stackX stackCount stackRadius (stackCount - 1 - i) = 0) /\
  (forall stackCount stackRadius i,
     stackX stackCount stackRadius (i + 1) - stackX stackCount stackRadius i
     = stackRadius * 2 + 15) /\
  (forall stackCount stackRadius i,
     0 <= stackRadius -> (0 <= i < stackCount)%Z ->
     Rabs (stackX stackCount stackRadius i) + stackRadius
     <= (IZR stackCount * (stackRadius * 2) + (IZR stackCount - 1) * 15) / 2) /\
  (forall i,
     (0 <= i < ship_stackCount)%Z ->
     discInRect (topStructureRect ship_length ship_width)
                (stackX ship_stackCount ship_stackRadius i) 0
                ship_stackRadius).
Proof.
  assert (Hspan : forall stackCount stackRadius i,
     0 <= stackRadius -> (0 <= i < stackCount)%Z ->
     Rabs (stackX stackCount stackRadius i) + stackRadius
     <= (IZR stackCount * (stackRadius * 2) + (IZR stackCount - 1) * 15) / 2).
  { intros n r i Hr Hi. unfold stackX.
    assert (H0 : 0 <= IZR i) by (apply IZR_le; lia).
    assert (H1 : IZR i <= IZR n - 1).
    { rewrite <- minus_IZR. apply IZR_le. lia. }
    apply Rplus_le_reg_r with (r := - r). ring_simplify.
    apply Rabs_le. split; nra. }
  split; [|split; [|split; [exact Hspan|]]].
  - intros n r i. unfold stackX. rewrite !minus_IZR. lra.
  - intros n r i. unfold stackX. rewrite plus_IZR. lra.
  - intros i Hi.
    pose proof (Hspan ship_stackCount ship_stackRadius i) as H.
    unfold ship_stackCount, ship_stackRadius in *.
    specialize (H ltac:(lra) Hi).
    set (x := stackX 4 10 i) in *. clearbody x.
    unfold discInRect, inRect, topStructureRect, ship_length, ship_width.
    destruct (Rabs_cases x) as [[? Hx] | [? Hx]]; rewrite Hx in H; lra.
Qed.

Lemma X20_smokestacks_centred_on_the_superstructure_witness :
  discInRect (topStructureRect ship_length ship_width)
             (stackX ship_stackCount ship_stackRadius 3) 0 ship_stackRadius.
Proof.
  apply (proj2 (proj2 (proj2 X20_smokestacks_centred_on_the_superstructure))).
  unfold ship_stackCount. lia.
Defined.

(** ** The minimap *)

Lemma minimapScale_value : minimapScale = 0.018.
Proof.
  unfold minimapScale, worldConfig.width, worldConfig.height, Math.min.
  rewrite Rmin_left by lra. lra.
Qed.

(** X21. The minimap.  The rectangle stroked for the world lies inside
    the panel of the minimap, and a point is marked inside that rectangle
    exactly when it is a point of the bounded world (nothing keeps the
    mark of the ship there when it sails out of the world).  A port on an
    edge stretch is marked, together with the circle stroked around it,
    inside the rectangle; so are, for draws that [Math.random] can return,
    the start port and the goal of the start-up. *)
Theorem X21_minimap_marks :
  (forall canvas x y,
     rectInRect (minimapWorldRect canvas) (minimapPanel canvas) /\
     (inRect (minimapWorldRect canvas)
             (fst (minimapMark canvas x y)) (snd (minimapMark canvas x y)) <->
      0 <= x <= worldConfig.width /\ 0 <= y <= worldConfig.height)) /\
  (forall canvas edge p,
     onEdge edge p ->
     discInRect (minimapWorldRect canvas)
                (fst (minimapMark canvas (port_x p) (port_y p)))
                (snd (minimapMark canvas (port_x p) (port_y p)))
                minimapPortRadius) /\
  (forall cv now draws w0 rest canvas,
     unitDraws draws ->
     Extended.initialWorld cv now draws = Some (w0, rest) ->
     forall p,
       p = Extended.startPort w0 \/ p = Extended.goal w0 ->
       discInRect (minimapWorldRect canvas)
                  (fst (minimapMark canvas (port_x p) (port_y p)))
                  (snd (minimapMark canvas (port_x p) (port_y p)))
                  minimapPortRadius).
Proof.
  assert (Hport : forall canvas edge p,
     onEdge edge p ->
     discInRect (minimapWorldRect canvas)
                (fst (minimapMark canvas (port_x p) (port_y p)))
                (snd (minimapMark canvas (port_x p) (port_y p)))
                minimapPortRadius).
  { intros canvas edge p Hon. destruct (onEdge_inside _ _ Hon) as [Hx Hy].
    unfold discInRect, inRect, minimapWorldRect, minimapMark,
      minimapPortRadius, minimapOffset. cbn [fst snd].
    rewrite minimapScale_value.
    unfold goalConfig.edgeOffset, goalConfig.radius, worldConfig.width,
      worldConfig.height in *. lra. }
  split; [|split; [exact Hport|]].
  - intros canvas x y.
    unfold rectInRect, inRect, minimapPanel, minimapWorldRect, minimapMark,
      minimapOffset.
    cbn [fst snd]. rewrite minimapScale_value.
    unfold worldConfig.width, worldConfig.height. lra.
  - intros cv now draws w0 rest canvas Hunit Hinit p Hp.
    destruct (Extended_initialWorld_placement _ _ _ _ _ Hunit Hinit)
      as (r0 & r1 & rx & ry & more & edge & _ & Hon & _ & _ & _ & _ & _
          & _ & Hong & _).
    destruct Hp as [-> | ->]; eapply Hport; eassumption.
Qed.

Lemma X21_minimap_marks_witness :
  discInRect (minimapWorldRect (mkCanvas 800 600))
             (fst (minimapMark (mkCanvas 800 600) 300 5000))
             (snd (minimapMark (mkCanvas 800 600) 300 5000))
             minimapPortRadius.
Proof.
  apply (proj1 (proj2 X21_minimap_marks) (mkCanvas 800 600) 3%Z
           (mkPort 300 5000 true)).
  unfold onEdge, goalConfig.edgeOffset, worldConfig.height.
  cbn [port_x port_y]. lra.
Defined.

(** ** Repetition in the iceberg field *)

(** A candidate of a chunk east of the origin column is always accepted. *)
Lemma candidate_accepted chunkX chunkY i :
  (1 <= chunkX)%Z ->
  exists iceberg,
    WorldGenerator.candidateStep chunkX chunkY [] i = [iceberg].
Proof.
  intros Hcx. unfold WorldGenerator.candidateStep.
  set (s := (chunkX * 1000 + chunkY + i)%Z).
  pose proof (fracHash_range (Math.sin (IZR s * 0.1) * 10000)) as Hfx.
  set (fx := WorldGenerator.fracHash (Math.sin (IZR s * 0.1) * 10000)) in *.
  set (y := IZR chunkY * icebergGridSize + _).
  clearbody fx y.
  assert (Hx : 1 <= IZR chunkX) by (apply IZR_le; exact Hcx).
  rewrite decide_False; [eexists; reflexivity|].
  unfold WorldGenerator.startSafeRadius, icebergGridSize in *.
  apply Rle_not_lt. apply sqrt_above; [lra|]. nra.
Qed.

(** X22. The field repeats itself.  The generator seeds the candidate of
    index [i] of chunk (chunkX, chunkY) with [chunkX * 1000 + chunkY + i],
    so the candidate of index [i] of a chunk and the candidate of index
    [i + 1] of the chunk above it (one less in [chunkY]) have the same seed:
    when both are accepted they are the same iceberg (same size, outline
    and place in the chunk), one chunk height apart.  The same holds for
    index [i] of chunk (chunkX + 1, chunkY) and index [i + 1000] of chunk
    (chunkX, chunkY), a chunk width and a thousand chunk heights apart. *)
Theorem X22_neighbouring_chunks_share_icebergs :
  (forall chunkX chunkY i upper lower,
     WorldGenerator.candidateStep chunkX chunkY [] (i + 1) = [upper] ->
     WorldGenerator.candidateStep chunkX (chunkY + 1) [] i = [lower] ->
     lower = shifted 0 icebergGridSize upper) /\
  (forall chunkX chunkY i west east,
     WorldGenerator.candidateStep chunkX (chunkY + 1000) [] i = [west] ->
     WorldGenerator.candidateStep (chunkX + 1) chunkY [] i = [east] ->
     east = shifted icebergGridSize (- (1000 * icebergGridSize)) west).
Proof.
  split.
  - intros cx cy i upper lower. unfold WorldGenerator.candidateStep.
    replace (cx * 1000 + (cy + 1) + i)%Z with (cx * 1000 + cy + (i + 1))%Z
      by lia.
    set (s := (cx * 1000 + cy + (i + 1))%Z).
    set (fx := WorldGenerator.fracHash (Math.sin (IZR s * 0.1) * 10000)).
    set (fy := WorldGenerator.fracHash (Math.cos (IZR s * 0.1) * 10000)).
    set (sz := icebergsConfig.minSize + _).
    set (pc := Math.floor _).
    clearbody fx fy sz pc.
    repeat case_decide; try discriminate.
    intros [= <-] [= <-]. unfold shifted.
    cbn [ice_x ice_y size pointCount seed]. rewrite plus_IZR.
    f_equal; lra.
  - intros cx cy i west east. unfold WorldGenerator.candidateStep.
    replace ((cx + 1) * 1000 + cy + i)%Z with (cx * 1000 + (cy + 1000) + i)%Z
      by lia.
    set (s := (cx * 1000 + (cy + 1000) + i)%Z).
    set (fx := WorldGenerator.fracHash (Math.sin (IZR s * 0.1) * 10000)).
    set (fy := WorldGenerator.fracHash (Math.cos (IZR s * 0.1) * 10000)).
    set (sz := icebergsConfig.minSize + _).
    set (pc := Math.floor _).
    clearbody fx fy sz pc.
    repeat case_decide; try discriminate.
    intros [= <-] [= <-]. unfold shifted.
    cbn [ice_x ice_y size pointCount seed]. rewrite !plus_IZR.
    f_equal; lra.
Qed.

Lemma X22_neighbouring_chunks_share_icebergs_witness :
  exists upper lower,
    WorldGenerator.candidateStep 1 0 [] (0 + 1) = [upper] /\
    WorldGenerator.candidateStep 1 (0 + 1) [] 0 = [lower] /\
    lower = shifted 0 icebergGridSize upper.
Proof.
  destruct (candidate_accepted 1 0 (0 + 1)) as [upper Hu]; [lia|].
  destruct (candidate_accepted 1 (0 + 1) 0) as [lower Hl]; [lia|].
  exists upper, lower. split; [exact Hu|]. split; [exact Hl|].
  exact (proj1 X22_neighbouring_chunks_share_icebergs 1%Z 0%Z 0%Z
           upper lower Hu Hl).
Defined.

(** ** The end screens are earned *)

Lemma Simple_tail_outcome w :
  Simple.gameOver w = false ->
  let w' := Simple.drawGameOver
              (Simple.drawShip (Simple.checkCollisions w)) in
  Simple.gameOver w' = collisionLoop (Simple.camera w) (Simple.icebergs w) /\
  Simple.camera w' = Simple.camera w /\
  Simple.icebergs w' = Simple.icebergs w.
Proof.
  destruct w as [running over anim cam ices loaded s last cv btn].
  simple_world_cbn. intros ->.
  unfold Simple.checkCollisions. simple_world_cbn.
  destruct (collisionLoop _ _);
    unfold Simple.drawShip; simple_world_cbn;
    unfold Simple.drawGameOver; simple_world_cbn; repeat split.
Qed.

Lemma Simple_frame_earned currentTime keys w w' :
  Simple.gameLoop currentTime keys w = Some w' ->
  simpleSound w ->
  (Simple.gameOver w = true ->
   exists iceberg, iceberg ∈ Simple.icebergs w /\ touches (Simple.camera w) iceberg) ->
  (Simple.gameOver w' = true ->
   exists iceberg,
     iceberg ∈ Simple.icebergs w' /\ touches (Simple.camera w') iceberg).
Proof.
  intros H Hsound Hw.
  destruct (Simple_gameLoop_cases _ _ _ _ H)
    as [(_ & _ & ->) | [(Hover & ->) | (Hrun & Hover & f' & Hf & ->)]].
  - exact Hw.
  - destruct (Simple_draw_frame
                (Simple.set_animationTime (Simple.animationTime w + 0.5)
                   (Simple.set_lastTime currentTime w))) as (Hc & Hi & Hg).
    rewrite Hc, Hi. intros _. apply Hw. exact Hover.
  - set (wu := Simple.updateShip _ _ _) in *.
    destruct Hsound as (_ & _ & _ & Hfield).
    destruct (Simple_updateShip_icebergs
                (Math.min ((currentTime - Simple.lastTime w) / 16.67) 2) keys
                (Simple.set_animationTime (Simple.animationTime w + 0.5)
                   (Simple.set_lastTime currentTime w)))
      as (_ & _ & _ & Hgo).
    fold wu in Hgo.
    destruct (Simple_tail_outcome (Simple.set_field f' wu))
      as (Ho & Hcam & Hi);
      [change (Simple.gameOver wu = false); rewrite Hgo; exact Hover|].
    rewrite Ho, Hcam, Hi. intros Hhit.
    apply collisionLoop_exact in Hhit; [exact Hhit|].
    change (Simple.icebergs (Simple.set_field f' wu))
      with (WorldGenerator.f_icebergs f').
    eapply fieldGenerated_wellSized.
    eapply ensure_fieldGenerated; [exact Hf|exact Hfield].
Qed.

Lemma Extended_terminal_frame_same w anim last :
  let w' := ExtendedSession.drawWinScreen
              (Extended.drawGameOver
                 (Extended.drawShip
                    (Extended.set_animationTime anim
                       (Extended.set_lastTime last w)))) in
  Extended.icebergs w' = Extended.icebergs w /\
  Extended.camera w' = Extended.camera w /\
  Extended.goal w' = Extended.goal w /\
  Extended.gameOver w' = Extended.gameOver w /\
  Extended.gameWon w' = Extended.gameWon w /\
  Extended.canvas w' = Extended.canvas w.
Proof.
  destruct w as [running over won anim0 dist start wint coal g sp cam ices
                 loaded s last0 cv btn].
  unfold Extended.drawShip. extended_world_cbn.
  unfold Extended.drawGameOver. extended_world_cbn.
  destruct over; extended_world_cbn;
    unfold ExtendedSession.drawWinScreen; extended_world_cbn;
    destruct won; extended_world_cbn; repeat split.
Qed.

Lemma Extended_frame_earned currentTime now keys w w' :
  ExtendedSession.frame currentTime now keys w = Some w' ->
  extendedSound w ->
  (Extended.gameOver w = true ->
   exists iceberg,
     iceberg ∈ Extended.icebergs w /\ touches (Extended.camera w) iceberg) /\
  (Extended.gameWon w = true ->
   atPort (Extended.camera w) (Extended.goal w)) ->
  (Extended.gameOver w' = true ->
   exists iceberg,
     iceberg ∈ Extended.icebergs w' /\ touches (Extended.camera w') iceberg) /\
  (Extended.gameWon w' = true ->
   atPort (Extended.camera w') (Extended.goal w')).
Proof.
  unfold ExtendedSession.frame.
  destruct (Extended.gameLoop currentTime now keys w) as [wg|] eqn:H;
    [|discriminate].
  cbn [mbind option_bind]. intros [= <-] Hsound Hw.
  destruct (Extended_gameLoop_cases _ _ _ _ _ H)
    as [(_ & _ & Hwon & ->) | [(Hterm & ->) |
        (Hrun & Hover & Hwon & f' & Hf & ->)]].
  - unfold ExtendedSession.drawWinScreen. rewrite Hwon. exact Hw.
  - destruct (Extended_terminal_frame_same w
                (Extended.animationTime w + 0.5) currentTime)
      as (-> & -> & -> & -> & -> & _).
    exact Hw.
  - set (wu := Extended.updateShip _ _ _) in *.
    destruct Hsound as (_ & _ & _ & _ & _ & _ & _ & Hgoal & Hfield).
    destruct (Extended_updateShip_icebergs
                (Math.min ((currentTime - Extended.lastTime w) / 16.67) 2) keys
                (Extended.set_animationTime (Extended.animationTime w + 0.5)
                   (Extended.set_lastTime currentTime w)))
      as (_ & _ & _ & Hgo & Hgw).
    fold wu in Hgo, Hgw.
    assert (Hgoal' : generated (Extended.goal (Extended.set_field f' wu)) = true).
    { change (Extended.goal (Extended.set_field f' wu))
        with (Extended.goal wu).
      unfold wu, Extended.updateShip. destruct (turnAboutPivot _ _ _ _).
      exact Hgoal. }
    destruct (Extended_tail_outcome now (Extended.set_field f' wu))
      as (Ho & Hwn & _ & Hcam & Hg & Hi);
      [change (Extended.gameOver wu = false); rewrite Hgo; exact Hover
      |change (Extended.gameWon wu = false); rewrite Hgw; exact Hwon
      |exact Hgoal'|].
    rewrite Ho, Hwn, Hcam, Hg, Hi. split.
    + intros Hhit. apply collisionLoop_exact in Hhit; [exact Hhit|].
      change (Extended.icebergs (Extended.set_field f' wu))
        with (WorldGenerator.f_icebergs f').
      eapply fieldGenerated_wellSized.
      eapply ensure_fieldGenerated; [exact Hf|exact Hfield].
    + rewrite andb_true_iff, bool_decide_eq_true. intros [_ Hnear].
      exact Hnear.
Qed.

Lemma Extended_restartGame_flags now now' draws w w' draws' :
  Extended.restartGame now now' draws w = Some (w', draws') ->
  Extended.gameOver w' = false /\ Extended.gameWon w' = false.
Proof.
  unfold Extended.restartGame.
  destruct (Extended.generateStartPort _ _) as [[w1 d1]|] eqn:H1;
    [|discriminate].
  cbn [mbind option_bind].
  destruct (Extended.generateGoal d1 w1) as [[w2 d2]|] eqn:H2;
    [|discriminate].
  cbn [mbind option_bind]. intros [= <- <-].
  apply generateStartPort_inv in H1 as (r & ed & p & rx & ry & _ & _ & ->).
  apply generateGoal_inv in H2 as (edge & rest & g & _ & _ & ->).
  split; reflexivity.
Qed.

(** A session that is lost: the start-up of [Extended_initialWorld_example]
    and one frame with no key held. *)
Lemma Extended_lost_example :
  exists w, extendedReachable w /\ Extended.gameOver w = true.
Proof.
  destruct Extended_first_frame_example
    as (w0 & Hinit & Hport & Hcam & Hrun & Hover & Hwon & Hices & Hframe).
  destruct (Hframe 16 16 (mkKeys false false false false))
    as (w1 & b & Hloop & _ & Hb & Hbx & Hby & Hbsize & Hcamera).
  destruct (Hcamera eq_refl) as [Hx Hy].
  assert (Hlost : Extended.gameOver w1 = true).
  { assert (Hsizes : Forall wellSized (Extended.icebergs w0))
      by (rewrite Hices; apply Forall_nil; exact I).
    apply (Extended_gameLoop_collision _ _ _ _ _ Hrun Hover Hwon Hsizes Hloop).
    exists b. split; [exact Hb|].
    unfold distanceTo, euclid. rewrite Hx, Hy, Hcam. cbn [cam_x cam_y].
    destruct Hbsize as [Hmin _].
    unfold icebergsConfig.minSize in Hmin. unfold shipRadius, ship_width.
    apply sqrt_under; [apply sum_of_squares_nonneg | lra | nra]. }
  exists (ExtendedSession.drawWinScreen w1). split.
  - exists (mkCanvas 800 600), 0, [0; 0; 0.5; 0.5; 0.25; 0], w0, [],
      [ExtendedSession.Frame 16 16 (mkKeys false false false false)].
    split; [exact Hinit|].
    unfold ExtendedSession.run.
    cbn [forEach ExtendedSession.step]. unfold ExtendedSession.frame.
    rewrite Hloop. reflexivity.
  - unfold ExtendedSession.drawWinScreen. destruct (negb _); exact Hlost.
Qed.

(** X23. The end screens are earned.  Whenever, in a session, the game
    is over, some iceberg of the list touches the ship where it lies
    (their centres are nearer than the sum of the two radii); and in the
    extended variant, whenever the game is won, the ship lies within
    [goalConfig.radius] of the goal, and [drawGoal] draws the island of the
    goal on the canvas under the win screen.  This holds at every later
    frame and click too, until a restart.  Both variants. *)
Theorem X23_end_screens_are_earned :
  (forall w,
     simpleReachable w -> Simple.gameOver w = true ->
     exists iceberg,
       iceberg ∈ Simple.icebergs w /\ touches (Simple.camera w) iceberg) /\
  (forall w,
     extendedReachable w ->
     (Extended.gameOver w = true ->
      exists iceberg,
        iceberg ∈ Extended.icebergs w /\
        touches (Extended.camera w) iceberg) /\
     (Extended.gameWon w = true ->
      atPort (Extended.camera w) (Extended.goal w) /\
      ((0 <= width (Extended.canvas w))%Z ->
       (0 <= height (Extended.canvas w))%Z ->
       drawGoal w
       = Some (port_x (Extended.goal w) - cam_x (Extended.camera w)
               + IZR (width (Extended.canvas w)) / 2,
               port_y (Extended.goal w) - cam_y (Extended.camera w)
               + IZR (height (Extended.canvas w)) / 2)))).
Proof.
  split.
  - intros w (cv & now & events & Hrun).
    unfold SimpleSession.run in Hrun.
    assert (H : simpleSound w /\
                (Simple.gameOver w = true ->
                 exists iceberg,
                   iceberg ∈ Simple.icebergs w /\
                   touches (Simple.camera w) iceberg)); [|tauto].
    eapply (forEach_preserves _
              (fun v => simpleSound v /\
                 (Simple.gameOver v = true ->
                  exists iceberg,
                    iceberg ∈ Simple.icebergs v /\
                    touches (Simple.camera v) iceberg)));
      [|idtac|exact Hrun].
    + intros e v v' He [Hsound Hv].
      split; [eapply Simple_step_sound; eassumption|].
      destruct e as [currentTime keys | x y now0];
        cbn [SimpleSession.step] in He.
      * eapply Simple_frame_earned; eassumption.
      * injection He as <-. unfold SimpleSession.click.
        destruct (negb _); [exact Hv|].
        destruct (Simple.gameOverButton v) as [b|]; [|exact Hv].
        destruct (insideButton x y b); [|exact Hv].
        intros [=].
    + split; [|intros [=]].
      apply Simple_reachable_sound, Simple_reachable_initial.
  - intros w Hreach.
    pose proof (Extended_reachable_sound w Hreach) as Hsoundw.
    destruct Hreach as (cv & now & draws & w0 & rest & events & Hinit & Hrun).
    unfold ExtendedSession.run in Hrun.
    assert (H : extendedSound w /\
                ((Extended.gameOver w = true ->
                  exists iceberg,
                    iceberg ∈ Extended.icebergs w /\
                    touches (Extended.camera w) iceberg) /\
                 (Extended.gameWon w = true ->
                  atPort (Extended.camera w) (Extended.goal w)))).
    { eapply (forEach_preserves _
                (fun v => extendedSound v /\
                   ((Extended.gameOver v = true ->
                     exists iceberg,
                       iceberg ∈ Extended.icebergs v /\
                       touches (Extended.camera v) iceberg) /\
                    (Extended.gameWon v = true ->
                     atPort (Extended.camera v) (Extended.goal v)))));
        [|idtac|exact Hrun].
      - intros e v v' He [Hsound Hv].
        split; [eapply Extended_step_sound; eassumption|].
        destruct e as [currentTime now0 keys | x y now0 now' draws0];
          cbn [ExtendedSession.step] in He.
        + eapply Extended_frame_earned; eassumption.
        + unfold ExtendedSession.click in He.
          destruct (negb _ && negb _); [injection He as <-; exact Hv|].
          destruct (Extended.gameOverButton v) as [b|];
            [|injection He as <-; exact Hv].
          destruct (insideButton x y b); [|injection He as <-; exact Hv].
          destruct (Extended.restartGame now0 now' draws0 v)
            as [[wr dr]|] eqn:Hr; [|discriminate].
          cbn [fmap option_fmap option_map fst] in He. injection He as <-.
          destruct (Extended_restartGame_flags _ _ _ _ _ _ Hr) as [-> ->].
          split; intros [=].
      - split; [apply (Extended_initialWorld_sound _ _ _ _ _ Hinit)|].
        destruct (Extended_initialWorld_sound _ _ _ _ _ Hinit)
          as [(Hflags & _) _].
        assert (Hrun0 : Extended.gameRunning w0 = true).
        { unfold Extended.initialWorld in Hinit.
          destruct (Extended.generateStartPort _ _) as [[w1 d1]|] eqn:H1;
            [|discriminate].
          cbn [mbind option_bind] in Hinit.
          destruct (Extended.generateGoal d1 w1) as [[w2 d2]|] eqn:H2;
            [|discriminate].
          cbn [mbind option_bind] in Hinit. injection Hinit as <- <-.
          apply generateStartPort_inv in H1
            as (r & ed & p & rx & ry & _ & _ & ->).
          apply generateGoal_inv in H2 as (edge & rest' & g & _ & _ & ->).
          reflexivity. }
        rewrite Hrun0 in Hflags.
        destruct (Extended.gameOver w0), (Extended.gameWon w0);
          try discriminate.
        split; intros [=]. }
    destruct H as (Hsound & Hover & Hwon).
    split; [exact Hover|]. intros Hw. specialize (Hwon Hw).
    split; [exact Hwon|]. intros Hwd Hht.
    destruct Hsound as (_ & _ & _ & _ & _ & _ & _ & Hgoal & _).
    unfold drawGoal.
    apply (drawPort_in_view _ _ _ (cam_x (Extended.camera w))
             (cam_y (Extended.camera w)) Hgoal).
    + apply IZR_le in Hwd, Hht. unfold inViewport. lra.
    + unfold atPort in Hwon. lra.
Qed.

Lemma X23_end_screens_are_earned_witness :
  exists w iceberg,
    extendedReachable w /\ Extended.gameOver w = true /\
    iceberg ∈ Extended.icebergs w /\ touches (Extended.camera w) iceberg.
Proof.
  destruct Extended_lost_example as (w & Hreach & Hlost).
  destruct (proj1 (proj2 X23_end_screens_are_earned w Hreach) Hlost)
    as (iceberg & Hin & Htouch).
  exists w, iceberg. auto.
Defined.
